(** * Sandbox lifecycle engine: a shallow embedding and its properties

    The development follows the C++ sources of the sandbox platform:
    [utils/Syscalls.cpp], the isolation modules ([Namespaces], [Cgroups],
    [RootFS], [Mounts], [Seccomp], [Caps], [AIAgent]) and the engine
    [core/SandboxManager.cpp].

    Modelling conventions.
    - A [std::string] is a Rocq [string] (a sequence of 8-bit characters).
    - C integers are [Z]; the constants of the Linux headers carry their
      numeric values.
    - Every operating-system or library call is a [SysCall]; its result is
      chosen by an oracle [OS] that sees the history of earlier calls, so a
      statement quantified over [OS] holds for every behaviour of the kernel.
    - A computation returns the events it added, in program order.  It may
      also end the process ([_exit]) or replace its image ([execve]); the
      [Outcome] type records which.
    - The logging macros ([SANDBOX_INFO] and the like) are left out. *)

From Stdlib Require Import ZArith String Ascii List Bool Lia OrderedTypeEx.
From stdpp Require Import base decidable option list strings pretty gmap.

#[local] Set Warnings "-clear-no-such-hyp".

Local Open Scope string_scope.
Local Open Scope Z_scope.
Local Open Scope list_scope.

(** ** Constants of the Linux headers used by the sources *)

Module K.
Definition MS_RDONLY : Z := 1.
Definition MS_NOSUID : Z := 2.
Definition MS_NODEV : Z := 4.
Definition MS_NOEXEC : Z := 8.
Definition MS_REMOUNT : Z := 32.
Definition MS_BIND : Z := 4096.
Definition MS_REC : Z := 16384.
Definition MS_PRIVATE : Z := 262144.
Definition MS_STRICTATIME : Z := 16777216.
Definition MNT_DETACH : Z := 2.

Definition CLONE_NEWNS : Z := 0x00020000.
Definition CLONE_NEWUTS : Z := 0x04000000.
Definition CLONE_NEWIPC : Z := 0x08000000.
Definition CLONE_NEWUSER : Z := 0x10000000.
Definition CLONE_NEWPID : Z := 0x20000000.
Definition CLONE_NEWNET : Z := 0x40000000.

Definition SECCOMP_RET_KILL : Z := 0x00000000.
Definition SECCOMP_RET_TRAP : Z := 0x00030000.
Definition SECCOMP_RET_ERRNO : Z := 0x00050000.
Definition SECCOMP_RET_TRACE : Z := 0x7ff00000.
Definition SECCOMP_RET_LOG : Z := 0x7ffc0000.
Definition SECCOMP_RET_ALLOW : Z := 0x7fff0000.
Definition SECCOMP_MODE_FILTER : Z := 2.
Definition SCMP_ACT_ALLOW : Z := 0x7fff0000.
Definition NR_SCMP_ERROR : Z := -1.

Definition SIGKILL : Z := 9.
Definition SIGTERM : Z := 15.
Definition WNOHANG : Z := 1.

Definition CAP_EFFECTIVE : Z := 0.
Definition CAP_PERMITTED : Z := 1.
Definition CAP_INHERITABLE : Z := 2.
End K.

(** The wait-status macros of [<sys/wait.h>] (glibc), on an [int] status. *)
Definition WTERMSIG (status : Z) : Z := Z.land status 0x7f.
Definition WEXITSTATUS (status : Z) : Z := Z.shiftr (Z.land status 0xff00) 8.
Definition WIFEXITED (status : Z) : bool := WTERMSIG status =? 0.
(** [((signed char) ((status & 0x7f) + 1) >> 1) > 0] *)
Definition signed_char (z : Z) : Z :=
  let b := z mod 256 in if b <? 128 then b else b - 256.
Definition WIFSIGNALED (status : Z) : bool :=
  0 <? Z.shiftr (signed_char (Z.land status 0x7f + 1)) 1.

(** ** Strings *)

(** [std::to_string] on an integer. *)
Definition to_string (z : Z) : string := pretty z.

(** What appending a [char*] buffer to a [std::string] keeps of it: the
    characters before the first NUL. *)
Fixpoint c_str (s : string) : string :=
  match s with
  | EmptyString => EmptyString
  | String c r => if Ascii.eqb c Ascii.zero then EmptyString else String c (c_str r)
  end.

(** Splitting at a delimiter; the segments of ["a/b"] are ["a"] and ["b"]. *)
Fixpoint split_at (d : ascii) (cur s : string) : list string :=
  match s with
  | EmptyString => [cur]
  | String c r =>
      if Ascii.eqb c d then cur :: split_at d EmptyString r
      else split_at d (cur +:+ String c EmptyString) r
  end.

(** The tokens that a [while (std::getline(ss, token, '/'))] loop sees:
    the segments, without a last segment that is empty ([getline] fails
    when it meets the end of the stream before extracting anything). *)
Definition getline_tokens (path : string) : list string :=
  let segs := split_at "/"%char EmptyString path in
  match last segs with
  | Some EmptyString => removelast segs
  | _ => segs
  end.

(** ** Configuration ([core/ConfigParser.h]) *)

Record UIDMap := { host_uid : Z; container_uid : Z; uid_count : Z }.
Record GIDMap := { host_gid : Z; container_gid : Z; gid_count : Z }.
Record BindMount := { bm_source : string; bm_target : string; read_only : bool }.

Record SandboxConfig := {
  name : string;
  hostname : string;
  rootfs_path : string;
  command : list string;
  auto_bootstrap : bool;
  distro : string;
  release : string
}.

Record ResourcesConfig := {
  memory_mb : Z;
  cpu_quota_percent : Z;
  max_pids : Z;
  enable_swap : bool
}.

Record IsolationConfig := {
  namespaces : list string;
  uid_map : UIDMap;
  gid_map : GIDMap
}.

Record SecurityConfig := {
  capabilities : list string;
  seccomp_policy : string;
  seccomp_profile_path : string
}.

Record MountsConfig := { bind_mounts : list BindMount; volumes : list string }.

Record AIModuleConfig := { ai_enabled : bool; api_key_env : string }.

Record SandboxConfiguration := {
  sandbox : SandboxConfig;
  resources : ResourcesConfig;
  isolation : IsolationConfig;
  security : SecurityConfig;
  mounts : MountsConfig;
  ai_module : AIModuleConfig
}.

(** [ConfigParser::createDefaultConfig]. *)
Definition createDefaultConfig : SandboxConfiguration := {|
  sandbox := {| name := "sandbox-default"; hostname := "sandbox-container";
                rootfs_path := "/var/lib/sandbox/rootfs/ubuntu_focal";
                command := ["/bin/bash"]; auto_bootstrap := false;
                distro := "ubuntu"; release := "focal" |};
  resources := {| memory_mb := 512; cpu_quota_percent := 50; max_pids := 100;
                  enable_swap := false |};
  isolation := {| namespaces := ["pid"; "net"; "ipc"; "uts"; "mount"; "user"];
                  uid_map := {| host_uid := 1000; container_uid := 0; uid_count := 1 |};
                  gid_map := {| host_gid := 1000; container_gid := 0; gid_count := 1 |} |};
  security := {| capabilities := []; seccomp_policy := "default";
                 seccomp_profile_path := "" |};
  mounts := {| bind_mounts := [ {| bm_source := "/tmp"; bm_target := "/tmp";
                                   read_only := false |} ];
               volumes := [] |};
  ai_module := {| ai_enabled := false; api_key_env := "OPENAI_API_KEY" |}
|}.

(** ** Operating-system calls, their results and the oracle *)

Inductive SysCall :=
  | CExists (path : string)
  | CIsDirectory (path : string)
  | CMkdir (path : string) (mode : Z)
  | CRemoveAll (path : string)
  | CWriteFile (path content : string)
  | CReadFile (path : string)
  | CMount (source target fstype : string) (flags : Z) (data : option string)
  | CUmount2 (path : string) (flags : Z)
  | CPivotRoot (newRoot putOld : string)
  | CChdir (path : string)
  | CUnshare (flags : Z)
  | CClone (flags : Z)
  | CSetHostname (host : string)
  | CPrctlSetName (title : string)
  | CPrctlSetSeccomp (mode : Z) (filter : string)
  | CPrctlSetNoNewPrivs (arg : Z)
  | CDup2 (oldfd newfd : Z)
  | CGetpid
  | CFork
  | CPipe
  | CClose (fd : Z)
  | CKill (pid sig : Z)
  | CWaitpid (pid options : Z)
  | CRead (fd count : Z)
  | CExecve (path : string) (argv : list string)
  | CExeclp (file : string) (argv : list string)
  | CSleepMs (ms : Z)
  | CCapGetProc
  | CCapInit
  | CCapClear
  | CCapSetFlag (flag : Z) (caps : list Z)
  | CCapSetProc
  | CCapUpdateAmbient (cap : Z)
  | CCapFree
  | CSeccompInit (action : Z)
  | CSeccompResolveName (syscall : string)
  | CSeccompRuleAdd (action nr : Z)
  | CSeccompExportBpf (with_buffer : bool)
  | CSeccompRelease
  | CGetenv (var : string)
  | CCurlEasyInit
  | CCurlEasyCleanup.

(** The result of a call: the returned integer ([rv]: a status, a pid, a
    byte count; [0] stands for a null pointer or [false]), the integers
    written to out-parameters ([out]: the two descriptors of [pipe], the
    status of [waitpid], a blob size) and the bytes delivered ([data]). *)
Record Ret := mkRet { rv : Z; out : list Z; data : string }.

Definition SysEvent : Type := SysCall * Ret.

(** The environment: [answer] gives the result of a call after a history;
    [pipe_data] is the finite sequence of chunks that successive [read]s of
    the capture pipe deliver before the end of file. *)
Record OS := {
  answer : list SysEvent → SysCall → Ret;
  pipe_data : list string
}.

Global Instance SysCall_eq_dec : EqDecision SysCall.
Proof. solve_decision. Defined.
Global Instance Ret_eq_dec : EqDecision Ret.
Proof. solve_decision. Defined.

(** How a computation of the process ends: it returns a value, the
    process has called [_exit], or [exec] has replaced the program. *)
Inductive Outcome (A : Type) :=
  | Val (a : A)
  | Exited (code : Z)
  | Execed.
Arguments Val {A} a.
Arguments Exited {A} code.
Arguments Execed {A}.

Definition outcome_map {A B} (f : A → B) (o : Outcome A) : Outcome B :=
  match o with
  | Val a => Val (f a)
  | Exited c => Exited c
  | Execed => Execed
  end.

(** *** Programs

    The engine's events are its own calls and the hooks it dispatches; a
    hook event carries the calls made inside the hook and what the hook
    returned.  Module code ([Sys]) produces plain calls, engine code
    ([Eng]) produces engine events; both are programs over the oracle. *)

Inductive Phase := PhInitialize | PhPrepareChild | PhApplyChild | PhCleanup.

Global Instance Phase_eq_dec : EqDecision Phase.
Proof. solve_decision. Defined.

Inductive EngEvent :=
  | ESys (e : SysEvent)
  | EHook (ph : Phase) (module : string) (body : list SysEvent) (res : Outcome bool).

Class Flat (E : Type) := flatten : E → list SysEvent.
Global Instance Flat_sys : Flat SysEvent := λ e, [e].
Global Instance Flat_eng : Flat EngEvent := λ e,
  match e with
  | ESys e => [e]
  | EHook _ _ body _ => body
  end.

(** The calls of a trace, in order. *)
Definition flat {E} `{Flat E} (t : list E) : list SysEvent := concat (map flatten t).

Record Prog (E A : Type) := MkProg {
  runProg : OS → list SysEvent → Outcome A * list E
}.
Arguments MkProg {E A} _.
Arguments runProg {E A} _ _ _.

Abbreviation Sys := (Prog SysEvent).
Abbreviation Eng := (Prog EngEvent).

Definition prog_ret {E A} (a : A) : Prog E A := MkProg (λ _ _, (Val a, [])).

Definition prog_bind {E} `{Flat E} {A B} (f : A → Prog E B) (m : Prog E A) : Prog E B :=
  MkProg (λ os h,
    match runProg m os h with
    | (Val a, t1) => let '(o, t2) := runProg (f a) os (h ++ flat t1) in (o, t1 ++ t2)
    | (Exited c, t1) => (Exited c, t1)
    | (Execed, t1) => (Execed, t1)
    end).

Global Instance Prog_ret {E} : MRet (Prog E) := @prog_ret E.
Global Instance Prog_bind {E} `{Flat E} : MBind (Prog E) := @prog_bind E _.

(** One call of module code: ask the oracle, record the event. *)
Definition call (c : SysCall) : Sys Ret :=
  MkProg (λ os h, let r := answer os h c in (Val r, [(c, r)])).

(** [_exit(code)]. *)
Definition prog_exit {E A} (code : Z) : Prog E A := MkProg (λ _ _, (Exited code, [])).

(** [exec]: returns only when it fails. *)
Definition exec_call (c : SysCall) : Sys Z :=
  MkProg (λ os h, let r := answer os h c in
                  (if rv r <? 0 then Val (rv r) else Execed, [(c, r)])).

(** Code of the syscall layer run by the engine outside any hook. *)
Definition lift {A} (m : Sys A) : Eng A :=
  MkProg (λ os h, let '(o, t) := runProg m os h in (o, map ESys t)).

(** A call made by the engine itself. *)
Definition ecall (c : SysCall) : Eng Ret := lift (call c).

(** ** The syscall layer ([utils/Syscalls.cpp]) *)

Module Syscall.

Definition exists_ (path : string) : Sys bool :=
  r ← call (CExists path); mret (negb (rv r =? 0)).

Definition isDirectory (path : string) : Sys bool :=
  r ← call (CIsDirectory path); mret (negb (rv r =? 0)).

Definition readFile (path : string) : Sys (option string) :=
  r ← call (CReadFile path);
  mret (if rv r =? 0 then None else Some (data r)).

(** [std::ofstream file(path); file << content; file.good()]: the call
    succeeds ([rv = 0]) when the file opened and the write went through. *)
Definition writeFile (path content : string) : Sys bool :=
  r ← call (CWriteFile path content); mret (rv r =? 0).

Fixpoint mkdirRecursive_loop (mode : Z) (currentPath : string)
    (tokens : list string) : Sys bool :=
  match tokens with
  | [] => mret true
  | token :: rest =>
      let currentPath := currentPath +:+ "/" +:+ token in
      ex ← exists_ currentPath;
      if (ex : bool) then mkdirRecursive_loop mode currentPath rest
      else
        r ← call (CMkdir currentPath mode);
        if rv r <? 0 then mret false
        else mkdirRecursive_loop mode currentPath rest
  end.

(** The default [mode] is [0755], that is 493. *)
Definition mkdirRecursive (path : string) : Sys bool :=
  mkdirRecursive_loop 493 "" (getline_tokens path).

Definition removeRecursive (path : string) : Sys bool :=
  r ← call (CRemoveAll path); mret (rv r =? 0).

Definition createCgroup (hierarchy name : string) : Sys bool :=
  mkdirRecursive (hierarchy +:+ "/" +:+ name).

Definition removeCgroup (hierarchy name : string) : Sys bool :=
  removeRecursive (hierarchy +:+ "/" +:+ name).

Definition setCgroupValue (hierarchy name setting value : string) : Sys bool :=
  writeFile (hierarchy +:+ "/" +:+ name +:+ "/" +:+ setting) value.

Definition addToCgroup (hierarchy name : string) (pid : Z) : Sys bool :=
  writeFile (hierarchy +:+ "/" +:+ name +:+ "/cgroup.procs") (to_string pid).

Definition mount (source target fstype : string) (flags : Z)
    (data : option string) : Sys bool :=
  r ← call (CMount source target fstype flags data); mret (negb (rv r <? 0)).

Definition unmount (path : string) (flags : Z) : Sys bool :=
  r ← call (CUmount2 path flags); mret (negb (rv r <? 0)).

Definition pivotRoot (newRoot putOld : string) : Sys bool :=
  r ← call (CPivotRoot newRoot putOld); mret (negb (rv r <? 0)).

Definition unshare (flags : Z) : Sys bool :=
  r ← call (CUnshare flags); mret (negb (rv r <? 0)).

Definition cloneWithFlags (flags : Z) : Sys Z :=
  r ← call (CClone flags); mret (rv r).

Definition setHostname (host : string) : Sys bool :=
  r ← call (CSetHostname host); mret (negb (rv r <? 0)).

Definition writeProcSetgroups (content : string) : Sys bool :=
  writeFile "/proc/self/setgroups" content.

Definition writeProcUidMap (content : string) : Sys bool :=
  writeFile "/proc/self/uid_map" content.

Definition writeProcGidMap (content : string) : Sys bool :=
  writeFile "/proc/self/gid_map" content.

End Syscall.

(** ** The module contract ([modules/interface/IModule.h]) *)

Module ModuleState.
Inductive t := UNINITIALIZED | INITIALIZED | RUNNING | STOPPING | STOPPED | ERROR.
End ModuleState.

(** The interface, over the type [St] of the object's fields.  A hook
    receives the object and returns it updated. *)
Class IModule (St : Type) := {
  getName : St → string;
  getType : St → string;
  getState : St → ModuleState.t;
  getDependencies : St → list string;
  isEnabled : St → bool;
  initialize : SandboxConfiguration → St → Sys (bool * St);
  prepareChild : SandboxConfiguration → Z → St → Sys (bool * St);
  applyChild : SandboxConfiguration → St → Sys (bool * St);
  cleanup : St → Sys (bool * St)
}.

(** An object behind an [IModule*]: its fields and its virtual table. *)
Record ModuleObj := MkModule {
  mod_St : Type;
  mod_st : mod_St;
  mod_vt : IModule mod_St
}.
Arguments MkModule {mod_St} mod_st {mod_vt}.

Definition string_empty (s : string) : bool :=
  match s with EmptyString => true | _ => false end.

(** [std::find(v.begin(), v.end(), x) != v.end()] *)
Definition contains (x : string) (v : list string) : bool :=
  existsb (String.eqb x) v.

(** ** Namespaces ([modules/isolation/Namespaces.cpp]) *)

Module Namespaces.

Record t := {
  state_ : ModuleState.t;
  userNsEnabled_ : bool
}.

Definition new : t :=
  {| state_ := ModuleState.UNINITIALIZED; userNsEnabled_ := false |}.

Definition hasNamespace (nsName : string) (config : SandboxConfiguration) : bool :=
  contains nsName (namespaces (isolation config)).

Definition getNamespaceFlag (nsName : string) : Z :=
  if String.eqb nsName "pid" then K.CLONE_NEWPID
  else if String.eqb nsName "net" then K.CLONE_NEWNET
  else if String.eqb nsName "ipc" then K.CLONE_NEWIPC
  else if String.eqb nsName "uts" then K.CLONE_NEWUTS
  else if String.eqb nsName "mount" then K.CLONE_NEWNS
  else if String.eqb nsName "user" then K.CLONE_NEWUSER
  else 0.

Definition initialize (config : SandboxConfiguration) (m : t) : Sys (bool * t) :=
  mret (true, {| state_ := ModuleState.INITIALIZED;
                 userNsEnabled_ := hasNamespace "user" config |}).

Definition prepareChild (config : SandboxConfiguration) (childPid : Z) (m : t)
  : Sys (bool * t) := mret (true, m).

Definition applyUserNamespace (config : SandboxConfiguration) : Sys bool :=
  Syscall.writeProcSetgroups "deny";;
  let um := uid_map (isolation config) in
  let uidMap := to_string (container_uid um) +:+ " " +:+ to_string (host_uid um)
                +:+ " " +:+ to_string (uid_count um) in
  ok ← Syscall.writeProcUidMap uidMap;
  if negb ok then mret false
  else
    let gm := gid_map (isolation config) in
    let gidMap := to_string (container_gid gm) +:+ " " +:+ to_string (host_gid gm)
                  +:+ " " +:+ to_string (gid_count gm) in
    ok ← Syscall.writeProcGidMap gidMap;
    if negb ok then mret false else mret true.

Definition proc_flags : Z := Z.lor (Z.lor K.MS_NOSUID K.MS_NOEXEC) K.MS_NODEV.

Definition applyChild (config : SandboxConfiguration) (m : t) : Sys (bool * t) :=
  ok ← (if userNsEnabled_ m then applyUserNamespace config else mret true);
  if negb ok then mret (false, m)
  else
    ok ← (if hasNamespace "pid" config
          then Syscall.mount "proc" "/proc" "proc" proc_flags None
          else mret true);
    if negb ok then mret (false, m)
    else
      (if hasNamespace "mount" config
       then Syscall.mount "sysfs" "/sys" "sysfs" proc_flags None
       else mret true);;
      (if hasNamespace "uts" config
       then Syscall.setHostname (hostname (sandbox config))
       else mret true);;
      mret (true, {| state_ := ModuleState.RUNNING;
                     userNsEnabled_ := userNsEnabled_ m |}).

Definition cleanup (m : t) : Sys (bool * t) :=
  mret (true, {| state_ := ModuleState.STOPPED; userNsEnabled_ := userNsEnabled_ m |}).

Global Instance vtable : IModule t :=
  Build_IModule t (λ _, "namespaces") (λ _, "isolation") state_ (λ _, [])
    (λ _, true)
    initialize prepareChild applyChild cleanup.

End Namespaces.

(** ** Cgroups ([modules/isolation/Cgroups.cpp]) *)

(** A C [int] after an arithmetic overflow, on the usual two's-complement
    targets (the standard leaves it undefined). *)
Definition wrap_int (z : Z) : Z :=
  let m := z mod 4294967296 in if m <? 2147483648 then m else m - 4294967296.

Module Cgroups.

Record t := {
  state_ : ModuleState.t;
  cgroupPath_ : string;
  cgroupName_ : string;
  cgroupFullPath_ : string
}.

(** The constructor; [main] uses the default ["/sys/fs/cgroup"]. *)
Definition new (cgroupPath : string) : t :=
  {| state_ := ModuleState.UNINITIALIZED; cgroupPath_ := cgroupPath;
     cgroupName_ := ""; cgroupFullPath_ := "" |}.

Definition set_state (s : ModuleState.t) (m : t) : t :=
  {| state_ := s; cgroupPath_ := cgroupPath_ m; cgroupName_ := cgroupName_ m;
     cgroupFullPath_ := cgroupFullPath_ m |}.

Definition setMemoryLimits (config : SandboxConfiguration) (m : t) : Sys bool :=
  let memoryBytes := memory_mb (resources config) * 1024 * 1024 in
  ok ← Syscall.setCgroupValue (cgroupPath_ m) (cgroupName_ m) "memory.max"
         (to_string memoryBytes);
  if negb ok then mret false
  else
    (if enable_swap (resources config)
     then Syscall.setCgroupValue (cgroupPath_ m) (cgroupName_ m) "memory.swap.max" "0"
     else mret true);;
    Syscall.setCgroupValue (cgroupPath_ m) (cgroupName_ m) "memory.high"
      (to_string (Z.quot (memoryBytes * 8) 10));;
    mret true.

Definition setCpuLimits (config : SandboxConfiguration) (m : t) : Sys bool :=
  let quota := wrap_int (cpu_quota_percent (resources config) * 1000) in
  ok ← Syscall.setCgroupValue (cgroupPath_ m) (cgroupName_ m) "cpu.max"
         (to_string quota +:+ " 100000");
  if negb ok then mret false else mret true.

Definition setPidLimits (config : SandboxConfiguration) (m : t) : Sys bool :=
  if 0 <? max_pids (resources config)
  then
    ok ← Syscall.setCgroupValue (cgroupPath_ m) (cgroupName_ m) "pids.max"
           (to_string (max_pids (resources config)));
    if negb ok then mret false else mret true
  else mret true.

Definition createCgroup (config : SandboxConfiguration) (m : t) : Sys bool :=
  ok ← Syscall.mkdirRecursive (cgroupFullPath_ m);
  if negb ok then mret false
  else
    ok ← setMemoryLimits config m;
    if negb ok then mret false
    else
      ok ← setCpuLimits config m;
      if negb ok then mret false
      else
        ok ← setPidLimits config m;
        if negb ok then mret false else mret true.

Definition initialize (config : SandboxConfiguration) (m : t) : Sys (bool * t) :=
  pid ← call CGetpid;
  let cgroupName := "sandbox-" +:+ name (sandbox config) +:+ "-" +:+ to_string (rv pid) in
  let m := {| state_ := state_ m; cgroupPath_ := cgroupPath_ m;
              cgroupName_ := cgroupName;
              cgroupFullPath_ := cgroupPath_ m +:+ "/" +:+ cgroupName |} in
  ok ← createCgroup config m;
  if negb ok then mret (false, m)
  else mret (true, set_state ModuleState.INITIALIZED m).

Definition prepareChild (config : SandboxConfiguration) (childPid : Z) (m : t)
  : Sys (bool * t) :=
  ok ← Syscall.addToCgroup (cgroupPath_ m) (cgroupName_ m) childPid;
  if negb ok then mret (false, m) else mret (true, m).

Definition applyChild (config : SandboxConfiguration) (m : t) : Sys (bool * t) :=
  mret (true, m).

Definition cleanup (m : t) : Sys (bool * t) :=
  (if negb (string_empty (cgroupFullPath_ m))
   then Syscall.removeCgroup (cgroupPath_ m) (cgroupName_ m)
   else mret true);;
  mret (true, set_state ModuleState.STOPPED m).

Global Instance vtable : IModule t :=
  Build_IModule t (λ _, "cgroups") (λ _, "isolation") state_ (λ _, [])
    (λ _, true)
    initialize prepareChild applyChild cleanup.

End Cgroups.

(** ** RootFS ([modules/filesystem/RootFS.cpp]) *)

Module RootFS.

Record t := {
  state_ : ModuleState.t;
  rootPath_ : string;
  oldRootPath_ : string;
  bootstrapRequired_ : bool
}.

Definition new : t :=
  {| state_ := ModuleState.UNINITIALIZED; rootPath_ := ""; oldRootPath_ := "";
     bootstrapRequired_ := false |}.

Definition set_state (s : ModuleState.t) (m : t) : t :=
  {| state_ := s; rootPath_ := rootPath_ m; oldRootPath_ := oldRootPath_ m;
     bootstrapRequired_ := bootstrapRequired_ m |}.

Definition exists_ (m : t) : Sys bool := Syscall.exists_ (rootPath_ m).

Definition bootstrap (config : SandboxConfiguration) : Sys bool :=
  pid ← call CFork;
  if rv pid <? 0 then mret false
  else if rv pid =? 0 then
    exec_call (CExeclp "debootstrap"
                 ["debootstrap"; "--arch=amd64"; "--variant=minbase";
                  release (sandbox config); rootfs_path (sandbox config);
                  "http://archive.ubuntu.com/ubuntu/"]);;
    prog_exit 1
  else
    w ← call (CWaitpid (rv pid) 0);
    let status := hd 0 (out w) in
    if WIFEXITED status && (WEXITSTATUS status =? 0) then mret true else mret false.

Definition initialize (config : SandboxConfiguration) (m : t) : Sys (bool * t) :=
  let m := {| state_ := state_ m; rootPath_ := rootfs_path (sandbox config);
              oldRootPath_ := "/oldroot"; bootstrapRequired_ := bootstrapRequired_ m |} in
  required ← (if auto_bootstrap (sandbox config)
              then ex ← exists_ m; mret (negb ex)
              else mret false);
  let m := {| state_ := state_ m; rootPath_ := rootPath_ m;
              oldRootPath_ := oldRootPath_ m; bootstrapRequired_ := required |} in
  ok ← (if (required : bool) then bootstrap config else mret true);
  if negb ok then mret (false, m)
  else
    ex ← exists_ m;
    if negb ex then mret (false, m)
    else mret (true, set_state ModuleState.INITIALIZED m).

Definition prepareChild (config : SandboxConfiguration) (childPid : Z) (m : t)
  : Sys (bool * t) := mret (true, m).

Definition requiredDirs : list string :=
  ["/bin"; "/etc"; "/home"; "/lib"; "/lib64"; "/media"; "/mnt"; "/opt";
   "/root"; "/sbin"; "/srv"; "/tmp"; "/usr"; "/var"].

Fixpoint setupMounts_loop (root : string) (dirs : list string) : Sys unit :=
  match dirs with
  | [] => mret tt
  | dir :: rest =>
      let fullPath := root +:+ dir in
      isdir ← Syscall.isDirectory fullPath;
      (if (isdir : bool) then mret true else Syscall.mkdirRecursive fullPath);;
      setupMounts_loop root rest
  end.

Definition setupMounts (config : SandboxConfiguration) (m : t) : Sys bool :=
  setupMounts_loop (rootPath_ m) requiredDirs;; mret true.

Definition doPivotRoot (newRoot putOld : string) : Sys bool :=
  ok ← Syscall.mount newRoot newRoot "" (Z.lor K.MS_BIND K.MS_REC) None;
  if negb ok then mret false
  else
    ok ← Syscall.pivotRoot newRoot putOld;
    if negb ok then mret false
    else
      r ← call (CChdir "/");
      if rv r <? 0 then mret false else mret true.

Definition applyChild (config : SandboxConfiguration) (m : t) : Sys (bool * t) :=
  ok ← setupMounts config m;
  if negb ok then mret (false, m)
  else
    let oldRootDir := rootPath_ m +:+ oldRootPath_ m in
    ok ← Syscall.mkdirRecursive oldRootDir;
    if negb ok then mret (false, m)
    else
      ok ← doPivotRoot (rootPath_ m) oldRootDir;
      if negb ok then mret (false, m)
      else
        Syscall.unmount (oldRootPath_ m) K.MNT_DETACH;;
        ok ← Syscall.mount "proc" "/proc" "proc"
               (Z.lor (Z.lor K.MS_NOSUID K.MS_NOEXEC) K.MS_NODEV) None;
        if negb ok then mret (false, m)
        else
          Syscall.mount "sysfs" "/sys" "sysfs"
            (Z.lor (Z.lor K.MS_NOSUID K.MS_NOEXEC) K.MS_NODEV) None;;
          Syscall.mount "tmpfs" "/dev" "tmpfs"
            (Z.lor K.MS_NOSUID K.MS_STRICTATIME) (Some "mode=755");;
          mret (true, set_state ModuleState.RUNNING m).

Definition cleanup (m : t) : Sys (bool * t) :=
  mret (true, set_state ModuleState.STOPPED m).

Global Instance vtable : IModule t :=
  Build_IModule t (λ _, "rootfs") (λ _, "filesystem") state_ (λ _, [])
    (λ _, true)
    initialize prepareChild applyChild cleanup.

End RootFS.

(** ** Mounts ([modules/filesystem/Mounts.cpp]) *)

Module Mounts.

Record MountInfo := {
  mi_source : string;
  mi_target : string;
  mi_fstype : string;
  mi_flags : Z;
  mi_readOnly : bool
}.

Record t := {
  state_ : ModuleState.t;
  config_mounts_ : list BindMount;
  activeMounts_ : list MountInfo
}.

Definition new : t :=
  {| state_ := ModuleState.UNINITIALIZED; config_mounts_ := []; activeMounts_ := [] |}.

Definition initialize (config : SandboxConfiguration) (m : t) : Sys (bool * t) :=
  mret (true, {| state_ := ModuleState.INITIALIZED;
                 config_mounts_ := bind_mounts (mounts config);
                 activeMounts_ := activeMounts_ m |}).

Definition prepareChild (config : SandboxConfiguration) (childPid : Z) (m : t)
  : Sys (bool * t) := mret (true, m).

Definition ensureMountTarget (target : string) : Sys bool :=
  if string_empty target || String.eqb target "/" then mret true
  else Syscall.mkdirRecursive target.

Definition applyBindMount (mount : BindMount) : Sys bool :=
  ex ← Syscall.exists_ (bm_source mount);
  (if (ex : bool) then mret true else Syscall.mkdirRecursive (bm_source mount));;
  ok ← ensureMountTarget (bm_target mount);
  if negb ok then mret false
  else
    ok ← Syscall.mount (bm_source mount) (bm_target mount) "bind" K.MS_BIND None;
    if negb ok then mret false
    else
      (if read_only mount
       then Syscall.mount "" (bm_target mount) "bind"
              (Z.lor (Z.lor K.MS_BIND K.MS_REMOUNT) K.MS_RDONLY) None
       else mret true);;
      mret true.

Fixpoint applyChild_loop (todo : list BindMount) (m : t) : Sys (bool * t) :=
  match todo with
  | [] =>
      mret (true, {| state_ := ModuleState.RUNNING;
                     config_mounts_ := config_mounts_ m;
                     activeMounts_ := activeMounts_ m |})
  | mount :: rest =>
      ok ← applyBindMount mount;
      if negb ok then mret (false, m)
      else
        let info := {| mi_source := bm_source mount; mi_target := bm_target mount;
                       mi_fstype := "bind"; mi_flags := K.MS_BIND;
                       mi_readOnly := read_only mount |} in
        applyChild_loop rest
          {| state_ := state_ m; config_mounts_ := config_mounts_ m;
             activeMounts_ := activeMounts_ m ++ [info] |}
  end.

Definition applyChild (config : SandboxConfiguration) (m : t) : Sys (bool * t) :=
  applyChild_loop (bind_mounts (mounts config)) m.

Fixpoint cleanup_loop (reversed : list MountInfo) : Sys unit :=
  match reversed with
  | [] => mret tt
  | info :: rest => Syscall.unmount (mi_target info) 0;; cleanup_loop rest
  end.

Definition cleanup (m : t) : Sys (bool * t) :=
  cleanup_loop (rev (activeMounts_ m));;
  mret (true, {| state_ := ModuleState.STOPPED; config_mounts_ := config_mounts_ m;
                 activeMounts_ := [] |}).

Global Instance vtable : IModule t :=
  Build_IModule t (λ _, "mounts") (λ _, "filesystem") state_ (λ _, ["rootfs"])
    (λ m, negb (match config_mounts_ m with [] => true | _ => false end))
    initialize prepareChild applyChild cleanup.

End Mounts.

(** ** Seccomp ([modules/security/Seccomp.cpp]) *)

Module Seccomp.

Definition ACTION_KILL : Z := K.SECCOMP_RET_KILL.
Definition ACTION_TRAP : Z := K.SECCOMP_RET_TRAP.
Definition ACTION_ERRNO : Z := K.SECCOMP_RET_ERRNO.
Definition ACTION_TRACE : Z := K.SECCOMP_RET_TRACE.
Definition ACTION_LOG : Z := K.SECCOMP_RET_LOG.
Definition ACTION_ALLOW : Z := K.SECCOMP_RET_ALLOW.

Record t := {
  state_ : ModuleState.t;
  defaultAction_ : Z;
  filterBlob_ : string;
  enabled_ : bool
}.

Definition new : t :=
  {| state_ := ModuleState.UNINITIALIZED; defaultAction_ := ACTION_ERRNO;
     filterBlob_ := ""; enabled_ := true |}.

Definition set_state (s : ModuleState.t) (m : t) : t :=
  {| state_ := s; defaultAction_ := defaultAction_ m;
     filterBlob_ := filterBlob_ m; enabled_ := enabled_ m |}.

Definition set_blob (b : string) (m : t) : t :=
  {| state_ := state_ m; defaultAction_ := defaultAction_ m;
     filterBlob_ := b; enabled_ := enabled_ m |}.

Definition essentialCalls : list string :=
  ["read"; "write"; "close"; "brk"; "execve"; "exit_group"; "exit";
   "getpid"; "gettid"; "getppid"; "getuid"; "getgid"; "geteuid"; "getegid";
   "getrandom"; "mmap"; "mprotect"; "munmap"; "rt_sigaction";
   "rt_sigprocmask"; "rt_sigreturn"; "ioctl"; "pread64"; "pwrite64";
   "readv"; "writev"; "access"; "pipe"; "sched_yield"; "mremap";
   "msync"; "mincore"; "madvise"; "shmget"; "shmat"; "shmctl";
   "dup"; "dup2"; "pause"; "nanosleep"; "getitimer"; "setitimer";
   "alarm"; "setpgid"; "getpgid"; "getsid"; "setsid"; "syslog";
   "getrlimit"; "getrusage"; "gettimeofday"; "settimeofday";
   "symlink"; "readlink"; "uselib"; "readahead"; "setxattr";
   "lsetxattr"; "fsetxattr"; "getxattr"; "lgetxattr"; "fgetxattr";
   "listxattr"; "llistxattr"; "flistxattr"; "removexattr";
   "lremovexattr"; "fremovexattr"; "tkill"; "time"; "futex";
   "sched_setaffinity"; "sched_getaffinity"; "io_setup"; "io_destroy";
   "io_getevents"; "io_submit"; "io_cancel"; "lookup_dcookie";
   "epoll_create"; "remap_file_pages"; "set_tid_address"; "timer_create";
   "timer_settime"; "timer_gettime"; "timer_getoverrun"; "timer_delete";
   "clock_settime"; "clock_gettime"; "clock_getres"; "clock_nanosleep";
   "exit"; "wait4"; "kill"; "uname"; "semget"; "semop"; "semctl";
   "shmdt"; "msgget"; "msgsnd"; "msgrcv"; "msgctl"; "fcntl"; "flock";
   "fsync"; "fdatasync"; "truncate"; "ftruncate"; "getcwd"; "chdir";
   "fchdir"; "rename"; "mkdir"; "rmdir"; "creat"; "link"; "unlink";
   "open"; "close"; "vhangup"; "signal"; "sethostname"; "setrlimit"].

Definition dangerousCalls : list string :=
  ["reboot"; "swapon"; "swapoff"; "init_module"; "delete_module";
   "kexec_load"; "kexec_file_load"; "acct"; "add_key"; "request_key"].

Fixpoint allow_loop (calls : list string) : Sys unit :=
  match calls with
  | [] => mret tt
  | c :: rest =>
      nr ← call (CSeccompResolveName c);
      (if negb (rv nr =? K.NR_SCMP_ERROR)
       then call (CSeccompRuleAdd K.SCMP_ACT_ALLOW (rv nr));; mret tt
       else mret tt);;
      allow_loop rest
  end.

Fixpoint resolve_loop (calls : list string) : Sys unit :=
  match calls with
  | [] => mret tt
  | c :: rest => call (CSeccompResolveName c);; resolve_loop rest
  end.

(** [std::vector<char>::resize(n)] on an empty vector. *)
Definition zeros (n : Z) : string :=
  Nat.iter (Z.to_nat n) (String Ascii.zero) EmptyString.

Definition generateDefaultPolicy (m : t) : Sys (bool * t) :=
  ctx ← call (CSeccompInit (defaultAction_ m));
  if rv ctx =? 0 then mret (false, m)
  else
    allow_loop essentialCalls;;
    resolve_loop dangerousCalls;;
    let m := set_blob "" m in
    r1 ← call (CSeccompExportBpf false);
    if rv r1 <? 0 then call CSeccompRelease;; mret (false, m)
    else
      let blobSize := hd 0 (out r1) in
      let m := set_blob (zeros blobSize) m in
      r2 ← call (CSeccompExportBpf true);
      if rv r2 <? 0 then call CSeccompRelease;; mret (false, m)
      else
        call CSeccompRelease;;
        mret (true, set_blob (data r2) m).

Definition loadDefaultAllowlist (m : t) : Sys (bool * t) := generateDefaultPolicy m.

Definition loadProfile (path : string) : Sys bool :=
  content ← Syscall.readFile path;
  match content with
  | None => mret false
  | Some _ => mret true
  end.

Definition installFilter (m : t) : Sys (bool * t) :=
  if string_empty (filterBlob_ m)
  then
    '(ok, m) ← loadDefaultAllowlist m;
    if negb ok then mret (false, m) else mret (true, m)
  else mret (true, m).

Definition initialize (config : SandboxConfiguration) (m : t) : Sys (bool * t) :=
  let policy := seccomp_policy (security config) in
  let profile := seccomp_profile_path (security config) in
  let enabled := negb (string_empty policy) || negb (string_empty profile) in
  let m := {| state_ := state_ m; defaultAction_ := defaultAction_ m;
              filterBlob_ := filterBlob_ m; enabled_ := enabled |} in
  if negb enabled then mret (true, set_state ModuleState.INITIALIZED m)
  else
    let action :=
      if String.eqb policy "default" then ACTION_ERRNO
      else if String.eqb policy "strict" then ACTION_KILL
      else if String.eqb policy "log" then ACTION_LOG
      else if String.eqb policy "allow" then ACTION_ALLOW
      else defaultAction_ m in
    let m := {| state_ := state_ m; defaultAction_ := action;
                filterBlob_ := filterBlob_ m; enabled_ := enabled |} in
    if negb (string_empty profile)
    then
      ok ← loadProfile profile;
      if negb ok then mret (false, m)
      else mret (true, set_state ModuleState.INITIALIZED m)
    else
      '(ok, m) ← generateDefaultPolicy m;
      if negb ok then mret (false, m)
      else mret (true, set_state ModuleState.INITIALIZED m).

Definition prepareChild (config : SandboxConfiguration) (childPid : Z) (m : t)
  : Sys (bool * t) := mret (true, m).

Definition applyChild (config : SandboxConfiguration) (m : t) : Sys (bool * t) :=
  if negb (enabled_ m) then mret (true, m)
  else
    '(ok, m) ← (if string_empty (filterBlob_ m) then installFilter m
                else mret (true, m));
    if negb ok then mret (false, m)
    else
      r ← call (CPrctlSetSeccomp K.SECCOMP_MODE_FILTER (filterBlob_ m));
      if rv r <? 0 then mret (false, m)
      else mret (true, set_state ModuleState.RUNNING m).

Definition cleanup (m : t) : Sys (bool * t) :=
  mret (true, {| state_ := ModuleState.STOPPED; defaultAction_ := defaultAction_ m;
                 filterBlob_ := ""; enabled_ := enabled_ m |}).

Global Instance vtable : IModule t :=
  Build_IModule t (λ _, "seccomp") (λ _, "security") state_ (λ _, [])
    (enabled_)
    initialize prepareChild applyChild cleanup.

End Seccomp.

(** ** Caps ([modules/security/Caps.cpp]) *)

Module Caps.

Record t := {
  state_ : ModuleState.t;
  grantedCapabilities_ : list string;
  ambientCapsEnabled_ : bool
}.

Definition new : t :=
  {| state_ := ModuleState.UNINITIALIZED; grantedCapabilities_ := [];
     ambientCapsEnabled_ := false |}.

(** The names of [capabilityFromName], in the order of their numbers. *)
Definition capTable : list (string * Z) :=
  [("CAP_CHOWN", 0); ("CAP_DAC_OVERRIDE", 1); ("CAP_DAC_READ_SEARCH", 2);
   ("CAP_FOWNER", 3); ("CAP_FSETID", 4); ("CAP_KILL", 5); ("CAP_SETGID", 6);
   ("CAP_SETUID", 7); ("CAP_SETPCAP", 8); ("CAP_LINUX_IMMUTABLE", 9);
   ("CAP_NET_BIND_SERVICE", 10); ("CAP_NET_BROADCAST", 11); ("CAP_NET_ADMIN", 12);
   ("CAP_NET_RAW", 13); ("CAP_IPC_LOCK", 14); ("CAP_IPC_OWNER", 15);
   ("CAP_SYS_MODULE", 16); ("CAP_SYS_RAWIO", 17); ("CAP_SYS_CHROOT", 18);
   ("CAP_SYS_PTRACE", 19); ("CAP_SYS_PACCT", 20); ("CAP_SYS_ADMIN", 21);
   ("CAP_SYS_BOOT", 22); ("CAP_SYS_NICE", 23); ("CAP_SYS_RESOURCE", 24);
   ("CAP_SYS_TIME", 25); ("CAP_SYS_TTY_CONFIG", 26); ("CAP_MKNOD", 27);
   ("CAP_LEASE", 28); ("CAP_AUDIT_WRITE", 29); ("CAP_AUDIT_CONTROL", 30);
   ("CAP_SETFCAP", 31)].

Fixpoint assoc_find (n : string) (tbl : list (string * Z)) : Z :=
  match tbl with
  | [] => -1
  | (k, v) :: rest => if String.eqb n k then v else assoc_find n rest
  end.

Definition capabilityFromName (n : string) : Z := assoc_find n capTable.

(** The loop filling [capList]: the numbers of the known names, in order.
    [capList] has 64 slots and the loop does not check the count: this is
    the list of the source as long as it has at most 64 entries. *)
Fixpoint collect (names : list string) : list Z :=
  match names with
  | [] => []
  | n :: rest =>
      let capNum := capabilityFromName n in
      if 0 <=? capNum then capNum :: collect rest else collect rest
  end.

(** [getKeepCapabilities]: the numbers of the known names of the
    configuration, pushed in turn on a vector. *)
Definition getKeepCapabilities (config : SandboxConfiguration) : list Z :=
  fold_left (λ (caps : list Z) (capName : string),
               let capNum := capabilityFromName capName in
               if 0 <=? capNum then caps ++ [capNum] else caps)
    (capabilities (security config)) [].

Fixpoint ambient_loop (capList : list Z) (ambient : bool) : Sys bool :=
  match capList with
  | [] => mret ambient
  | c :: rest =>
      r ← call (CCapUpdateAmbient c);
      ambient_loop rest (if rv r <? 0 then ambient else true)
  end.

Definition initialize (config : SandboxConfiguration) (m : t) : Sys (bool * t) :=
  mret (true, {| state_ := ModuleState.INITIALIZED;
                 grantedCapabilities_ := capabilities (security config);
                 ambientCapsEnabled_ := ambientCapsEnabled_ m |}).

Definition prepareChild (config : SandboxConfiguration) (childPid : Z) (m : t)
  : Sys (bool * t) := mret (true, m).

Definition set_flag (flag : Z) (capList : list Z) : Sys bool :=
  r ← call (CCapSetFlag flag capList);
  if rv r <? 0 then call CCapFree;; mret false else mret true.

Definition applyChild (config : SandboxConfiguration) (m : t) : Sys (bool * t) :=
  caps ← call CCapGetProc;
  if rv caps =? 0 then mret (false, m)
  else
    call CCapClear;;
    let capList := collect (capabilities (security config)) in
    ok ← (match capList with
          | [] => mret true
          | _ =>
              ok ← set_flag K.CAP_EFFECTIVE capList;
              if negb ok then mret false
              else
                ok ← set_flag K.CAP_PERMITTED capList;
                if negb ok then mret false
                else set_flag K.CAP_INHERITABLE capList
          end);
    if negb ok then mret (false, m)
    else
      r ← call CCapSetProc;
      if rv r <? 0 then call CCapFree;; mret (false, m)
      else
        ambient ← ambient_loop capList (ambientCapsEnabled_ m);
        call CCapFree;;
        mret (true, {| state_ := ModuleState.RUNNING;
                       grantedCapabilities_ := grantedCapabilities_ m;
                       ambientCapsEnabled_ := ambient |}).

Definition cleanup (m : t) : Sys (bool * t) :=
  mret (true, {| state_ := ModuleState.STOPPED; grantedCapabilities_ := [];
                 ambientCapsEnabled_ := ambientCapsEnabled_ m |}).

Global Instance vtable : IModule t :=
  Build_IModule t (λ _, "caps") (λ _, "security") state_ (λ _, [])
    (λ _, true)
    initialize prepareChild applyChild cleanup.

End Caps.

(** ** AIAgent ([modules/ai/AIAgent.cpp]), lifecycle hooks only *)

Module AIAgent.

Record t := {
  state_ : ModuleState.t;
  enabled_ : bool;
  apiKey_ : string;
  curlHandle_ : bool
}.

Definition new : t :=
  {| state_ := ModuleState.UNINITIALIZED; enabled_ := false; apiKey_ := "";
     curlHandle_ := false |}.

Definition set_state (s : ModuleState.t) (m : t) : t :=
  {| state_ := s; enabled_ := enabled_ m; apiKey_ := apiKey_ m;
     curlHandle_ := curlHandle_ m |}.

Definition getApiKey (config : SandboxConfiguration) : Sys string :=
  r ← call (CGetenv (api_key_env (ai_module config)));
  mret (if rv r =? 0 then "" else data r).

Definition initialize (config : SandboxConfiguration) (m : t) : Sys (bool * t) :=
  let m := {| state_ := state_ m; enabled_ := ai_enabled (ai_module config);
              apiKey_ := apiKey_ m; curlHandle_ := curlHandle_ m |} in
  if negb (ai_enabled (ai_module config))
  then mret (true, set_state ModuleState.INITIALIZED m)
  else
    key ← getApiKey config;
    let m := {| state_ := state_ m; enabled_ := enabled_ m; apiKey_ := key;
                curlHandle_ := curlHandle_ m |} in
    if string_empty key then mret (true, set_state ModuleState.INITIALIZED m)
    else
      h ← call CCurlEasyInit;
      let m := {| state_ := state_ m; enabled_ := enabled_ m; apiKey_ := apiKey_ m;
                  curlHandle_ := negb (rv h =? 0) |} in
      if rv h =? 0 then mret (false, m)
      else mret (true, set_state ModuleState.INITIALIZED m).

Definition prepareChild (config : SandboxConfiguration) (childPid : Z) (m : t)
  : Sys (bool * t) := mret (true, m).

Definition applyChild (config : SandboxConfiguration) (m : t) : Sys (bool * t) :=
  mret (true, m).

Definition cleanup (m : t) : Sys (bool * t) :=
  (if curlHandle_ m then call CCurlEasyCleanup;; mret tt else mret tt);;
  mret (true, {| state_ := ModuleState.STOPPED; enabled_ := enabled_ m;
                 apiKey_ := apiKey_ m; curlHandle_ := false |}).

Global Instance vtable : IModule t :=
  Build_IModule t (λ _, "ai-agent") (λ _, "ai") state_ (λ _, [])
    (λ m, enabled_ m && negb (string_empty (apiKey_ m)))
    initialize prepareChild applyChild cleanup.

End AIAgent.

(** ** The engine ([core/SandboxManager.cpp]) *)

Module SandboxState.
Inductive t := CREATED | INITIALIZING | PREPARING | RUNNING | STOPPING | STOPPED | ERROR.
End SandboxState.

(** [executionTimeMs] (a clock reading) and [stderr] (never written) are
    left out. *)
Record SandboxResult := {
  exitCode : Z;
  success : bool;
  errorMessage : string;
  stdout : string;
  childPid : Z
}.

(** *** [std::map<std::string, V>]: an association list kept in key order *)

Section StdMap.
Context {V : Type}.

Fixpoint map_find (k : string) (m : list (string * V)) : option V :=
  match m with
  | [] => None
  | (k', v) :: rest => if String.eqb k k' then Some v else map_find k rest
  end.

(** [m[k] = v] *)
Fixpoint map_insert (k : string) (v : V) (m : list (string * V)) : list (string * V) :=
  match m with
  | [] => [(k, v)]
  | (k', v') :: rest =>
      match String.compare k k' with
      | Lt => (k, v) :: m
      | Eq => (k, v) :: rest
      | Gt => (k', v') :: map_insert k v rest
      end
  end.

Fixpoint map_erase (k : string) (m : list (string * V)) : list (string * V) :=
  match m with
  | [] => []
  | (k', v') :: rest => if String.eqb k k' then rest else (k', v') :: map_erase k rest
  end.

Definition map_keys (m : list (string * V)) : list string := map fst m.

(** The keys are strictly increasing. *)
Fixpoint map_sorted (m : list (string * V)) : bool :=
  match m with
  | [] => true
  | (k, _) :: rest =>
      match rest with
      | [] => true
      | (k', _) :: _ => String.ltb k k'
      end && map_sorted rest
  end.
End StdMap.

Record SandboxManager := {
  config_ : SandboxConfiguration;
  state_ : SandboxState.t;
  modules_ : list (string * ModuleObj);
  executionOrder_ : list string;
  childPid_ : Z;
  pipeFd_ : Z * Z
}.

(** The constructor, followed by [setConfig]. *)
Definition new_manager (config : SandboxConfiguration) : SandboxManager :=
  {| config_ := config; state_ := SandboxState.CREATED; modules_ := [];
     executionOrder_ := []; childPid_ := -1; pipeFd_ := (-1, -1) |}.

Definition setState (s : SandboxState.t) (mgr : SandboxManager) : SandboxManager :=
  {| config_ := config_ mgr; state_ := s; modules_ := modules_ mgr;
     executionOrder_ := executionOrder_ mgr; childPid_ := childPid_ mgr;
     pipeFd_ := pipeFd_ mgr |}.

Definition set_modules (ms : list (string * ModuleObj)) (mgr : SandboxManager)
  : SandboxManager :=
  {| config_ := config_ mgr; state_ := state_ mgr; modules_ := ms;
     executionOrder_ := executionOrder_ mgr; childPid_ := childPid_ mgr;
     pipeFd_ := pipeFd_ mgr |}.

Definition set_order (o : list string) (mgr : SandboxManager) : SandboxManager :=
  {| config_ := config_ mgr; state_ := state_ mgr; modules_ := modules_ mgr;
     executionOrder_ := o; childPid_ := childPid_ mgr; pipeFd_ := pipeFd_ mgr |}.

Definition set_childPid (p : Z) (mgr : SandboxManager) : SandboxManager :=
  {| config_ := config_ mgr; state_ := state_ mgr; modules_ := modules_ mgr;
     executionOrder_ := executionOrder_ mgr; childPid_ := p; pipeFd_ := pipeFd_ mgr |}.

Definition set_pipeFd (fds : Z * Z) (mgr : SandboxManager) : SandboxManager :=
  {| config_ := config_ mgr; state_ := state_ mgr; modules_ := modules_ mgr;
     executionOrder_ := executionOrder_ mgr; childPid_ := childPid_ mgr;
     pipeFd_ := fds |}.

Definition module_name (m : ModuleObj) : string := @getName _ (mod_vt m) (mod_st m).
Definition module_deps (m : ModuleObj) : list string :=
  @getDependencies _ (mod_vt m) (mod_st m).

(** [registerModule]; [None] is the null pointer. *)
Definition registerModule (module : option ModuleObj) (mgr : SandboxManager)
  : bool * SandboxManager :=
  match module with
  | None => (false, mgr)
  | Some m => (true, set_modules (map_insert (module_name m) m (modules_ mgr)) mgr)
  end.

Definition unregisterModule (n : string) (mgr : SandboxManager)
  : bool * SandboxManager :=
  match map_find n (modules_ mgr) with
  | None => (false, mgr)
  | Some _ => (true, set_modules (map_erase n (modules_ mgr)) mgr)
  end.

Definition getModule (n : string) (mgr : SandboxManager) : option ModuleObj :=
  map_find n (modules_ mgr).

(** *** [resolveDependencies]

    [executionOrder_] holds pointers into [modules_]; here it holds the
    keys.  The recursive lambda [dfs] takes a bound on its depth, and
    [resolve_order_total] below shows that the bound used is never hit. *)

Record DfsState := {
  visited : gset string;
  temp : gset string;
  order : list string
}.

(** The loop [for (const auto& dep : module->getDependencies()) dfs(dep);] *)
Definition deps_loop (dfs : string → DfsState → option DfsState)
  : list string → DfsState → option DfsState :=
  fix go (deps : list string) (s : DfsState) : option DfsState :=
    match deps with
    | [] => Some s
    | dep :: rest =>
        match dfs dep s with
        | None => None
        | Some s' => go rest s'
        end
    end.

Fixpoint dfs (fuel : nat) (mods : list (string * ModuleObj)) (n : string)
    (s : DfsState) : option DfsState :=
  match fuel with
  | O => None
  | S fuel =>
      if decide (n ∈ temp s) then Some s
      else if decide (n ∈ visited s) then Some s
      else
        match map_find n mods with
        | None => Some s
        | Some module =>
            let s1 := {| visited := visited s; temp := {[n]} ∪ temp s;
                         order := order s |} in
            match deps_loop (dfs fuel mods) (module_deps module) s1 with
            | None => None
            | Some s2 =>
                Some {| visited := {[n]} ∪ visited s2; temp := temp s2 ∖ {[n]};
                        order := order s2 ++ [n] |}
            end
        end
  end.

Fixpoint resolve_loop (fuel : nat) (mods : list (string * ModuleObj))
    (todo : list string) (s : DfsState) : option DfsState :=
  match todo with
  | [] => Some s
  | n :: rest =>
      if decide (n ∈ visited s) then resolve_loop fuel mods rest s
      else
        match dfs fuel mods n s with
        | None => None
        | Some s' => resolve_loop fuel mods rest s'
        end
  end.

Definition resolve_order (mods : list (string * ModuleObj)) : option (list string) :=
  let keys := map_keys mods in
  order <$> resolve_loop (S (size (list_to_set keys : gset string))) mods keys
              {| visited := ∅; temp := ∅; order := [] |}.

Definition resolveDependencies (mgr : SandboxManager) : SandboxManager :=
  match resolve_order (modules_ mgr) with
  | Some o => set_order o mgr
  | None => set_order [] mgr
  end.

Definition getExecutionOrder (mgr : SandboxManager) : list string := executionOrder_ mgr.

(** *** Dispatching a hook

    [module->hook(...)] for the module that [executionOrder_] points to:
    the hook runs on the object stored in [modules_] and the object is
    updated in place.  A key without an object is a dangling pointer (the
    C++ behaviour is then undefined); it cannot arise inside [run], which
    recomputes the order, and the model skips it. *)

Definition Hook : Type := ∀ St : Type, IModule St → St → Sys (bool * St).

Definition dispatch (ph : Phase) (n : string) (hook : Hook) (mgr : SandboxManager)
  : Eng (bool * SandboxManager) :=
  match map_find n (modules_ mgr) with
  | None => mret (true, mgr)
  | Some module =>
      MkProg (λ os h,
        let '(o, body) := runProg (hook (mod_St module) (mod_vt module) (mod_st module)) os h in
        match o with
        | Val (ok, st') =>
            (Val (ok, set_modules
                        (map_insert n (@MkModule _ st' (mod_vt module)) (modules_ mgr)) mgr),
             [EHook ph n body (Val ok)])
        | Exited c => (Exited c, [EHook ph n body (Exited c)])
        | Execed => (Execed, [EHook ph n body Execed])
        end)
  end.

Fixpoint initializeModules_loop (todo : list string) (mgr : SandboxManager)
  : Eng (bool * SandboxManager) :=
  match todo with
  | [] => mret (true, mgr)
  | n :: rest =>
      '(ok, mgr) ← dispatch PhInitialize n
                     (λ St vt st, @initialize St vt (config_ mgr) st) mgr;
      if negb ok then mret (false, mgr) else initializeModules_loop rest mgr
  end.

Definition initializeModules (mgr : SandboxManager) : Eng (bool * SandboxManager) :=
  initializeModules_loop (executionOrder_ mgr) mgr.

Fixpoint prepareChildProcess_loop (todo : list string) (mgr : SandboxManager)
  : Eng (bool * SandboxManager) :=
  match todo with
  | [] => mret (true, mgr)
  | n :: rest =>
      '(ok, mgr) ← dispatch PhPrepareChild n
                     (λ St vt st, @prepareChild St vt (config_ mgr) (childPid_ mgr) st) mgr;
      if negb ok then mret (false, mgr) else prepareChildProcess_loop rest mgr
  end.

Definition prepareChildProcess (mgr : SandboxManager) : Eng (bool * SandboxManager) :=
  prepareChildProcess_loop (executionOrder_ mgr) mgr.

(** Modelled from the spec: the function [execute(config_)] that
    [executeChild] calls last is not in the sources (the manager has no
    such member).  The specification gives the last step of the child as
    [execve(command[0], command, envp)], with [_exit(127)] when it fails. *)
Definition execute (config : SandboxConfiguration) : Eng Z :=
  lift (exec_call (CExecve (hd "" (command (sandbox config)))
                           (command (sandbox config))));;
  mret 127.

Fixpoint executeChild_loop (todo : list string) (mgr : SandboxManager) : Eng Z :=
  match todo with
  | [] => execute (config_ mgr)
  | n :: rest =>
      '(ok, mgr) ← dispatch PhApplyChild n
                     (λ St vt st, @applyChild St vt (config_ mgr) st) mgr;
      if negb ok then mret 1 else executeChild_loop rest mgr
  end.

Definition executeChild (mgr : SandboxManager) : Eng Z :=
  executeChild_loop (executionOrder_ mgr) mgr.

Fixpoint cleanupModules_loop (reversed : list string) (ok_so_far : bool)
    (mgr : SandboxManager) : Eng (bool * SandboxManager) :=
  match reversed with
  | [] => mret (ok_so_far, mgr)
  | n :: rest =>
      '(ok, mgr) ← dispatch PhCleanup n (λ St vt st, @cleanup St vt st) mgr;
      cleanupModules_loop rest (if negb ok then false else ok_so_far) mgr
  end.

Definition cleanupModules (mgr : SandboxManager) : Eng (bool * SandboxManager) :=
  '(ok, mgr) ← cleanupModules_loop (rev (executionOrder_ mgr)) true mgr;
  mret (ok, set_childPid (-1) (set_order [] mgr)).

(** *** Reading the capture pipe

    [while ((bytesRead = read(fd, buffer, 4095)) > 0) { buffer[bytesRead] = 0;
    result.stdout += buffer; }]: every chunk of [pipe_data] is what one
    [read] delivers; an empty chunk, or the end of the list, is the end of
    file.  The [+=] takes the buffer as a C string. *)
Fixpoint drain_chunks (fd : Z) (chunks : list string) (acc : string)
  : string * list EngEvent :=
  match chunks with
  | [] => (acc, [ESys (CRead fd 4095, mkRet 0 [] "")])
  | c :: rest =>
      if string_empty c then (acc, [ESys (CRead fd 4095, mkRet 0 [] "")])
      else
        let '(acc', t) := drain_chunks fd rest (acc +:+ c_str c) in
        (acc', ESys (CRead fd 4095, mkRet (Z.of_nat (String.length c)) [] c) :: t)
  end.

Definition drain (fd : Z) : Eng string :=
  MkProg (λ os _, let '(s, t) := drain_chunks fd (pipe_data os) "" in (Val s, t)).

(** The interpretation of the wait status at the end of [run]. *)
Definition interpret_status (waitedPid child status : Z) (result : SandboxResult)
  : SandboxResult :=
  if waitedPid =? child then
    if WIFEXITED status then
      {| exitCode := WEXITSTATUS status; success := (WEXITSTATUS status =? 0);
         errorMessage := errorMessage result; stdout := stdout result;
         childPid := childPid result |}
    else if WIFSIGNALED status then
      {| exitCode := - WTERMSIG status; success := false;
         errorMessage := "Killed by signal: " +:+ to_string (WTERMSIG status);
         stdout := stdout result; childPid := childPid result |}
    else result
  else result.

Definition failed (msg : string) : SandboxResult :=
  {| exitCode := -1; success := false; errorMessage := msg; stdout := "";
     childPid := -1 |}.

(** *** [run] *)
Definition run (mgr : SandboxManager) : Eng (SandboxResult * SandboxManager) :=
  let mgr := setState SandboxState.INITIALIZING mgr in
  let mgr := resolveDependencies mgr in
  '(ok, mgr) ← initializeModules mgr;
  if negb ok
  then mret (failed "Failed to initialize modules", setState SandboxState.ERROR mgr)
  else
    p ← ecall CPipe;
    if rv p <? 0
    then mret (failed "Failed to create pipe", setState SandboxState.ERROR mgr)
    else
      let mgr := set_pipeFd (nth 0 (out p) (-1), nth 1 (out p) (-1)) mgr in
      f ← ecall CFork;
      let mgr := set_childPid (rv f) mgr in
      if rv f <? 0
      then
        ecall (CClose (fst (pipeFd_ mgr)));;
        ecall (CClose (snd (pipeFd_ mgr)));;
        mret (failed "Failed to fork process", setState SandboxState.ERROR mgr)
      else if rv f =? 0
      then
        ecall (CClose (fst (pipeFd_ mgr)));;
        ecall (CPrctlSetName (name (sandbox (config_ mgr))));;
        code ← executeChild mgr;
        prog_exit code
      else
        ecall (CClose (snd (pipeFd_ mgr)));;
        let mgr := setState SandboxState.RUNNING mgr in
        '(ok, mgr) ← prepareChildProcess mgr;
        (if negb ok then ecall (CKill (childPid_ mgr) K.SIGKILL);; mret tt else mret tt);;
        w ← ecall (CWaitpid (childPid_ mgr) 0);
        captured ← drain (fst (pipeFd_ mgr));
        ecall (CClose (fst (pipeFd_ mgr)));;
        let result :=
          interpret_status (rv w) (childPid_ mgr) (hd 0 (out w))
            {| exitCode := -1; success := false; errorMessage := "";
               stdout := captured; childPid := childPid_ mgr |} in
        let mgr := setState SandboxState.STOPPING mgr in
        '(_, mgr) ← cleanupModules mgr;
        mret (result, setState SandboxState.STOPPED mgr).

(** *** [stop] and the destructor *)

Fixpoint stop_loop (attempts : nat) (pid : Z) : Eng bool :=
  match attempts with
  | O => mret false
  | S n =>
      w ← ecall (CWaitpid pid K.WNOHANG);
      if negb (rv w =? 0) then mret true
      else ecall (CSleepMs 100);; stop_loop n pid
  end.

Definition stop (timeoutMs : Z) (mgr : SandboxManager) : Eng bool :=
  if childPid_ mgr <? 0 then mret true
  else
    ecall (CKill (childPid_ mgr) K.SIGTERM);;
    exited ← stop_loop (Z.to_nat (Z.quot timeoutMs 100)) (childPid_ mgr);
    if (exited : bool) then mret true
    else
      ecall (CKill (childPid_ mgr) K.SIGKILL);;
      ecall (CWaitpid (childPid_ mgr) 0);;
      mret true.

(** [~SandboxManager] *)
Definition destroy (mgr : SandboxManager) : Eng SandboxManager :=
  stop 1000 mgr;;
  '(_, mgr) ← cleanupModules mgr;
  mret mgr.

(** A registration of which the returned flag is dropped. *)
Definition register (m : ModuleObj) (mgr : SandboxManager) : SandboxManager :=
  snd (registerModule (Some m) mgr).

(** [registerDefaultModules] of [main.cpp]; the member of the manager with
    the same name is empty.  [Cgroups] is built with its default path. *)
Definition registerDefaultModules (mgr : SandboxManager) : SandboxManager :=
  let mgr := register (MkModule Namespaces.new) mgr in
  let mgr := register (MkModule (Cgroups.new "/sys/fs/cgroup")) mgr in
  let mgr := register (MkModule Seccomp.new) mgr in
  let mgr := register (MkModule Caps.new) mgr in
  let mgr := register (MkModule RootFS.new) mgr in
  let mgr := register (MkModule Mounts.new) mgr in
  register (MkModule AIAgent.new) mgr.


(** ** Predicates on traces used by the statements *)

(** The order of [std::string] keys. *)
Definition key_lt (a b : string) : Prop := String.compare a b = Lt.

(** The registered names, as a set. *)
Definition registered_names (mods : list (string * ModuleObj)) : gset string :=
  list_to_set (map_keys mods).

(** [sat os P m Q]: in the environment [os], from any history, every event
    that [m] adds satisfies [P], and a value that [m] returns satisfies [Q]. *)
Definition sat {E A} (os : OS) (P : E → Prop) (m : Prog E A) (Q : A → Prop) : Prop :=
  ∀ h, Forall P (runProg m os h).2 ∧
       match (runProg m os h).1 with Val a => Q a | _ => True end.

Definition calls_only (Pc : SysCall → Prop) : SysEvent → Prop := λ e, Pc e.1.

(** The calls that the built-in modules and the engine can make: every
    call except [clone], [unshare], [prctl(PR_SET_NO_NEW_PRIVS)] and
    [dup2]. *)
Definition made_call (c : SysCall) : Prop :=
  match c with
  | CClone _ | CUnshare _ | CPrctlSetNoNewPrivs _ | CDup2 _ _ => False
  | _ => True
  end.

(** A virtual table all of whose hooks make only calls in [Pc]. *)
Definition vt_calls (Pc : SysCall → Prop) {St} (vt : IModule St) : Prop :=
  ∀ os st config pid,
    sat os (calls_only Pc) (@initialize St vt config st) (λ _, True) ∧
    sat os (calls_only Pc) (@prepareChild St vt config pid st) (λ _, True) ∧
    sat os (calls_only Pc) (@applyChild St vt config st) (λ _, True) ∧
    sat os (calls_only Pc) (@cleanup St vt st) (λ _, True).

Definition module_calls (Pc : SysCall → Prop) (m : ModuleObj) : Prop :=
  vt_calls Pc (mod_vt m).

Definition registry_calls (Pc : SysCall → Prop) (mods : list (string * ModuleObj)) : Prop :=
  Forall (λ kv, module_calls Pc kv.2) mods.

Definition eng_calls_only (Pc : SysCall → Prop) : EngEvent → Prop :=
  λ e, Forall (calls_only Pc) (flatten e).

(** The calls that the engine makes itself. *)
Definition engine_call (c : SysCall) : Prop :=
  match c with
  | CPipe | CFork | CClose _ | CPrctlSetName _ | CKill _ _ | CWaitpid _ _
  | CRead _ _ | CExecve _ _ | CSleepMs _ => True
  | _ => False
  end.

(** Everything but the registry is as before. *)
Definition same_engine (mgr mgr' : SandboxManager) : Prop :=
  mgr' = set_modules (modules_ mgr') mgr.

(** A hook that makes only calls in [Pc] on every object whose table does. *)
Definition hook_calls (os : OS) (Pc : SysCall → Prop) (hook : Hook) : Prop :=
  ∀ St (vt : IModule St) st,
    vt_calls Pc vt → sat os (calls_only Pc) (hook St vt st) (λ _, True).

Definition registry_post (Pc : SysCall → Prop) (mgr : SandboxManager)
  : bool * SandboxManager → Prop :=
  λ r, registry_calls Pc (modules_ r.2) ∧ same_engine mgr r.2.

(** The calls of the engine itself, and the hooks of one phase, in order. *)
Definition engine_calls (t : list EngEvent) : list SysCall :=
  omap (λ e, match e with ESys (c, _) => Some c | EHook _ _ _ _ => None end) t.

Definition hook_names (ph : Phase) (t : list EngEvent) : list string :=
  omap (λ e, match e with
             | EHook ph' n _ _ => if decide (ph' = ph) then Some n else None
             | ESys _ => None
             end) t.

Definition calls_of (t : list SysEvent) : list SysCall := map fst t.

(** The calls of the engine itself, with their results. *)
Definition engine_events (t : list EngEvent) : list SysEvent :=
  omap (λ e, match e with ESys e => Some e | EHook _ _ _ _ => None end) t.

(** The answers that the engine got from its blocking [waitpid] on [pid]. *)
Definition waited (pid : Z) (t : list EngEvent) : list Ret :=
  omap (λ e, match e with
             | ESys (CWaitpid p 0, w) => if p =? pid then Some w else None
             | _ => None
             end) t.

Definition is_clone (c : SysCall) : bool :=
  match c with CClone _ | CUnshare _ => true | _ => false end.

Definition is_dup2 (c : SysCall) : bool :=
  match c with CDup2 _ _ => true | _ => false end.

Definition is_no_new_privs (c : SysCall) : bool :=
  match c with CPrctlSetNoNewPrivs _ => true | _ => false end.

Definition is_set_seccomp (c : SysCall) : bool :=
  match c with CPrctlSetSeccomp _ _ => true | _ => false end.

(** *** What a descriptor of the child refers to

    The child starts with the descriptors of the parent: the standard
    streams and the two ends of the capture pipe.  [close] and [dup2] are
    the calls that change the table. *)
Inductive FdTarget := Inherited (fd : Z) | PipeRead | PipeWrite.

Definition child_fds (pipe_r pipe_w : Z) : Z → option FdTarget :=
  λ fd, if fd =? pipe_r then Some PipeRead
        else if fd =? pipe_w then Some PipeWrite
        else if (0 <=? fd) && (fd <=? 2) then Some (Inherited fd)
        else None.

Definition fd_step (tbl : Z → option FdTarget) (c : SysCall) : Z → option FdTarget :=
  match c with
  | CClose fd => λ x, if x =? fd then None else tbl x
  | CDup2 oldfd newfd => λ x, if x =? newfd then tbl oldfd else tbl x
  | _ => tbl
  end.

Definition fds_after (tbl : Z → option FdTarget) (calls : list SysCall)
  : Z → option FdTarget := fold_left fd_step calls tbl.

(** The calls that follow the first [fork] of the engine. *)
Fixpoint after_fork (t : list EngEvent) : list SysCall :=
  match t with
  | [] => []
  | ESys (CFork, _) :: rest => calls_of (flat rest)
  | _ :: rest => after_fork rest
  end.

(** ** Sample environments *)

(** Every call succeeds; [fork] returns [fork_ret] ([0] gives the view of
    the child), the process is 7, [pipe] gives the descriptors 3 and 4, a
    waited child has exited with status 0, every path exists, the filter
    exported by the seccomp library is ["BLOB"]. *)
Definition answer_ok (fork_ret : Z) (c : SysCall) : Ret :=
  match c with
  | CFork => mkRet fork_ret [] ""
  | CGetpid => mkRet 7 [] ""
  | CPipe => mkRet 0 [3; 4] ""
  | CWaitpid p _ => mkRet p [0] ""
  | CExists _ | CIsDirectory _ => mkRet 1 [] ""
  | CSeccompInit _ | CCapGetProc => mkRet 1 [] ""
  | CSeccompResolveName _ => mkRet 1 [] ""
  | CSeccompExportBpf false => mkRet 0 [4] ""
  | CSeccompExportBpf true => mkRet 0 [4] "BLOB"
  | _ => mkRet 0 [] ""
  end.

Definition os_ok (fork_ret : Z) (pipe : list string) : OS :=
  {| answer := λ _ c, answer_ok fork_ret c; pipe_data := pipe |}.

(** As [os_ok], but the root filesystem is missing. *)
Definition os_no_rootfs : OS :=
  {| answer := λ _ c,
       match c with
       | CExists "/var/lib/sandbox/rootfs/ubuntu_focal" => mkRet 0 [] ""
       | _ => answer_ok 42 c
       end;
     pipe_data := [] |}.

(** The manager that [main] builds. *)
Definition default_manager (config : SandboxConfiguration) : SandboxManager :=
  registerDefaultModules (new_manager config).


Definition with_policy (policy : string) (config : SandboxConfiguration)
  : SandboxConfiguration :=
  {| sandbox := sandbox config; resources := resources config;
     isolation := isolation config;
     security := {| capabilities := capabilities (security config);
                    seccomp_policy := policy;
                    seccomp_profile_path := seccomp_profile_path (security config) |};
     mounts := mounts config; ai_module := ai_module config |}.


(** The calls that change the mount table or the root: [mount],
    [umount2], [pivot_root], [chdir]. *)
Definition is_topology (c : SysCall) : bool :=
  match c with
  | CMount _ _ _ _ _ | CUmount2 _ _ | CPivotRoot _ _ | CChdir _ => true
  | _ => false
  end.

(** The sequence that the specification gives for the pivot. *)
Definition spec_pivot_sequence (rootfs : string) : list SysCall :=
  [CMount rootfs rootfs "" (Z.lor K.MS_BIND K.MS_REC) None;
   CMount "" rootfs "" (Z.lor K.MS_PRIVATE K.MS_REC) None;
   CPivotRoot rootfs (rootfs +:+ "/.oldroot");
   CChdir "/";
   CUmount2 "/.oldroot" K.MNT_DETACH].

(** The RootFS object after [initialize] on the default configuration. *)
Definition rootfs_initialized : RootFS.t :=
  {| RootFS.state_ := ModuleState.INITIALIZED;
     RootFS.rootPath_ := "/var/lib/sandbox/rootfs/ubuntu_focal";
     RootFS.oldRootPath_ := "/oldroot";
     RootFS.bootstrapRequired_ := false |}.


(** An interface file of the cgroup of a Cgroups object. *)
Definition cgroup_file (m : Cgroups.t) (setting : string) : string :=
  Cgroups.cgroupPath_ m +:+ "/" +:+ Cgroups.cgroupName_ m +:+ "/" +:+ setting.



(** The Cgroups object after [initialize] on the default configuration,
    in a process whose pid is 7. *)
Definition cgroups_initialized : Cgroups.t :=
  {| Cgroups.state_ := ModuleState.INITIALIZED;
     Cgroups.cgroupPath_ := "/sys/fs/cgroup";
     Cgroups.cgroupName_ := "sandbox-sandbox-default-7";
     Cgroups.cgroupFullPath_ := "/sys/fs/cgroup/sandbox-sandbox-default-7" |}.

(** The default action that [Seccomp::initialize] selects for a policy
    selector, given the one the object had. *)
Definition selected_action (policy : string) (previous : Z) : Z :=
  if String.eqb policy "default" then Seccomp.ACTION_ERRNO
  else if String.eqb policy "strict" then Seccomp.ACTION_KILL
  else if String.eqb policy "log" then Seccomp.ACTION_LOG
  else if String.eqb policy "allow" then Seccomp.ACTION_ALLOW
  else previous.

(** The calls by which the seccomp library builds and exports a filter. *)
Definition is_filter_build (c : SysCall) : bool :=
  match c with
  | CSeccompInit _ | CSeccompExportBpf _ => true
  | _ => false
  end.

(** The Seccomp object after [initialize] with the selector ["off"]. *)
Definition seccomp_off_initialized : Seccomp.t :=
  {| Seccomp.state_ := ModuleState.INITIALIZED;
     Seccomp.defaultAction_ := Seccomp.ACTION_ERRNO;
     Seccomp.filterBlob_ := "BLOB";
     Seccomp.enabled_ := true |}.

(** *** The result and the order of a run *)

Definition run_result (r : Outcome (SandboxResult * SandboxManager) * list EngEvent)
  : option SandboxResult :=
  match r.1 with
  | Val (res, _) => Some res
  | _ => None
  end.

(** The order that [resolveDependencies] gives to the modules of [main]:
    the names as [std::map] iterates them, with ["rootfs"] drawn before
    ["mounts"], which depends on it. *)
Definition default_order : list string :=
  ["ai-agent"; "caps"; "cgroups"; "rootfs"; "mounts"; "namespaces"; "seccomp"].

Definition is_hook (ph : Phase) (e : EngEvent) : bool :=
  match e with
  | EHook ph' _ _ _ => bool_decide (ph' = ph)
  | ESys _ => false
  end.





(** The objects of [mgr] are still registered in [mgr']. *)
Definition keys_kept (mgr mgr' : SandboxManager) : Prop :=
  ∀ k, k ∈ map_keys (modules_ mgr) → k ∈ map_keys (modules_ mgr').



(** *** A host with directories

    The directories [dirs] exist at the start; [mkdir] adds one and
    [remove_all] removes one.  Paths are compared as the kernel resolves
    them, repeated slashes counting as one. *)
Fixpoint collapse_slashes (p : string) : string :=
  match p with
  | String "/" (String "/" _ as rest) => collapse_slashes rest
  | String c rest => String c (collapse_slashes rest)
  | EmptyString => EmptyString
  end.

Definition same_path (p q : string) : bool :=
  String.eqb (collapse_slashes p) (collapse_slashes q).

Definition dir_exists (dirs : list string) (h : list SysEvent) (p : string) : bool :=
  fold_left (λ ex e, match e.1 with
                     | CMkdir q _ => if same_path q p then true else ex
                     | CRemoveAll q => if same_path q p then false else ex
                     | _ => ex
                     end)
            h (existsb (same_path p) dirs).

Definition os_host (dirs : list string) : OS :=
  {| answer := λ h c,
       match c with
       | CExists p | CIsDirectory p => mkRet (if dir_exists dirs h p then 1 else 0) [] ""
       | _ => answer_ok 42 c
       end;
     pipe_data := [] |}.

(** A host with the cgroup hierarchy mounted and no root filesystem for
    the sandbox. *)
Definition host_dirs : list string := ["/"; "/sys"; "/sys/fs"; "/sys/fs/cgroup"].

(** *** Predicates on orders *)

(** [d] occurs in [l] before the first occurrence of [x]. *)
Definition occurs_before (d x : string) (l : list string) : Prop :=
  ∃ l1 l2, l = l1 ++ x :: l2 ∧ d ∈ l1.

(** What [resolveDependencies] keeps true of its three variables: the
    order lists the visited names once each, they are registered, and
    none of them is on the current path. *)
Definition dfs_inv (mods : list (string * ModuleObj)) (s : DfsState) : Prop :=
  NoDup (order s) ∧
  (∀ x, x ∈ order s ↔ x ∈ visited s) ∧
  visited s ⊆ registered_names mods ∧
  visited s ## temp s.

(** Every registered dependency of a listed module is listed before it. *)
Definition deps_first (mods : list (string * ModuleObj)) (l : list string) : Prop :=
  ∀ x module d, x ∈ l → map_find x mods = Some module →
    d ∈ module_deps module → d ∈ registered_names mods → occurs_before d x l.

(** What one call of [dfs] on [n] does to the state. *)
Definition dfs_post (mods : list (string * ModuleObj)) (n : string) (s s' : DfsState)
  : Prop :=
  dfs_inv mods s' ∧ visited s ⊆ visited s' ∧ temp s' = temp s ∧
  (∃ suffix, order s' = order s ++ suffix) ∧
  (n ∈ registered_names mods → n ∉ temp s → n ∈ visited s').

(** The dependencies between registered modules go down along [rank]:
    there is no cycle. *)
Definition acyclic (mods : list (string * ModuleObj)) (rank : string → nat) : Prop :=
  ∀ x module d, map_find x mods = Some module → d ∈ module_deps module →
    d ∈ registered_names mods → (rank d < rank x)%nat.

(** *** The hooks of a trace, with what they returned *)

Definition hook_log (t : list EngEvent) : list (Phase * string * Outcome bool) :=
  omap (λ e, match e with
             | EHook ph n _ res => Some (ph, n, res)
             | ESys _ => None
             end) t.

(** The entry of a hook that returned [ok]. *)
Definition returned (ph : Phase) (ok : bool) (n : string)
  : Phase * string * Outcome bool := (ph, n, Val ok).

Definition entry_ok (e : Phase * string * Outcome bool) : bool :=
  match e.2 with
  | Val true => true
  | _ => false
  end.

(** *** The calls of [stop] *)

(** One round of the wait of [stop]: a poll and a pause. *)
Definition poll_round (pid : Z) : list SysCall :=
  [CWaitpid pid K.WNOHANG; CSleepMs 100].

(** The calls of [stop] when the child was seen gone at poll number
    [polls] (counted from 0), or never within the [attempts] polls. *)
Definition stop_calls (pid : Z) (attempts polls : nat) : list SysCall :=
  CKill pid K.SIGTERM :: concat (replicate polls (poll_round pid))
  ++ (if (polls <? attempts)%nat then [CWaitpid pid K.WNOHANG]
      else [CKill pid K.SIGKILL; CWaitpid pid 0]).

(** *** What the parent reads from the pipe *)

(** The chunks that the read loop takes: those before the first empty
    read. *)
Fixpoint read_chunks (chunks : list string) : list string :=
  match chunks with
  | [] => []
  | c :: rest => if string_empty c then [] else c :: read_chunks rest
  end.

(** Each chunk is appended as a C string. *)
Definition captured (chunks : list string) : string :=
  fold_left (λ acc c, acc +:+ c_str c) (read_chunks chunks) "".

(** *** The paths of [mkdirRecursive] *)

(** The values of [currentPath] in the loop of [mkdirRecursive]. *)
Fixpoint visited_paths (cur : string) (tokens : list string) : list string :=
  match tokens with
  | [] => []
  | tok :: rest => (cur +:+ "/" +:+ tok) :: visited_paths (cur +:+ "/" +:+ tok) rest
  end.

Definition is_exists (c : SysCall) : bool :=
  match c with CExists _ => true | _ => false end.

Definition is_mkdir (c : SysCall) : bool :=
  match c with CMkdir _ _ => true | _ => false end.

(** A [mkdir] of the trace that failed. *)
Definition failed_mkdir (e : SysEvent) : bool :=
  is_mkdir e.1 && (rv e.2 <? 0).

(** *** The calls of the Namespaces module in the child *)

(** A line of [/proc/self/uid_map] or [gid_map]. *)
Definition id_map_line (container host count : Z) : string :=
  to_string container +:+ " " +:+ to_string host +:+ " " +:+ to_string count.

Definition namespace_calls (config : SandboxConfiguration) : list SysCall :=
  let um := uid_map (isolation config) in
  let gm := gid_map (isolation config) in
  (if Namespaces.hasNamespace "user" config
   then [CWriteFile "/proc/self/setgroups" "deny";
         CWriteFile "/proc/self/uid_map"
           (id_map_line (container_uid um) (host_uid um) (uid_count um));
         CWriteFile "/proc/self/gid_map"
           (id_map_line (container_gid gm) (host_gid gm) (gid_count gm))]
   else [])
  ++ (if Namespaces.hasNamespace "pid" config
      then [CMount "proc" "/proc" "proc" Namespaces.proc_flags None] else [])
  ++ (if Namespaces.hasNamespace "mount" config
      then [CMount "sysfs" "/sys" "sysfs" Namespaces.proc_flags None] else [])
  ++ (if Namespaces.hasNamespace "uts" config
      then [CSetHostname (hostname (sandbox config))] else []).

(** The calls whose failure makes [Namespaces::applyChild] fail. *)
Definition namespace_fatal (e : SysEvent) : bool :=
  match e.1 with
  | CWriteFile "/proc/self/uid_map" _ | CWriteFile "/proc/self/gid_map" _ =>
      negb (rv e.2 =? 0)
  | CMount "proc" "/proc" "proc" _ _ => rv e.2 <? 0
  | _ => false
  end.

Definition with_namespaces (ns : list string) (config : SandboxConfiguration)
  : SandboxConfiguration :=
  {| sandbox := sandbox config; resources := resources config;
     isolation := {| namespaces := ns; uid_map := uid_map (isolation config);
                     gid_map := gid_map (isolation config) |};
     security := security config; mounts := mounts config;
     ai_module := ai_module config |}.

(** *** Failures in [Cgroups::initialize] *)

(** The calls whose failure makes [Cgroups::initialize] fail: a [mkdir]
    and the writes of [memory.max], [cpu.max] and [pids.max]. *)
Definition cgroup_fatal (m : Cgroups.t) (e : SysEvent) : bool :=
  match e.1 with
  | CMkdir _ _ => rv e.2 <? 0
  | CWriteFile p _ =>
      (String.eqb p (cgroup_file m "memory.max") || String.eqb p (cgroup_file m "cpu.max")
       || String.eqb p (cgroup_file m "pids.max"))
      && negb (rv e.2 =? 0)
  | _ => false
  end.

(** *** Bind mounts *)

(** The target of a plain bind mount that succeeded. *)
Definition bind_succeeded (e : SysEvent) : option string :=
  match e with
  | (CMount _ target "bind" flags None, r) =>
      if (flags =? K.MS_BIND) && (0 <=? rv r) then Some target else None
  | _ => None
  end.

Definition is_mount (c : SysCall) : bool :=
  match c with CMount _ _ _ _ _ => true | _ => false end.

(** As [os_ok], but remounting is refused. *)
Definition os_remount_denied : OS :=
  {| answer := λ _ c,
       match c with
       | CMount "" _ _ _ _ => mkRet (-1) [] ""
       | _ => answer_ok 42 c
       end;
     pipe_data := [] |}.

(** *** The calls of the Caps module in the child *)

Definition is_cap_free (c : SysCall) : bool :=
  match c with CCapFree => true | _ => false end.

(** An ambient capability that was raised. *)
Definition ambient_set (e : SysEvent) : bool :=
  match e.1 with CCapUpdateAmbient _ => negb (rv e.2 <? 0) | _ => false end.

Definition caps_apply_calls (capList : list Z) : list SysCall :=
  CCapGetProc :: CCapClear
  :: match capList with
     | [] => []
     | _ => [CCapSetFlag K.CAP_EFFECTIVE capList; CCapSetFlag K.CAP_PERMITTED capList;
             CCapSetFlag K.CAP_INHERITABLE capList]
     end
  ++ CCapSetProc :: map CCapUpdateAmbient capList ++ [CCapFree].

Definition with_capabilities (caps : list string) (config : SandboxConfiguration)
  : SandboxConfiguration :=
  {| sandbox := sandbox config; resources := resources config;
     isolation := isolation config;
     security := {| capabilities := caps;
                    seccomp_policy := seccomp_policy (security config);
                    seccomp_profile_path := seccomp_profile_path (security config) |};
     mounts := mounts config; ai_module := ai_module config |}.

(** *** The filter that the Seccomp module builds *)

Definition is_seccomp_release (c : SysCall) : bool :=
  match c with CSeccompRelease => true | _ => false end.

(** A system-call name handed to [seccomp_syscall_resolve_name], with the
    number it was given. *)
Definition resolved (e : SysEvent) : option (string * Z) :=
  match e.1 with CSeccompResolveName c => Some (c, rv e.2) | _ => None end.

(** A rule handed to [seccomp_rule_add]: action and system-call number. *)
Definition rule_added (e : SysEvent) : option (Z * Z) :=
  match e.1 with CSeccompRuleAdd a n => Some (a, n) | _ => None end.

(** One ALLOW rule for each name that resolved. *)
Definition allow_rules (res : list (string * Z)) : list (Z * Z) :=
  map (λ p, (K.SCMP_ACT_ALLOW, p.2))
    (List.filter (λ p : string * Z, negb (p.2 =? K.NR_SCMP_ERROR)) res).

(** As [os_ok], with files that can be read. *)
Definition os_readable (content : string) : OS :=
  {| answer := λ _ c,
       match c with
       | CReadFile _ => mkRet 1 [] content
       | _ => answer_ok 42 c
       end;
     pipe_data := [] |}.

Definition with_profile (path : string) (config : SandboxConfiguration)
  : SandboxConfiguration :=
  {| sandbox := sandbox config; resources := resources config;
     isolation := isolation config;
     security := {| capabilities := capabilities (security config);
                    seccomp_policy := seccomp_policy (security config);
                    seccomp_profile_path := path |};
     mounts := mounts config; ai_module := ai_module config |}.

(** *** The bootstrap of the root filesystem *)

Definition is_fork (c : SysCall) : bool :=
  match c with CFork => true | _ => false end.

(** The command line of [debootstrap]. *)
Definition debootstrap_call (config : SandboxConfiguration) : SysCall :=
  CExeclp "debootstrap"
    ["debootstrap"; "--arch=amd64"; "--variant=minbase"; release (sandbox config);
     rootfs_path (sandbox config); "http://archive.ubuntu.com/ubuntu/"].

Definition with_bootstrap (b : bool) (config : SandboxConfiguration)
  : SandboxConfiguration :=
  {| sandbox := {| name := name (sandbox config); hostname := hostname (sandbox config);
                   rootfs_path := rootfs_path (sandbox config);
                   command := command (sandbox config);
                   auto_bootstrap := b;
                   distro := distro (sandbox config);
                   release := release (sandbox config) |};
     resources := resources config; isolation := isolation config;
     security := security config; mounts := mounts config;
     ai_module := ai_module config |}.

(** *** The cURL handle of the AI module *)

(** A [curl_easy_init] that gave a handle. *)
Definition curl_acquired (e : SysEvent) : bool :=
  match e.1 with CCurlEasyInit => negb (rv e.2 =? 0) | _ => false end.

Definition with_ai (enabled : bool) (config : SandboxConfiguration)
  : SandboxConfiguration :=
  {| sandbox := sandbox config; resources := resources config;
     isolation := isolation config; security := security config;
     mounts := mounts config;
     ai_module := {| ai_enabled := enabled;
                     api_key_env := api_key_env (ai_module config) |} |}.

(** As [os_ok], with every environment variable set to [value]. *)
Definition os_env (value : string) : OS :=
  {| answer := λ _ c,
       match c with
       | CGetenv _ => mkRet 1 [] value
       | CCurlEasyInit => mkRet 1 [] ""
       | _ => answer_ok 42 c
       end;
     pipe_data := [] |}.
(** * Properties *)

(** ** The module registry *)

Section StdMapFacts.
Context {V : Type}.
Implicit Types (m : list (string * V)) (k : string) (v : V).


Lemma key_lt_trans a b c : key_lt a b → key_lt b c → key_lt a c.
Proof.
  unfold key_lt. intros H1 H2.
  apply String_as_OT.cmp_lt. apply String_as_OT.cmp_lt in H1, H2.
  eapply String_as_OT.lt_trans; eauto.
Qed.

Lemma key_lt_neq a b : key_lt a b → a ≠ b.
Proof.
  unfold key_lt. intros H ->.
  pose proof (proj2 (String_as_OT.cmp_eq b b) eq_refl) as E.
  unfold String_as_OT.cmp in E.
  congruence.
Qed.

Lemma ltb_key_lt a b : String.ltb a b = true ↔ key_lt a b.
Proof.
  unfold String.ltb, key_lt. destruct (String.compare a b); split; congruence.
Qed.

Lemma compare_Gt_lt a b : String.compare a b = Gt → key_lt b a.
Proof.
  unfold key_lt. intros H. rewrite String.compare_antisym, H. reflexivity.
Qed.

(** In a sorted map the first key is below all the others. *)
Lemma map_sorted_cons k v m :
  map_sorted ((k, v) :: m) = true ↔
  Forall (λ kv, key_lt k kv.1) m ∧ map_sorted m = true.
Proof.
  revert k v. induction m as [|[k' v'] m IH]; intros k v.
  - simpl. split; [intros _; split; [constructor | reflexivity] | reflexivity].
  - change (map_sorted ((k, v) :: (k', v') :: m))
      with (String.ltb k k' && map_sorted ((k', v') :: m)).
    rewrite andb_true_iff, ltb_key_lt. split.
    + intros [Hlt Hs]. split; [|exact Hs].
      constructor; [exact Hlt|].
      apply IH in Hs as [Hall _].
      eapply Forall_impl; [exact Hall|].
      intros kv Hkv. simpl in *. eapply key_lt_trans; eauto.
    + intros [Hall Hs]. split; [|exact Hs].
      inversion Hall; subst; assumption.
Qed.

Lemma map_find_below k m :
  Forall (λ kv, key_lt k kv.1) m → map_find k m = None.
Proof.
  induction 1 as [|[k' v'] m Hlt _ IH]; [reflexivity|].
  simpl in *. apply key_lt_neq in Hlt.
  destruct (String.eqb_spec k k'); [contradiction | exact IH].
Qed.

Lemma count_below k m :
  Forall (λ kv, key_lt k kv.1) m →
  count_occ String.string_dec (map_keys m) k = 0%nat.
Proof.
  induction 1 as [|[k' v'] m Hlt _ IH]; [reflexivity|].
  simpl in *. apply key_lt_neq in Hlt.
  destruct (String.string_dec k' k); [congruence | exact IH].
Qed.

Lemma map_insert_Forall (P : string → Prop) k v m :
  P k → Forall (λ kv, P kv.1) m → Forall (λ kv, P kv.1) (map_insert k v m).
Proof.
  intros Hk. induction 1 as [|[k' v'] m Hh Ht IH]; simpl.
  - repeat constructor. exact Hk.
  - destruct (String.compare k k'); repeat constructor; auto.
Qed.

Lemma map_insert_sorted k v m :
  map_sorted m = true → map_sorted (map_insert k v m) = true.
Proof.
  induction m as [|[k' v'] m IH]; [reflexivity|].
  intros Hs. pose proof Hs as Hs'. apply map_sorted_cons in Hs' as [Hall Hm].
  simpl. destruct (String.compare k k') eqn:E.
  - apply String.compare_eq_iff in E. subst k'.
    apply map_sorted_cons. split; assumption.
  - apply map_sorted_cons. split; [|exact Hs].
    constructor; [exact E|].
    eapply Forall_impl; [exact Hall|].
    intros kv Hkv. eapply key_lt_trans; [exact E | exact Hkv].
  - apply map_sorted_cons. split; [|auto].
    apply map_insert_Forall; [apply compare_Gt_lt; exact E | exact Hall].
Qed.

Lemma map_find_insert_eq k v m :
  map_sorted m = true → map_find k (map_insert k v m) = Some v.
Proof.
  induction m as [|[k' v'] m IH]; intros Hs; simpl.
  - rewrite String.eqb_refl. reflexivity.
  - destruct (String.compare k k') eqn:E; simpl.
    + rewrite String.eqb_refl. reflexivity.
    + rewrite String.eqb_refl. reflexivity.
    + apply compare_Gt_lt, key_lt_neq in E.
      destruct (String.eqb_spec k k'); [congruence|].
      apply IH. apply map_sorted_cons in Hs. tauto.
Qed.

Lemma map_find_insert_ne k k0 v m :
  k0 ≠ k → map_find k0 (map_insert k v m) = map_find k0 m.
Proof.
  intros Hne. induction m as [|[k' v'] m IH]; simpl.
  - destruct (String.eqb_spec k0 k); [contradiction | reflexivity].
  - destruct (String.compare k k') eqn:E; simpl.
    + apply String.compare_eq_iff in E. subst k'.
      destruct (String.eqb_spec k0 k); [contradiction | reflexivity].
    + destruct (String.eqb_spec k0 k); [contradiction | reflexivity].
    + destruct (String.eqb_spec k0 k'); [reflexivity | exact IH].
Qed.

Lemma map_insert_count k v m :
  map_sorted m = true →
  count_occ String.string_dec (map_keys (map_insert k v m)) k = 1%nat.
Proof.
  induction m as [|[k' v'] m IH]; intros Hs; simpl.
  - destruct (String.string_dec k k); [reflexivity | contradiction].
  - pose proof Hs as Hs'. apply map_sorted_cons in Hs' as [Hall Hm].
    destruct (String.compare k k') eqn:E; simpl.
    + apply String.compare_eq_iff in E. subst k'.
      destruct (String.string_dec k k); [|contradiction].
      f_equal. apply count_below. exact Hall.
    + destruct (String.string_dec k k); [|contradiction].
      f_equal. apply (count_below k ((k', v') :: m)).
      constructor; [exact E|].
      eapply Forall_impl; [exact Hall|].
      intros kv Hkv. eapply key_lt_trans; [exact E | exact Hkv].
    + apply compare_Gt_lt, key_lt_neq in E.
      destruct (String.string_dec k' k); [contradiction | auto].
Qed.

Lemma map_insert_length_present k v m :
  map_sorted m = true → is_Some (map_find k m) →
  length (map_insert k v m) = length m.
Proof.
  induction m as [|[k' v'] m IH]; intros Hs [x Hx]; simpl in *; [discriminate|].
  pose proof Hs as Hs'. apply (map_sorted_cons k' v' m) in Hs' as [Hall Hm].
  destruct (String.compare k k') eqn:E; simpl.
  - reflexivity.
  - exfalso. destruct (String.eqb_spec k k') as [->|Hne].
    + apply key_lt_neq in E. apply E. reflexivity.
    + rewrite map_find_below in Hx; [discriminate|].
      eapply Forall_impl; [exact Hall|].
      intros kv Hkv. eapply key_lt_trans; [exact E | exact Hkv].
  - f_equal. apply IH; [exact Hm|].
    apply compare_Gt_lt, key_lt_neq in E.
    destruct (String.eqb_spec k k') as [->|Hne]; [exfalso; apply E; reflexivity | eauto].
Qed.

Lemma map_find_Some_keys k v m : map_find k m = Some v → k ∈ map_keys m.
Proof.
  induction m as [|[k' v'] m IH]; simpl; [discriminate|].
  destruct (String.eqb_spec k k') as [->|Hne]; intros H.
  - left.
  - right. auto.
Qed.

Lemma map_find_keys k m : k ∈ map_keys m → is_Some (map_find k m).
Proof.
  induction m as [|[k' v'] m IH]; simpl; intros H.
  - inversion H.
  - destruct (String.eqb_spec k k') as [->|Hne]; [eauto|].
    apply IH. inversion H; subst; [contradiction | assumption].
Qed.

Lemma map_insert_keys k v m k0 :
  k0 ∈ map_keys (map_insert k v m) ↔ k0 = k ∨ k0 ∈ map_keys m.
Proof.
  induction m as [|[k' v'] m IH]; simpl.
  - rewrite list_elem_of_singleton. set_solver.
  - destruct (String.compare k k') eqn:E; simpl.
    + apply String.compare_eq_iff in E. subst k'. set_solver.
    + set_solver.
    + rewrite !elem_of_cons, IH. tauto.
Qed.
End StdMapFacts.

(** C10. [registerModule] fails exactly on the null pointer.  Registering
    a module whose name is already taken succeeds, and afterwards the
    registry holds the new module under that name, once: the earlier
    module is replaced, the size of the registry is unchanged and the
    other names are untouched. *)
Theorem registerModule_replaces :
  ∀ (module : option ModuleObj) (mgr : SandboxManager),
    map_sorted (modules_ mgr) = true →
    (fst (registerModule module mgr) = false ↔ module = None) ∧
    ∀ m, module = Some m →
      let mgr' := snd (registerModule module mgr) in
      fst (registerModule module mgr) = true ∧
      getModule (module_name m) mgr' = Some m ∧
      map_sorted (modules_ mgr') = true ∧
      count_occ String.string_dec (map_keys (modules_ mgr')) (module_name m) = 1%nat ∧
      (∀ k, k ≠ module_name m → getModule k mgr' = getModule k mgr) ∧
      (is_Some (getModule (module_name m) mgr) →
       length (modules_ mgr') = length (modules_ mgr)).
Proof.
  intros module mgr Hs. split.
  - destruct module; simpl; split; congruence.
  - intros m ->. simpl. unfold getModule. simpl.
    split; [reflexivity|].
    split; [destruct m; apply map_find_insert_eq; exact Hs|].
    split; [apply map_insert_sorted; exact Hs|].
    split; [apply map_insert_count; exact Hs|].
    split; [intros k Hk; apply map_find_insert_ne; exact Hk|].
    intros Hin. apply map_insert_length_present; assumption.
Qed.

(** ** Dependency resolution terminates *)

Section DfsTotal.
Variable mods : list (string * ModuleObj).

#[local] Abbreviation keys := (registered_names mods).

Lemma deps_loop_total (rec : string → DfsState → option DfsState) (T : gset string) :
  (∀ d s, temp s = T → ∃ s', rec d s = Some s' ∧ temp s' = T) →
  ∀ deps s, temp s = T → ∃ s', deps_loop rec deps s = Some s' ∧ temp s' = T.
Proof.
  intros Hrec. induction deps as [|d deps IH]; intros s Hs; simpl.
  - eauto.
  - destruct (Hrec d s Hs) as (s' & -> & Hs'). apply IH. exact Hs'.
Qed.

(** A call of [dfs] returns as soon as the bound exceeds the number of
    registered names that are not on the current path, and it leaves the
    path ([temp]) as it found it. *)
Lemma dfs_total fuel :
  ∀ n s, temp s ⊆ keys → (size (keys ∖ temp s) < fuel)%nat →
         ∃ s', dfs fuel mods n s = Some s' ∧ temp s' = temp s.
Proof.
  induction fuel as [|fuel IH]; intros n s Hsub Hsz; [lia|].
  simpl. destruct (decide (n ∈ temp s)) as [|Hnt]; [eauto|].
  destruct (decide (n ∈ visited s)); [eauto|].
  destruct (map_find n mods) as [module|] eqn:Hfind; [|eauto].
  assert (n ∈ keys) as Hkey.
  { apply elem_of_list_to_set. eapply map_find_Some_keys; eauto. }
  destruct (deps_loop_total (dfs fuel mods) ({[n]} ∪ temp s)) with
    (deps := module_deps module)
    (s := {| visited := visited s; temp := {[n]} ∪ temp s; order := order s |})
    as (s2 & -> & Hs2).
  - intros d s0 Hs0. rewrite <- Hs0. apply IH.
    + rewrite Hs0. set_solver.
    + rewrite Hs0.
      assert (keys ∖ ({[n]} ∪ temp s) ⊂ keys ∖ temp s) as Hlt by set_solver.
      apply subset_size in Hlt. lia.
  - reflexivity.
  - eexists. split; [reflexivity|]. simpl. rewrite Hs2. set_solver.
Qed.

Lemma resolve_loop_total fuel :
  (size keys < fuel)%nat →
  ∀ todo s, temp s = ∅ → is_Some (resolve_loop fuel mods todo s).
Proof.
  intros Hsz. induction todo as [|n todo IH]; intros s Hs; simpl; [eauto|].
  destruct (decide (n ∈ visited s)); [auto|].
  destruct (dfs_total fuel n s) as (s' & -> & Hs').
  - rewrite Hs. set_solver.
  - rewrite Hs. replace (keys ∖ ∅) with keys by set_solver. exact Hsz.
  - apply IH. congruence.
Qed.

(** [resolveDependencies] always produces an order. *)
Lemma resolve_order_total : is_Some (resolve_order mods).
Proof.
  unfold resolve_order. apply fmap_is_Some.
  apply resolve_loop_total; [|reflexivity]. fold keys. lia.
Qed.
End DfsTotal.

(** ** A program logic for traces *)

Section ProgramLogic.
Context {E : Type} `{Flat E}.


Lemma run_bind {A B} (f : A → Prog E B) (m : Prog E A) os h :
  runProg (m ≫= f) os h =
  match runProg m os h with
  | (Val a, t1) => let '(o, t2) := runProg (f a) os (h ++ flat t1) in (o, t1 ++ t2)
  | (Exited c, t1) => (Exited c, t1)
  | (Execed, t1) => (Execed, t1)
  end.
Proof. reflexivity. Qed.

Lemma run_ret {A} (a : A) os h : runProg (mret a : Prog E A) os h = (Val a, []).
Proof. reflexivity. Qed.

Lemma sat_ret {A} os (P : E → Prop) (a : A) (Q : A → Prop) : Q a → sat os P (mret a) Q.
Proof. intros HQ h. rewrite run_ret. simpl. auto. Qed.

Lemma sat_bind {A B} os (P : E → Prop) (m : Prog E A) (f : A → Prog E B) (Q : A → Prop) (R : B → Prop) :
  sat os P m Q → (∀ a, Q a → sat os P (f a) R) → sat os P (m ≫= f) R.
Proof.
  intros Hm Hf h. rewrite run_bind. specialize (Hm h).
  destruct (runProg m os h) as [[a|c|] t1]; simpl in *; destruct Hm as [Ht HQ].
  - specialize (Hf a HQ (h ++ flat t1)).
    destruct (runProg (f a) os (h ++ flat t1)) as [o t2]. simpl in *.
    destruct Hf as [Ht2 HR]. split; [apply Forall_app; auto | exact HR].
  - auto.
  - auto.
Qed.

Lemma sat_weaken {A} os (P : E → Prop) (m : Prog E A) (Q Q' : A → Prop) :
  sat os P m Q → (∀ a, Q a → Q' a) → sat os P m Q'.
Proof.
  intros Hm Himp h. destruct (Hm h) as [Ht HQ]. split; [exact Ht|].
  destruct (runProg m os h).1; auto.
Qed.

Lemma sat_exit {A} os (P : E → Prop) code (Q : A → Prop) : sat os P (prog_exit code) Q.
Proof. intros h. simpl. auto. Qed.

Lemma sat_if {A} os (P : E → Prop) (b : bool) (m1 m2 : Prog E A) Q :
  (b = true → sat os P m1 Q) → (b = false → sat os P m2 Q) →
  sat os P (if b then m1 else m2) Q.
Proof. destruct b; auto. Qed.
End ProgramLogic.

Lemma flat_sys (t : list SysEvent) : flat t = t.
Proof.
  unfold flat. induction t as [|e t IH]; [reflexivity|].
  simpl. f_equal. exact IH.
Qed.

Lemma flat_app {E} `{Flat E} (t1 t2 : list E) : flat (t1 ++ t2) = flat t1 ++ flat t2.
Proof. unfold flat. rewrite map_app, concat_app. reflexivity. Qed.

Lemma flat_ESys (t : list SysEvent) : flat (map ESys t) = t.
Proof.
  unfold flat. induction t as [|e t IH]; [reflexivity|].
  simpl. f_equal. exact IH.
Qed.

Lemma sat_call os (P : SysEvent → Prop) (c : SysCall) (Q : Ret → Prop) :
  (∀ r, P (c, r)) → (∀ h, Q (answer os h c)) → sat os P (call c) Q.
Proof. intros HP HQ h. simpl. split; [repeat constructor; apply HP | apply HQ]. Qed.

Lemma sat_exec_call os (P : SysEvent → Prop) (c : SysCall) (Q : Z → Prop) :
  (∀ r, P (c, r)) → (∀ z, Q z) → sat os P (exec_call c) Q.
Proof.
  intros HP HQ h. simpl. split; [repeat constructor; apply HP|].
  destruct (rv (answer os h c) <? 0); simpl; auto.
Qed.

Lemma sat_lift {A} os (P : EngEvent → Prop) (m : Sys A) (Q : A → Prop) :
  sat os (λ e, P (ESys e)) m Q → sat os P (lift m) Q.
Proof.
  intros Hm h. specialize (Hm h). simpl.
  destruct (runProg m os h) as [o t]. simpl in *. destruct Hm as [Ht HQ].
  split; [|exact HQ]. apply Forall_map. exact Ht.
Qed.

Lemma sat_ecall os (P : EngEvent → Prop) (c : SysCall) (Q : Ret → Prop) :
  (∀ r, P (ESys (c, r))) → (∀ h, Q (answer os h c)) → sat os P (ecall c) Q.
Proof. intros HP HQ. apply sat_lift, sat_call; auto. Qed.

#[local] Arguments mbind : simpl never.
#[local] Arguments mret : simpl never.
#[local] Arguments call : simpl never.
#[local] Arguments exec_call : simpl never.
#[local] Arguments prog_exit : simpl never.
#[local] Arguments lift : simpl never.
#[local] Arguments ecall : simpl never.

(** Tactics: decompose a program along its binds and branches. *)
Ltac sat_step :=
  lazymatch goal with
  | |- sat _ _ (mret _) _ => apply sat_ret
  | |- sat _ _ (prog_exit _) _ => apply sat_exit
  | |- sat _ _ (_ ≫= _) _ => eapply sat_bind; [|intros ? ?]
  | |- sat _ _ (if ?b then _ else _) _ => destruct b eqn:?
  | |- sat _ _ (match ?x with _ => _ end) _ => destruct x eqn:?
  | |- sat _ _ (let '(_, _) := ?x in _) _ => destruct x eqn:?
  end.

(** ** Which calls the modules make *)


Create HintDb sandbox_unfold.
#[local] Hint Unfold
  Syscall.exists_ Syscall.isDirectory Syscall.readFile Syscall.writeFile
  Syscall.mkdirRecursive Syscall.removeRecursive Syscall.createCgroup
  Syscall.removeCgroup Syscall.setCgroupValue Syscall.addToCgroup Syscall.mount
  Syscall.unmount Syscall.pivotRoot Syscall.unshare Syscall.cloneWithFlags
  Syscall.setHostname Syscall.writeProcSetgroups Syscall.writeProcUidMap
  Syscall.writeProcGidMap : sandbox_unfold.

Ltac solve_pc :=
  first [ exact I | discriminate | assumption
        | match goal with H : _ |- _ => solve [apply H] end ].

(** Solves [sat os (calls_only Pc) m (λ _, True)] along the structure of
    [m]; loops are closed by the lemmas of [sat_loops] or left open. *)
Ltac sat_calls_step :=
  lazymatch goal with
  | |- sat _ _ (mret _) _ => apply sat_ret; exact I
  | |- sat _ _ (prog_exit _) _ => apply sat_exit
  | |- sat _ _ (call _) _ =>
      apply sat_call; [intros; unfold calls_only; simpl; solve_pc | intros; exact I]
  | |- sat _ _ (exec_call _) _ =>
      apply sat_exec_call; [intros; unfold calls_only; simpl; solve_pc | intros; exact I]
  | |- sat _ _ (_ ≫= _) _ => eapply (sat_bind _ _ _ _ (λ _, True)); [|intros ? _]
  | |- sat _ _ (Prog_bind _ _ _ _) _ => eapply (sat_bind _ _ _ _ (λ _, True)); [|intros ? _]
  | |- sat _ _ (Prog_ret _ _) _ => apply sat_ret; exact I
  | |- sat _ _ (if ?b then _ else _) _ => destruct b
  | |- sat _ _ (match ?x with _ => _ end) _ => destruct x
  | |- sat _ _ (let '(_, _) := ?x in _) _ => destruct x
  end.

Ltac sat_calls :=
  autounfold with sandbox_unfold;
  repeat first [ sat_calls_step | solve [eauto with sat_loops] ].

Create HintDb sat_loops.

Section LoopCalls.
Variable os : OS.
Variable Pc : SysCall → Prop.

Lemma mkdirRecursive_loop_calls mode cur tokens :
  (∀ p, Pc (CExists p)) → (∀ p, Pc (CMkdir p mode)) →
  sat os (calls_only Pc) (Syscall.mkdirRecursive_loop mode cur tokens) (λ _, True).
Proof.
  intros He Hm. revert cur. induction tokens as [|tok rest IH]; intros cur; simpl.
  - sat_calls.
  - sat_calls; try apply IH.
Qed.

Lemma setupMounts_loop_calls root dirs :
  (∀ p, Pc (CExists p)) → (∀ p, Pc (CMkdir p 493)) → (∀ p, Pc (CIsDirectory p)) →
  sat os (calls_only Pc) (RootFS.setupMounts_loop root dirs) (λ _, True).
Proof.
  intros He Hm Hd. induction dirs as [|d rest IH]; simpl.
  - sat_calls.
  - sat_calls; try first [apply mkdirRecursive_loop_calls; assumption | apply IH].
Qed.

Lemma allow_loop_calls calls :
  (∀ n, Pc (CSeccompResolveName n)) → (∀ a n, Pc (CSeccompRuleAdd a n)) →
  sat os (calls_only Pc) (Seccomp.allow_loop calls) (λ _, True).
Proof.
  intros Hr Ha. induction calls as [|c rest IH]; simpl; sat_calls; try apply IH.
Qed.

Lemma resolve_loop_calls calls :
  (∀ n, Pc (CSeccompResolveName n)) →
  sat os (calls_only Pc) (Seccomp.resolve_loop calls) (λ _, True).
Proof.
  intros Hr. induction calls as [|c rest IH]; simpl; sat_calls; try apply IH.
Qed.

Lemma ambient_loop_calls caps amb :
  (∀ c, Pc (CCapUpdateAmbient c)) →
  sat os (calls_only Pc) (Caps.ambient_loop caps amb) (λ _, True).
Proof.
  intros Hc. revert amb. induction caps as [|c rest IH]; intros amb; simpl.
  - sat_calls.
  - sat_calls; try apply IH.
Qed.

Lemma mounts_cleanup_loop_calls infos :
  (∀ p f, Pc (CUmount2 p f)) →
  sat os (calls_only Pc) (Mounts.cleanup_loop infos) (λ _, True).
Proof.
  intros Hu. induction infos as [|i rest IH]; simpl; sat_calls; try apply IH.
Qed.
End LoopCalls.

#[local] Hint Resolve mkdirRecursive_loop_calls setupMounts_loop_calls allow_loop_calls
  resolve_loop_calls ambient_loop_calls mounts_cleanup_loop_calls : sat_loops.



#[local] Hint Unfold
  Namespaces.initialize Namespaces.prepareChild Namespaces.applyChild
  Namespaces.applyUserNamespace Namespaces.cleanup
  Cgroups.initialize Cgroups.prepareChild Cgroups.applyChild Cgroups.cleanup
  Cgroups.createCgroup Cgroups.setMemoryLimits Cgroups.setCpuLimits Cgroups.setPidLimits
  RootFS.initialize RootFS.prepareChild RootFS.applyChild RootFS.cleanup
  RootFS.exists_ RootFS.bootstrap RootFS.setupMounts RootFS.doPivotRoot
  Mounts.initialize Mounts.prepareChild Mounts.applyChild Mounts.cleanup
  Mounts.applyBindMount Mounts.ensureMountTarget
  Seccomp.initialize Seccomp.prepareChild Seccomp.applyChild Seccomp.cleanup
  Seccomp.generateDefaultPolicy Seccomp.loadDefaultAllowlist Seccomp.loadProfile
  Seccomp.installFilter
  Caps.initialize Caps.prepareChild Caps.applyChild Caps.cleanup Caps.set_flag
  AIAgent.initialize AIAgent.prepareChild AIAgent.applyChild AIAgent.cleanup
  AIAgent.getApiKey : sandbox_unfold.

Lemma mounts_applyChild_loop_calls os (Pc : SysCall → Prop) todo m :
  (∀ p, Pc (CExists p)) → (∀ p, Pc (CMkdir p 493)) →
  (∀ a b c d e, Pc (CMount a b c d e)) →
  sat os (calls_only Pc) (Mounts.applyChild_loop todo m) (λ _, True).
Proof.
  intros He Hm Hmo. revert m. induction todo as [|bm rest IH]; intros m; simpl.
  - sat_calls.
  - sat_calls; try apply IH.
Qed.

#[local] Hint Resolve mounts_applyChild_loop_calls : sat_loops.

Ltac sat_loop :=
  first [ apply mkdirRecursive_loop_calls | apply setupMounts_loop_calls
        | apply allow_loop_calls | apply resolve_loop_calls
        | apply ambient_loop_calls | apply mounts_cleanup_loop_calls
        | apply mounts_applyChild_loop_calls ];
  intros; simpl; solve_pc.

Ltac sat_builtin :=
  intros os st config pid; split; [|split; [|split]]; simpl;
  autounfold with sandbox_unfold;
  repeat first [ sat_calls_step | sat_loop ].

Lemma Namespaces_calls : vt_calls made_call Namespaces.vtable.
Proof. sat_builtin. Qed.

Lemma Cgroups_calls : vt_calls made_call Cgroups.vtable.
Proof. sat_builtin. Qed.

Lemma RootFS_calls : vt_calls made_call RootFS.vtable.
Proof. sat_builtin. Qed.

Lemma Mounts_calls : vt_calls made_call Mounts.vtable.
Proof. sat_builtin. Qed.

Lemma Seccomp_calls : vt_calls made_call Seccomp.vtable.
Proof. sat_builtin. Qed.

Lemma Caps_calls : vt_calls made_call Caps.vtable.
Proof. sat_builtin. Qed.

Lemma AIAgent_calls : vt_calls made_call AIAgent.vtable.
Proof. sat_builtin. Qed.

(** ** Which calls a run makes *)


Lemma eng_calls_only_flat Pc (t : list EngEvent) :
  Forall (eng_calls_only Pc) t → Forall (calls_only Pc) (flat t).
Proof.
  unfold flat. induction 1 as [|e t He _ IH]; simpl; [constructor|].
  apply Forall_app. split; assumption.
Qed.


Lemma map_find_In {V} k (v : V) m : map_find k m = Some v → (k, v) ∈ m.
Proof.
  induction m as [|[k' v'] m IH]; simpl; [discriminate|].
  destruct (String.eqb_spec k k') as [->|Hne]; intros Hf.
  - injection Hf as ->. left.
  - right. auto.
Qed.

Lemma map_insert_Forall_kv {V} (Q : string * V → Prop) k v m :
  Q (k, v) → Forall Q m → Forall Q (map_insert k v m).
Proof.
  intros Hk. induction 1 as [|[k' v'] m Hh Ht IH]; simpl.
  - repeat constructor. exact Hk.
  - destruct (String.compare k k'); repeat constructor; auto.
Qed.


Lemma same_engine_refl mgr : same_engine mgr mgr.
Proof. destruct mgr; reflexivity. Qed.

Lemma same_engine_trans a b c : same_engine a b → same_engine b c → same_engine a c.
Proof. unfold same_engine. intros -> ->. reflexivity. Qed.

Section EngineCalls.
Variable os : OS.
Variable Pc : SysCall → Prop.
Hypothesis engine_ok : ∀ c, engine_call c → Pc c.


Lemma dispatch_calls ph n hook mgr :
  registry_calls Pc (modules_ mgr) → hook_calls os Pc hook →
  sat os (eng_calls_only Pc) (dispatch ph n hook mgr) (registry_post Pc mgr).
Proof.
  intros Hreg Hhook. unfold dispatch.
  destruct (map_find n (modules_ mgr)) as [module|] eqn:Hfind.
  - assert (module_calls Pc module) as Hmod.
    { apply map_find_In in Hfind.
      unfold registry_calls in Hreg. rewrite Forall_forall in Hreg.
      apply (Hreg (n, module)). exact Hfind. }
    intros h. simpl.
    destruct (Hhook _ (mod_vt module) (mod_st module) Hmod h) as [Ht _].
    destruct (runProg (hook (mod_St module) (mod_vt module) (mod_st module)) os h)
      as [[[ok st']|c|] body]; simpl in *.
    + split; [repeat constructor; exact Ht|].
      split; [|reflexivity]. simpl.
      apply map_insert_Forall_kv; [exact Hmod | exact Hreg].
    + split; [repeat constructor; exact Ht | exact I].
    + split; [repeat constructor; exact Ht | exact I].
  - apply sat_ret. split; [exact Hreg | apply same_engine_refl].
Qed.

Lemma same_engine_config a b : same_engine a b → config_ b = config_ a.
Proof. intros ->. reflexivity. Qed.

Ltac next_mgr Hpost :=
  destruct Hpost as [Hreg' Hsame]; simpl in Hreg', Hsame.

Lemma initializeModules_loop_calls todo mgr :
  registry_calls Pc (modules_ mgr) →
  sat os (eng_calls_only Pc) (initializeModules_loop todo mgr) (registry_post Pc mgr).
Proof.
  revert mgr. induction todo as [|n rest IH]; intros mgr Hreg; simpl.
  - apply sat_ret. split; [exact Hreg | apply same_engine_refl].
  - eapply sat_bind.
    + apply dispatch_calls; [exact Hreg|].
      intros St vt st Hvt. apply Hvt. exact 0.
    + intros [ok mgr1] [Hreg1 Hsame1]. simpl in *.
      destruct ok; simpl.
      * eapply sat_weaken; [apply IH; exact Hreg1|].
        intros [ok2 mgr2] [Hreg2 Hsame2]. split; [exact Hreg2|].
        eapply same_engine_trans; eauto.
      * apply sat_ret. split; assumption.
Qed.

Lemma prepareChildProcess_loop_calls todo mgr :
  registry_calls Pc (modules_ mgr) →
  sat os (eng_calls_only Pc) (prepareChildProcess_loop todo mgr) (registry_post Pc mgr).
Proof.
  revert mgr. induction todo as [|n rest IH]; intros mgr Hreg; simpl.
  - apply sat_ret. split; [exact Hreg | apply same_engine_refl].
  - eapply sat_bind.
    + apply dispatch_calls; [exact Hreg|].
      intros St vt st Hvt. apply Hvt.
    + intros [ok mgr1] [Hreg1 Hsame1]. simpl in *.
      destruct ok; simpl.
      * eapply sat_weaken; [apply IH; exact Hreg1|].
        intros [ok2 mgr2] [Hreg2 Hsame2]. split; [exact Hreg2|].
        eapply same_engine_trans; eauto.
      * apply sat_ret. split; assumption.
Qed.

Lemma execute_calls config :
  sat os (eng_calls_only Pc) (execute config) (λ _, True).
Proof.
  unfold execute. eapply (sat_bind _ _ _ _ (λ _, True)).
  - apply sat_lift, sat_exec_call; [|auto].
    intros r. repeat constructor. apply engine_ok. exact I.
  - intros _ _. apply sat_ret. exact I.
Qed.

Lemma executeChild_loop_calls todo mgr :
  registry_calls Pc (modules_ mgr) →
  sat os (eng_calls_only Pc) (executeChild_loop todo mgr) (λ _, True).
Proof.
  revert mgr. induction todo as [|n rest IH]; intros mgr Hreg; simpl.
  - apply execute_calls.
  - eapply sat_bind.
    + apply dispatch_calls; [exact Hreg|].
      intros St vt st Hvt. apply Hvt. exact 0.
    + intros [ok mgr1] [Hreg1 Hsame1]. simpl in *.
      destruct ok; simpl; [apply IH; exact Hreg1 | apply sat_ret; exact I].
Qed.

Lemma cleanupModules_loop_calls todo acc mgr :
  registry_calls Pc (modules_ mgr) →
  sat os (eng_calls_only Pc) (cleanupModules_loop todo acc mgr) (registry_post Pc mgr).
Proof.
  revert acc mgr. induction todo as [|n rest IH]; intros acc mgr Hreg; simpl.
  - apply sat_ret. split; [exact Hreg | apply same_engine_refl].
  - eapply sat_bind.
    + apply dispatch_calls; [exact Hreg|].
      intros St vt st Hvt. apply (Hvt os st (config_ mgr) 0).
    + intros [ok mgr1] [Hreg1 Hsame1]. simpl in *.
      eapply sat_weaken; [apply IH; exact Hreg1|].
      intros [ok2 mgr2] [Hreg2 Hsame2]. split; [exact Hreg2|].
      eapply same_engine_trans; eauto.
Qed.

Lemma cleanupModules_calls mgr :
  registry_calls Pc (modules_ mgr) →
  sat os (eng_calls_only Pc) (cleanupModules mgr) (λ _, True).
Proof.
  intros Hreg. unfold cleanupModules. eapply sat_bind.
  - apply cleanupModules_loop_calls. exact Hreg.
  - intros [ok mgr1] _. apply sat_ret. exact I.
Qed.

Lemma drain_chunks_calls fd chunks acc :
  Forall (eng_calls_only Pc) (drain_chunks fd chunks acc).2.
Proof.
  assert (∀ r, eng_calls_only Pc (ESys (CRead fd 4095, r))) as Hread.
  { intros r. repeat constructor. apply engine_ok. exact I. }
  revert acc. induction chunks as [|c rest IH]; intros acc; simpl.
  - constructor; [apply Hread | constructor].
  - destruct (string_empty c); simpl; [constructor; [apply Hread | constructor]|].
    specialize (IH (acc +:+ c_str c)).
    destruct (drain_chunks fd rest (acc +:+ c_str c)) as [a t]. simpl in *.
    constructor; [apply Hread | exact IH].
Qed.

Lemma drain_calls fd : sat os (eng_calls_only Pc) (drain fd) (λ _, True).
Proof.
  intros h. unfold drain. simpl.
  pose proof (drain_chunks_calls fd (pipe_data os) "") as Hd.
  destruct (drain_chunks fd (pipe_data os) "") as [s t]. simpl in *. auto.
Qed.

Lemma ecall_calls c : engine_call c → sat os (eng_calls_only Pc) (ecall c) (λ _, True).
Proof.
  intros Hc. apply sat_ecall; [|auto].
  intros r. repeat constructor. apply engine_ok. exact Hc.
Qed.

(** Every call of a run is one of the engine or of a registered module. *)
Lemma run_calls mgr :
  registry_calls Pc (modules_ mgr) →
  sat os (eng_calls_only Pc) (run mgr) (λ _, True).
Proof.
  intros Hreg. unfold run. eapply sat_bind.
  - apply initializeModules_loop_calls.
    unfold resolveDependencies. destruct (resolve_order _); exact Hreg.
  - intros [ok mgr1] [Hreg1 _]. simpl in Hreg1.
    destruct ok; simpl; [|apply sat_ret; exact I].
    eapply (sat_bind _ _ _ _ (λ _, True)); [apply ecall_calls; exact I|].
    intros p _. destruct (rv p <? 0); [apply sat_ret; exact I|].
    eapply (sat_bind _ _ _ _ (λ _, True)); [apply ecall_calls; exact I|].
    intros f _. destruct (rv f <? 0).
    { repeat (eapply (sat_bind _ _ _ _ (λ _, True));
              [apply ecall_calls; exact I | intros ? _]).
      apply sat_ret. exact I. }
    destruct (rv f =? 0).
    { repeat (eapply (sat_bind _ _ _ _ (λ _, True));
              [apply ecall_calls; exact I | intros ? _]).
      eapply (sat_bind _ _ _ _ (λ _, True)).
      - apply executeChild_loop_calls. exact Hreg1.
      - intros c _. apply sat_exit. }
    eapply (sat_bind _ _ _ _ (λ _, True)); [apply ecall_calls; exact I|].
    intros _ _. eapply sat_bind.
    { apply prepareChildProcess_loop_calls. exact Hreg1. }
    intros [ok2 mgr2] [Hreg2 _]. simpl in Hreg2.
    eapply (sat_bind _ _ _ _ (λ _, True)).
    { destruct ok2; simpl; [apply sat_ret; exact I|].
      eapply (sat_bind _ _ _ _ (λ _, True)); [apply ecall_calls; exact I|].
      intros _ _. apply sat_ret. exact I. }
    intros _ _.
    eapply (sat_bind _ _ _ _ (λ _, True)); [apply ecall_calls; exact I|].
    intros w _.
    eapply (sat_bind _ _ _ _ (λ _, True)); [apply drain_calls|].
    intros captured _.
    eapply (sat_bind _ _ _ _ (λ _, True)); [apply ecall_calls; exact I|].
    intros _ _.
    eapply (sat_bind _ _ _ _ (λ _, True)).
    { apply cleanupModules_calls. exact Hreg2. }
    intros [ok3 mgr3] _. apply sat_ret. exact I.
Qed.
End EngineCalls.

Lemma register_modules m mgr :
  modules_ (register m mgr) = map_insert (module_name m) m (modules_ mgr).
Proof. reflexivity. Qed.

Lemma default_modules config :
  modules_ (default_manager config) =
  [("ai-agent", MkModule AIAgent.new); ("caps", MkModule Caps.new);
   ("cgroups", MkModule (Cgroups.new "/sys/fs/cgroup"));
   ("mounts", MkModule Mounts.new); ("namespaces", MkModule Namespaces.new);
   ("rootfs", MkModule RootFS.new); ("seccomp", MkModule Seccomp.new)].
Proof.
  unfold default_manager, registerDefaultModules. rewrite !register_modules.
  change (modules_ (new_manager config)) with (@nil (string * ModuleObj)).
  change (module_name (MkModule AIAgent.new)) with "ai-agent".
  change (module_name (MkModule Caps.new)) with "caps".
  change (module_name (MkModule (Cgroups.new "/sys/fs/cgroup"))) with "cgroups".
  change (module_name (MkModule Mounts.new)) with "mounts".
  change (module_name (MkModule Namespaces.new)) with "namespaces".
  change (module_name (MkModule RootFS.new)) with "rootfs".
  change (module_name (MkModule Seccomp.new)) with "seccomp".
  generalize (MkModule AIAgent.new) (MkModule Caps.new)
    (MkModule (Cgroups.new "/sys/fs/cgroup")) (MkModule Mounts.new)
    (MkModule Namespaces.new) (MkModule RootFS.new) (MkModule Seccomp.new).
  intros. reflexivity.
Qed.

Lemma default_registry_calls config :
  registry_calls made_call (modules_ (default_manager config)).
Proof.
  rewrite default_modules. unfold registry_calls.
  constructor; [apply AIAgent_calls|].
  constructor; [apply Caps_calls|].
  constructor; [apply Cgroups_calls|].
  constructor; [apply Mounts_calls|].
  constructor; [apply Namespaces_calls|].
  constructor; [apply RootFS_calls|].
  constructor; [apply Seccomp_calls|].
  constructor.
Qed.

(** No run of the default modules calls [clone], [unshare],
    [prctl(PR_SET_NO_NEW_PRIVS)] or [dup2], whatever the configuration and
    the environment. *)
Lemma default_run_calls config os h :
  Forall (calls_only made_call)
    (flat (runProg (run (default_manager config)) os h).2).
Proof.
  apply eng_calls_only_flat.
  apply (run_calls os made_call); [|apply default_registry_calls].
  intros c. destruct c; simpl; tauto.
Qed.

(** ** Creation of the child *)

Lemma made_call_not_clone c : made_call c → is_clone c = false.
Proof. destruct c; simpl; tauto. Qed.

Lemma made_call_not_dup2 c : made_call c → is_dup2 c = false.
Proof. destruct c; simpl; tauto. Qed.

Lemma made_call_not_nnp c : made_call c → is_no_new_privs c = false.
Proof. destruct c; simpl; tauto. Qed.

(** C2 (the code departs from the claim).  Whatever the configuration
    and the environment, a run of the default modules never calls [clone]
    or [unshare]: the requested namespaces are not created.  With the
    default configuration, which requests six namespaces, the engine's own
    calls in the parent are [pipe], [fork], [close], [waitpid], [read],
    [close]. *)
Theorem run_forks_without_namespaces :
  (∀ config os h,
     Forall (λ e, is_clone e.1 = false)
       (flat (runProg (run (default_manager config)) os h).2)) ∧
  engine_calls (runProg (run (default_manager createDefaultConfig)) (os_ok 42 []) []).2
  = [CPipe; CFork; CClose 4; CWaitpid 42 0; CRead 3 4095; CClose 3].
Proof.
  split.
  - intros config os h.
    eapply Forall_impl; [apply default_run_calls|].
    intros e He. apply made_call_not_clone. exact He.
  - vm_compute. reflexivity.
Qed.

(** ** Capture of the output *)

(** C6 (the code departs from the claim).  Whatever the configuration
    and the environment, a run of the default modules never calls [dup2].
    In the child of the default run the engine closes the read end of the
    pipe, sets the process title and executes the command; descriptors 1
    and 2 still refer to the streams inherited from the parent, not to the
    pipe, so what the command writes to them does not reach the result.
    What the parent does read from the pipe is appended as a C string: a
    chunk is cut at its first NUL. *)
Theorem child_stdout_not_redirected :
  (∀ config os h,
     Forall (λ e, is_dup2 e.1 = false)
       (flat (runProg (run (default_manager config)) os h).2)) ∧
  (let tr := (runProg (run (default_manager createDefaultConfig)) (os_ok 0 []) []).2 in
   engine_calls tr = [CPipe; CFork; CClose 3; CPrctlSetName "sandbox-default";
                      CExecve "/bin/bash" ["/bin/bash"]] ∧
   fds_after (child_fds 3 4) (after_fork tr) 1 = Some (Inherited 1) ∧
   fds_after (child_fds 3 4) (after_fork tr) 2 = Some (Inherited 2) ∧
   fds_after (child_fds 3 4) (after_fork tr) 4 = Some PipeWrite) ∧
  outcome_map (λ r, stdout r.1)
    (runProg (run (default_manager createDefaultConfig))
       (os_ok 42 [String "a" (String Ascii.zero "b"); "c"]) []).1 = Val "ac".
Proof.
  split; [|split].
  - intros config os h.
    eapply Forall_impl; [apply default_run_calls|].
    intros e He. apply made_call_not_dup2. exact He.
  - vm_compute. repeat split; reflexivity.
  - vm_compute. reflexivity.
Qed.

(** ** Symbolic execution of a program in a hypothesis *)

Lemma run_call c os h : runProg (call c) os h = (Val (answer os h c), [(c, answer os h c)]).
Proof. reflexivity. Qed.

Lemma run_exit {E A} code os h : runProg (@prog_exit E A code) os h = (Exited code, []).
Proof. reflexivity. Qed.

#[local] Arguments Syscall.mkdirRecursive_loop : simpl never.
#[local] Arguments RootFS.setupMounts_loop : simpl never.
#[local] Arguments Seccomp.allow_loop : simpl never.
#[local] Arguments Seccomp.resolve_loop : simpl never.
#[local] Arguments Caps.ambient_loop : simpl never.
#[local] Arguments Mounts.applyChild_loop : simpl never.
#[local] Arguments Mounts.cleanup_loop : simpl never.

(** One step: expose the next bind, call or branch of the program in [H]. *)
Ltac run_inv_step H :=
  first
    [ rewrite run_ret in H
    | rewrite run_call in H;
      match type of H with
      | context [answer ?os ?h ?c] =>
          let r := fresh "r" in set (r := answer os h c) in H; clearbody r
      end
    | rewrite run_exit in H
    | rewrite run_bind in H
    | progress cbv beta iota in H
    | progress cbn [negb andb orb] in H
    | match type of H with
      | context [runProg (if ?b then _ else _) _ _] =>
          let Hb := fresh "Hb" in destruct b eqn:Hb
      | context [match runProg ?m ?os ?h with _ => _ end] =>
          let Hr := fresh "Hr" in
          destruct (runProg m os h) as [[?|?|] ?] eqn:Hr
      | context [let '(_, _) := runProg ?m ?os ?h in _] =>
          let Hr := fresh "Hr" in
          destruct (runProg m os h) as [[?|?|] ?] eqn:Hr
      end ].

Ltac run_inv H :=
  autounfold with sandbox_unfold in H;
  repeat run_inv_step H;
  try discriminate H.

(** A program whose calls all fail a test contributes nothing to the
    calls that pass it. *)
Lemma sat_filter_nil {A} (f : SysCall → bool) os (m : Sys A) h o t :
  sat os (calls_only (λ c, f c = false)) m (λ _, True) →
  runProg m os h = (o, t) → List.filter f (calls_of t) = [].
Proof.
  intros Hs Hr. destruct (Hs h) as [Ht _]. rewrite Hr in Ht. simpl in Ht.
  clear Hr. induction Ht as [|e t He _ IH]; [reflexivity|].
  simpl. unfold calls_only in He. rewrite He. exact IH.
Qed.

Lemma calls_of_app t1 t2 : calls_of (t1 ++ t2) = calls_of t1 ++ calls_of t2.
Proof. apply map_app. Qed.

(** ** The root filesystem *)

(** What [initialize] leaves in the fields that [applyChild] reads. *)
Lemma RootFS_initialize_fields config m os h ok m' t :
  runProg (RootFS.initialize config m) os h = (Val (ok, m'), t) →
  RootFS.rootPath_ m' = rootfs_path (sandbox config) ∧
  RootFS.oldRootPath_ m' = "/oldroot".
Proof.
  intros H. run_inv H; injection H as <- <- <-; split; reflexivity.
Qed.

(** C5, as amended.  When the RootFS module, initialised for a
    configuration, succeeds in its child-side setup, the calls of that
    setup that touch the mount table or the root are, in this order and
    with nothing in between: the recursive bind mount of [rootfs_path] onto
    itself, [pivot_root(rootfs_path, rootfs_path/oldroot)], [chdir("/")],
    [umount2("/oldroot", MNT_DETACH)], then the mounts of [/proc], [/sys]
    and [/dev].  No mount marks the tree private and the old root is named
    [oldroot]. *)
Theorem rootfs_pivot_sequence :
  ∀ config m0 os h0 m1 t0 h m2 t,
    runProg (RootFS.initialize config m0) os h0 = (Val (true, m1), t0) →
    runProg (RootFS.applyChild config m1) os h = (Val (true, m2), t) →
    let rootfs := rootfs_path (sandbox config) in
    List.filter is_topology (calls_of t) =
    [CMount rootfs rootfs "" (Z.lor K.MS_BIND K.MS_REC) None;
     CPivotRoot rootfs (rootfs +:+ "/oldroot");
     CChdir "/";
     CUmount2 "/oldroot" K.MNT_DETACH;
     CMount "proc" "/proc" "proc" (Z.lor (Z.lor K.MS_NOSUID K.MS_NOEXEC) K.MS_NODEV) None;
     CMount "sysfs" "/sys" "sysfs" (Z.lor (Z.lor K.MS_NOSUID K.MS_NOEXEC) K.MS_NODEV) None;
     CMount "tmpfs" "/dev" "tmpfs" (Z.lor K.MS_NOSUID K.MS_STRICTATIME) (Some "mode=755")].
Proof.
  intros config m0 os h0 m1 t0 h m2 t Hinit Happly rootfs.
  apply RootFS_initialize_fields in Hinit as [Hroot Hold].
  run_inv Happly.
  injection Happly as <- <-.
  rewrite !calls_of_app, !List.filter_app.
  repeat match goal with
  | Hs : runProg (RootFS.setupMounts_loop _ _) _ _ = _ |- _ =>
      rewrite (sat_filter_nil is_topology _ _ _ _ _
                 (setupMounts_loop_calls _ _ _ _ (λ _, eq_refl) (λ _, eq_refl)
                    (λ _, eq_refl)) Hs); clear Hs
  | Hs : runProg (Syscall.mkdirRecursive_loop _ _ _) _ _ = _ |- _ =>
      rewrite (sat_filter_nil is_topology _ _ _ _ _
                 (mkdirRecursive_loop_calls _ _ _ _ _ (λ _, eq_refl) (λ _, eq_refl))
                 Hs); clear Hs
  end.
  rewrite Hroot, Hold. reflexivity.
Qed.

Lemma rootfs_pivot_sequence_witness :
  let os := os_ok 0 [] in
  let run_init := runProg (RootFS.initialize createDefaultConfig RootFS.new) os [] in
  let run_apply := runProg (RootFS.applyChild createDefaultConfig rootfs_initialized) os [] in
  run_init = (Val (true, rootfs_initialized), run_init.2) ∧
  run_apply = (Val (true, RootFS.set_state ModuleState.RUNNING rootfs_initialized),
               run_apply.2) ∧
  List.filter is_topology (calls_of run_apply.2) =
  [CMount "/var/lib/sandbox/rootfs/ubuntu_focal" "/var/lib/sandbox/rootfs/ubuntu_focal"
     "" 20480 None;
   CPivotRoot "/var/lib/sandbox/rootfs/ubuntu_focal"
     "/var/lib/sandbox/rootfs/ubuntu_focal/oldroot";
   CChdir "/"; CUmount2 "/oldroot" 2;
   CMount "proc" "/proc" "proc" 14 None; CMount "sysfs" "/sys" "sysfs" 14 None;
   CMount "tmpfs" "/dev" "tmpfs" 16777218 (Some "mode=755")].
Proof.
  intros os run_init run_apply.
  assert (run_init = (Val (true, rootfs_initialized), run_init.2)) as H1
    by (vm_compute; reflexivity).
  assert (run_apply = (Val (true, RootFS.set_state ModuleState.RUNNING rootfs_initialized),
                       run_apply.2)) as H2
    by (vm_compute; reflexivity).
  split; [exact H1|]. split; [exact H2|].
  exact (rootfs_pivot_sequence createDefaultConfig RootFS.new os [] rootfs_initialized
           run_init.2 [] _ run_apply.2 H1 H2).
Defined.

Lemma sublist_elem {A} (l1 l2 : list A) x : l1 `sublist_of` l2 → x ∈ l1 → x ∈ l2.
Proof.
  induction 1 as [|y l1 l2 _ IH|y l1 l2 _ IH]; intros Hx.
  - exact Hx.
  - apply elem_of_cons in Hx as [->|Hx]; [left | right; auto].
  - right. auto.
Qed.

(** C5 as stated fails: in the child of the default run every step of the
    RootFS setup succeeds, and the sequence of the specification (with the
    private mount and the [.oldroot] directory) is not in the trace. *)
Lemma rootfs_pivot_counterexample :
  let tr := (runProg (run (default_manager createDefaultConfig)) (os_ok 0 []) []).2 in
  "rootfs" ∈ hook_names PhApplyChild tr ∧
  ¬ (spec_pivot_sequence "/var/lib/sandbox/rootfs/ubuntu_focal"
       `sublist_of` calls_of (flat tr)).
Proof.
  intros tr. split.
  - vm_compute. repeat first [left | right].
  - intros Hs.
    assert (CPivotRoot "/var/lib/sandbox/rootfs/ubuntu_focal"
              "/var/lib/sandbox/rootfs/ubuntu_focal/.oldroot" ∈ calls_of (flat tr)) as Hin.
    { eapply sublist_elem; [exact Hs|]. unfold spec_pivot_sequence. set_solver. }
    apply (bool_decide_pack _) in Hin. vm_compute in Hin. exact Hin.
Qed.

(** ** The swap limit of the cgroup *)

Lemma calls_of_cons e t : calls_of (e :: t) = e.1 :: calls_of t.
Proof. reflexivity. Qed.

Lemma calls_of_nil : calls_of [] = [].
Proof. reflexivity. Qed.

Create Rewrite HintDb calls.
#[local] Hint Rewrite calls_of_app calls_of_cons calls_of_nil : calls.









(** ** Seccomp *)

(** A disabled module does nothing in the child. *)
Lemma seccomp_disabled_applyChild config m os h :
  Seccomp.enabled_ m = false →
  runProg (Seccomp.applyChild config m) os h = (Val (true, m), []).
Proof. intros He. unfold Seccomp.applyChild. rewrite He. reflexivity. Qed.

(** An enabled module that succeeds in the child ends with the
    installation of its filter. *)
Lemma seccomp_enabled_applyChild config m os h m' t :
  Seccomp.enabled_ m = true →
  runProg (Seccomp.applyChild config m) os h = (Val (true, m'), t) →
  last (calls_of t) = Some (CPrctlSetSeccomp K.SECCOMP_MODE_FILTER (Seccomp.filterBlob_ m')).
Proof.
  intros He H. unfold Seccomp.applyChild in H. rewrite He in H.
  run_inv H; injection H as <- <-;
    autorewrite with calls;
    first [ reflexivity
          | rewrite ?app_nil_r, ?app_assoc, ?app_comm_cons; apply last_snoc ].
Qed.

(** C7, as amended.  [Seccomp::initialize] disables the module exactly
    when both the policy selector and the profile path are empty.  The
    selectors ["default"], ["strict"], ["log"] and ["allow"] select ERRNO,
    KILL, LOG and ALLOW.  The selector ["off"] is not recognised: the
    module stays enabled and keeps the default action it had (ERRNO for a
    new object).  A disabled module does nothing in the child; an enabled
    one, ["off"] included, installs its filter there. *)
Theorem seccomp_policy_selection :
  ∀ config m os h ok m' t,
    runProg (Seccomp.initialize config m) os h = (Val (ok, m'), t) →
    let policy := seccomp_policy (security config) in
    let profile := seccomp_profile_path (security config) in
    Seccomp.enabled_ m' = negb (string_empty policy) || negb (string_empty profile) ∧
    (Seccomp.enabled_ m' = true →
     Seccomp.defaultAction_ m' = selected_action policy (Seccomp.defaultAction_ m)) ∧
    selected_action "default" (Seccomp.defaultAction_ m) = Seccomp.ACTION_ERRNO ∧
    selected_action "strict" (Seccomp.defaultAction_ m) = Seccomp.ACTION_KILL ∧
    selected_action "log" (Seccomp.defaultAction_ m) = Seccomp.ACTION_LOG ∧
    selected_action "allow" (Seccomp.defaultAction_ m) = Seccomp.ACTION_ALLOW ∧
    selected_action "off" (Seccomp.defaultAction_ m) = Seccomp.defaultAction_ m ∧
    (policy = "off" → Seccomp.enabled_ m' = true) ∧
    (Seccomp.enabled_ m' = false →
     t = [] ∧ ∀ h', runProg (Seccomp.applyChild config m') os h' = (Val (true, m'), [])) ∧
    (Seccomp.enabled_ m' = true →
     ∀ h' m'' t', runProg (Seccomp.applyChild config m') os h' = (Val (true, m''), t') →
       last (calls_of t') =
       Some (CPrctlSetSeccomp K.SECCOMP_MODE_FILTER (Seccomp.filterBlob_ m''))).
Proof.
  intros config m os h ok m' t H policy profile.
  assert (Seccomp.enabled_ m' = negb (string_empty policy) || negb (string_empty profile)
          ∧ (Seccomp.enabled_ m' = true →
             Seccomp.defaultAction_ m' = selected_action policy (Seccomp.defaultAction_ m))
          ∧ (Seccomp.enabled_ m' = false → t = [])) as (Hen & Hact & Hnil).
  { subst policy profile. run_inv H; injection H as <- <- <-.
    all: repeat match goal with
         | Hb : negb _ = true |- _ => apply negb_true_iff in Hb
         | Hb : negb _ = false |- _ => apply negb_false_iff in Hb
         end.
    all: unfold selected_action, Seccomp.set_state, Seccomp.set_blob;
      cbn [Seccomp.enabled_ Seccomp.defaultAction_];
      repeat split; intros; first [reflexivity | congruence]. }
  split; [exact Hen|]. split; [exact Hact|].
  do 5 (split; [reflexivity|]).
  split.
  { intros Hoff. rewrite Hen. fold policy. rewrite Hoff. reflexivity. }
  split.
  { intros Hdis. split; [auto|]. intros h'. apply seccomp_disabled_applyChild. exact Hdis. }
  intros Henabled h' m'' t' Happly.
  exact (seccomp_enabled_applyChild _ _ _ _ _ _ Henabled Happly).
Qed.

Lemma seccomp_policy_selection_witness :
  let config := with_policy "off" createDefaultConfig in
  let os := os_ok 0 [] in
  let r := runProg (Seccomp.initialize config Seccomp.new) os [] in
  r = (Val (true, seccomp_off_initialized), r.2) ∧
  Seccomp.enabled_ seccomp_off_initialized = true ∧
  Seccomp.defaultAction_ seccomp_off_initialized = Seccomp.ACTION_ERRNO ∧
  (∀ h' m'' t',
     runProg (Seccomp.applyChild config seccomp_off_initialized) os h' = (Val (true, m''), t') →
     last (calls_of t') =
     Some (CPrctlSetSeccomp K.SECCOMP_MODE_FILTER (Seccomp.filterBlob_ m''))).
Proof.
  intros config os r.
  assert (r = (Val (true, seccomp_off_initialized), r.2)) as H by (vm_compute; reflexivity).
  pose proof (seccomp_policy_selection config Seccomp.new os [] true
                seccomp_off_initialized r.2 H) as (_ & Hact & _ & _ & _ & _ & _ & Hoff & _ & Hinst).
  split; [exact H|]. split; [apply Hoff; reflexivity|].
  split; [apply Hact; reflexivity|].
  apply Hinst. reflexivity.
Defined.

(** C7 as stated fails for ["off"]: [initialize] builds and exports a
    filter with the default action ERRNO, the module is enabled, and in the
    child [applyChild] installs the filter. *)
Lemma seccomp_off_counterexample :
  let config := with_policy "off" createDefaultConfig in
  let os := os_ok 0 [] in
  let r := runProg (Seccomp.initialize config Seccomp.new) os [] in
  r.1 = Val (true, seccomp_off_initialized) ∧
  Seccomp.enabled_ seccomp_off_initialized = true ∧
  List.filter is_filter_build (calls_of r.2) =
    [CSeccompInit Seccomp.ACTION_ERRNO; CSeccompExportBpf false; CSeccompExportBpf true] ∧
  calls_of (runProg (Seccomp.applyChild config seccomp_off_initialized) os []).2 =
    [CPrctlSetSeccomp K.SECCOMP_MODE_FILTER "BLOB"].
Proof. vm_compute. repeat split; reflexivity. Qed.

(** C3, as amended.  When the enabled seccomp module succeeds in the
    child, its last call is [prctl(PR_SET_SECCOMP, SECCOMP_MODE_FILTER,
    filter)], and it has made no [prctl(PR_SET_NO_NEW_PRIVS)] before; nor
    does any other part of a run of the default modules make that call. *)
Theorem seccomp_install_without_no_new_privs :
  ∀ config m os h m' t,
    Seccomp.enabled_ m = true →
    runProg (Seccomp.applyChild config m) os h = (Val (true, m'), t) →
    last (calls_of t) =
      Some (CPrctlSetSeccomp K.SECCOMP_MODE_FILTER (Seccomp.filterBlob_ m')) ∧
    Forall (λ e, is_no_new_privs e.1 = false) t ∧
    ∀ os' h', Forall (λ e, is_no_new_privs e.1 = false)
                (flat (runProg (run (default_manager config)) os' h').2).
Proof.
  intros config m os h m' t He H. split; [|split].
  - eapply seccomp_enabled_applyChild; eassumption.
  - destruct (Seccomp_calls os m config 0) as (_ & _ & Happly & _).
    destruct (Happly h) as [Ht _]. simpl in Ht.
    change (@applyChild Seccomp.t Seccomp.vtable config m)
      with (Seccomp.applyChild config m) in Ht.
    rewrite H in Ht. simpl in Ht.
    eapply Forall_impl; [exact Ht|].
    intros e Hm. apply made_call_not_nnp. exact Hm.
  - intros os' h'.
    eapply Forall_impl; [apply default_run_calls|].
    intros e Hm. apply made_call_not_nnp. exact Hm.
Qed.

Lemma seccomp_install_without_no_new_privs_witness :
  let r := runProg (Seccomp.applyChild createDefaultConfig seccomp_off_initialized)
             (os_ok 0 []) [] in
  Seccomp.enabled_ seccomp_off_initialized = true ∧
  r = (Val (true, Seccomp.set_state ModuleState.RUNNING seccomp_off_initialized), r.2) ∧
  last (calls_of r.2) = Some (CPrctlSetSeccomp K.SECCOMP_MODE_FILTER "BLOB") ∧
  Forall (λ e, is_no_new_privs e.1 = false) r.2.
Proof.
  intros r.
  assert (r = (Val (true, Seccomp.set_state ModuleState.RUNNING seccomp_off_initialized),
               r.2)) as H by (vm_compute; reflexivity).
  pose proof (seccomp_install_without_no_new_privs createDefaultConfig
                seccomp_off_initialized (os_ok 0 []) [] _ r.2 eq_refl H) as (Hl & Hn & _).
  split; [reflexivity|]. split; [exact H|]. split; [exact Hl | exact Hn].
Defined.

(** C3 as stated fails: in the child of the default run the filter is
    installed and no call sets NO_NEW_PRIVS. *)
Lemma seccomp_no_new_privs_counterexample :
  let calls := calls_of (flat (runProg (run (default_manager createDefaultConfig))
                                 (os_ok 0 []) []).2) in
  List.filter is_set_seccomp calls = [CPrctlSetSeccomp K.SECCOMP_MODE_FILTER "BLOB"] ∧
  List.filter is_no_new_privs calls = [].
Proof. vm_compute. split; reflexivity. Qed.

(** ** The result of a run *)

Lemma sat_trivial {E A} os (m : Prog E A) : sat os (λ _, True) m (λ _, True).
Proof.
  intros h. split; [apply Forall_forall; auto|]. destruct (runProg m os h).1; exact I.
Qed.

Lemma registry_calls_trivial mods : registry_calls (λ _, True) mods.
Proof.
  apply Forall_forall. intros kv _ os st config pid.
  repeat split; apply sat_trivial.
Qed.

(** The loops over the modules change nothing of the manager but the
    objects of the registry. *)
Lemma initializeModules_loop_same todo mgr os h ok mgr' t :
  runProg (initializeModules_loop todo mgr) os h = (Val (ok, mgr'), t) →
  same_engine mgr mgr'.
Proof.
  intros Hr.
  destruct (initializeModules_loop_calls os (λ _, True) todo mgr
              (registry_calls_trivial _) h) as [_ Hpost].
  rewrite Hr in Hpost. apply Hpost.
Qed.

Lemma prepareChildProcess_loop_same todo mgr os h ok mgr' t :
  runProg (prepareChildProcess_loop todo mgr) os h = (Val (ok, mgr'), t) →
  same_engine mgr mgr'.
Proof.
  intros Hr.
  destruct (prepareChildProcess_loop_calls os (λ _, True) todo mgr
              (registry_calls_trivial _) h) as [_ Hpost].
  rewrite Hr in Hpost. apply Hpost.
Qed.

Lemma cleanupModules_loop_same todo acc mgr os h ok mgr' t :
  runProg (cleanupModules_loop todo acc mgr) os h = (Val (ok, mgr'), t) →
  same_engine mgr mgr'.
Proof.
  intros Hr.
  destruct (cleanupModules_loop_calls os (λ _, True) todo acc mgr
              (registry_calls_trivial _) h) as [_ Hpost].
  rewrite Hr in Hpost. apply Hpost.
Qed.

Lemma same_engine_childPid a b : same_engine a b → childPid_ b = childPid_ a.
Proof. intros ->. reflexivity. Qed.

Lemma same_engine_pipeFd a b : same_engine a b → pipeFd_ b = pipeFd_ a.
Proof. intros ->. reflexivity. Qed.

Lemma same_engine_order a b : same_engine a b → executionOrder_ b = executionOrder_ a.
Proof. intros ->. reflexivity. Qed.

Lemma same_engine_state a b : same_engine a b → state_ b = state_ a.
Proof. intros ->. reflexivity. Qed.

Lemma WIFSIGNALED_not_exited st : WIFSIGNALED st = true → WIFEXITED st = false.
Proof.
  unfold WIFSIGNALED, WIFEXITED, WTERMSIG.
  destruct (Z.land st 127 =? 0) eqn:E; [|reflexivity].
  apply Z.eqb_eq in E. rewrite E. vm_compute. discriminate.
Qed.

(** The interpretation of the status of the awaited child. *)
Lemma interpret_status_childPid w c st base :
  childPid (interpret_status w c st base) = childPid base.
Proof.
  unfold interpret_status.
  destruct (w =? c), (WIFEXITED st), (WIFSIGNALED st); reflexivity.
Qed.

Lemma interpret_status_spec pid st base :
  success base = false →
  let res := interpret_status pid pid st base in
  (success res = true ↔ WIFEXITED st = true ∧ WEXITSTATUS st = 0) ∧
  (WIFEXITED st = true → exitCode res = WEXITSTATUS st ∧
                         success res = (WEXITSTATUS st =? 0)) ∧
  (WIFSIGNALED st = true → success res = false ∧ exitCode res = - WTERMSIG st) ∧
  childPid res = childPid base.
Proof.
  intros Hbase. unfold interpret_status. rewrite Z.eqb_refl.
  destruct (WIFEXITED st) eqn:He; simpl.
  - split.
    { split.
      - intros Hs. split; [reflexivity | apply Z.eqb_eq; exact Hs].
      - intros [_ Hs]. apply Z.eqb_eq. exact Hs. }
    split; [intros _; split; reflexivity|].
    split; [|reflexivity].
    intros Hsig. apply WIFSIGNALED_not_exited in Hsig. congruence.
  - destruct (WIFSIGNALED st) eqn:Hs; simpl.
    + split; [split; [discriminate | intros [? _]; discriminate]|].
      split; [discriminate|].
      split; [intros _; split; reflexivity | reflexivity].
    + split; [split; [congruence | intros [? _]; discriminate]|].
      split; [discriminate|].
      split; [discriminate | reflexivity].
Qed.

Lemma run_ecall c os h :
  runProg (ecall c) os h = (Val (answer os h c), [ESys (c, answer os h c)]).
Proof. reflexivity. Qed.

(** ** The events of the loops over the modules *)

Lemma sat_trace {E A} `{Flat E} os (P : E → Prop) (m : Prog E A) Q h o t :
  sat os P m Q → runProg m os h = (o, t) → Forall P t.
Proof. intros Hs Hr. destruct (Hs h) as [Ht _]. rewrite Hr in Ht. exact Ht. Qed.

Lemma dispatch_inv ph n hook mgr os h out t :
  runProg (dispatch ph n hook mgr) os h = (out, t) →
  match map_find n (modules_ mgr) with
  | None => out = Val (true, mgr) ∧ t = []
  | Some module =>
      ∃ body res, t = [EHook ph n body res] ∧
        match out with
        | Val (ok, mgr') =>
            res = Val ok ∧
            ∃ st', mgr' = set_modules
                            (map_insert n (@MkModule _ st' (mod_vt module)) (modules_ mgr))
                            mgr
        | Exited c => res = Exited c
        | Execed => res = Execed
        end
  end.
Proof.
  unfold dispatch. destruct (map_find n (modules_ mgr)) as [module|].
  - simpl.
    destruct (runProg (hook _ _ _) os h) as [[[ok st']|c|] body];
      intros [= <- <-]; eexists _, _; (split; [reflexivity|]); try reflexivity.
    split; [reflexivity | eexists; reflexivity].
  - rewrite run_ret. intros [= <- <-]. auto.
Qed.




Lemma dispatch_events os (P : EngEvent → Prop) ph n hook mgr :
  (∀ body res, P (EHook ph n body res)) →
  sat os P (dispatch ph n hook mgr) (λ _, True).
Proof.
  intros HP h. destruct (runProg (dispatch ph n hook mgr) os h) as [out t] eqn:Hr.
  apply dispatch_inv in Hr. simpl.
  split; [|destruct out; exact I].
  destruct (map_find n (modules_ mgr)) as [module|].
  - destruct Hr as (body & res & -> & _). constructor; [apply HP | constructor].
  - destruct Hr as [_ ->]. constructor.
Qed.

Section PhaseEvents.
Variable os : OS.
Variable P : EngEvent → Prop.

Lemma initializeModules_loop_events todo mgr :
  (∀ n body res, P (EHook PhInitialize n body res)) →
  sat os P (initializeModules_loop todo mgr) (λ _, True).
Proof.
  intros HP. revert mgr. induction todo as [|n rest IH]; intros mgr; simpl.
  - apply sat_ret. exact I.
  - eapply sat_bind; [apply dispatch_events, HP|].
    intros [ok mgr1] _. destruct ok; simpl; [apply IH | apply sat_ret; exact I].
Qed.

Lemma prepareChildProcess_loop_events todo mgr :
  (∀ n body res, P (EHook PhPrepareChild n body res)) →
  sat os P (prepareChildProcess_loop todo mgr) (λ _, True).
Proof.
  intros HP. revert mgr. induction todo as [|n rest IH]; intros mgr; simpl.
  - apply sat_ret. exact I.
  - eapply sat_bind; [apply dispatch_events, HP|].
    intros [ok mgr1] _. destruct ok; simpl; [apply IH | apply sat_ret; exact I].
Qed.

Lemma cleanupModules_loop_events todo acc mgr :
  (∀ n body res, P (EHook PhCleanup n body res)) →
  sat os P (cleanupModules_loop todo acc mgr) (λ _, True).
Proof.
  intros HP. revert acc mgr. induction todo as [|n rest IH]; intros acc mgr; simpl.
  - apply sat_ret. exact I.
  - eapply sat_bind; [apply dispatch_events, HP|].
    intros [ok mgr1] _. apply IH.
Qed.

Lemma drain_chunks_events fd chunks acc :
  (∀ r, P (ESys (CRead fd 4095, r))) → Forall P (drain_chunks fd chunks acc).2.
Proof.
  intros HP. revert acc. induction chunks as [|c rest IH]; intros acc; simpl.
  - constructor; [apply HP | constructor].
  - destruct (string_empty c); simpl; [constructor; [apply HP | constructor]|].
    specialize (IH (acc +:+ c_str c)).
    destruct (drain_chunks fd rest (acc +:+ c_str c)) as [a t]. simpl in *.
    constructor; [apply HP | exact IH].
Qed.

Lemma drain_events fd :
  (∀ r, P (ESys (CRead fd 4095, r))) → sat os P (drain fd) (λ _, True).
Proof.
  intros HP h. unfold drain. simpl.
  pose proof (drain_chunks_events fd (pipe_data os) "" HP) as Hd.
  destruct (drain_chunks fd (pipe_data os) "") as [s t]. simpl in *. auto.
Qed.
End PhaseEvents.














Lemma modules_setState s mgr : modules_ (setState s mgr) = modules_ mgr.
Proof. reflexivity. Qed.


#[local] Arguments initializeModules_loop : simpl never.
#[local] Arguments prepareChildProcess_loop : simpl never.
#[local] Arguments executeChild_loop : simpl never.
#[local] Arguments cleanupModules_loop : simpl never.

(** Symbolic execution of engine code: the calls of the engine are
    exposed, the loops over the modules stay abstract. *)
Ltac eng_inv_step H :=
  first
    [ rewrite run_ret in H
    | rewrite run_ecall in H
    | rewrite run_exit in H
    | rewrite run_bind in H
    | progress cbv beta iota in H
    | progress cbn [negb andb orb] in H
    | match type of H with
      | context [let '(_, _) := ?p in _] => is_var p; destruct p
      | context [runProg (if ?b then _ else _) _ _] =>
          let Hb := fresh "Hb" in destruct b eqn:Hb
      | context [match runProg ?m ?os ?h with _ => _ end] =>
          let Hr := fresh "Hr" in
          destruct (runProg m os h) as [[?|?|] ?] eqn:Hr
      | context [let '(_, _) := runProg ?m ?os ?h in _] =>
          let Hr := fresh "Hr" in
          destruct (runProg m os h) as [[?|?|] ?] eqn:Hr
      end ].

Ltac eng_inv H := repeat eng_inv_step H; try discriminate H.

(** As [eng_inv], with the results of the calls made abstract. *)
Ltac eng_abs_step H :=
  first
    [ rewrite run_ret in H
    | rewrite run_ecall in H;
      match type of H with
      | context [answer ?os ?h ?c] =>
          let r := fresh "r" in set (r := answer os h c) in H; clearbody r
      end
    | rewrite run_exit in H
    | rewrite run_bind in H
    | progress cbv beta iota in H
    | progress cbn [negb andb orb] in H
    | match type of H with
      | context [let '(_, _) := ?p in _] => is_var p; destruct p
      | context [runProg (if ?b then _ else _) _ _] =>
          let Hb := fresh "Hb" in destruct b eqn:Hb
      | context [match runProg ?m ?os ?h with _ => _ end] =>
          let Hr := fresh "Hr" in
          destruct (runProg m os h) as [[?|?|] ?] eqn:Hr
      | context [let '(_, _) := runProg ?m ?os ?h in _] =>
          let Hr := fresh "Hr" in
          destruct (runProg m os h) as [[?|?|] ?] eqn:Hr
      end ].

Ltac eng_abs H := repeat eng_abs_step H; try discriminate H.

Lemma waited_app pid t1 t2 : waited pid (t1 ++ t2) = waited pid t1 ++ waited pid t2.
Proof. unfold waited. apply omap_app. Qed.

Lemma waited_none pid t : Forall (λ e, waited pid [e] = []) t → waited pid t = [].
Proof.
  induction 1 as [|e t He _ IH]; [reflexivity|].
  change (e :: t) with ([e] ++ t). rewrite waited_app, He, IH. reflexivity.
Qed.

Lemma waited_sys pid c r t :
  waited pid (ESys (c, r) :: t) =
  match c with
  | CWaitpid p 0 => if p =? pid then [r] else []
  | _ => []
  end ++ waited pid t.
Proof.
  destruct c; try reflexivity.
  match goal with |- context [ESys (CWaitpid ?p ?o, _)] => destruct o; try reflexivity end.
  unfold waited. simpl.
  match goal with |- context [?p =? pid] => destruct (p =? pid) end; reflexivity.
Qed.

(** C9.  A run that started a child makes one blocking [waitpid] on it.
    When the answer it got is the pid of the child, the [success] flag of
    the result is true exactly when the status of that answer is a normal
    exit with status 0.  A non-zero exit status gives [success = false]
    with that status as exit code; death by a signal gives
    [success = false] and the negated signal number as exit code. *)
Theorem run_success_iff_exit_zero :
  ∀ mgr os h res mgr' tr pid,
    runProg (run mgr) os h = (Val (res, mgr'), tr) →
    childPid res = pid → 0 < pid →
    ∃ w, waited pid tr = [w] ∧
      (rv w = pid →
       let st := hd 0 (out w) in
       (success res = true ↔ WIFEXITED st = true ∧ WEXITSTATUS st = 0) ∧
       (WIFEXITED st = true → exitCode res = WEXITSTATUS st ∧
                              success res = (WEXITSTATUS st =? 0)) ∧
       (WIFSIGNALED st = true → success res = false ∧ exitCode res = - WTERMSIG st)).
Proof.
  intros mgr os h res mgr' tr pid H Hpid Hpos.
  unfold run, initializeModules, prepareChildProcess, cleanupModules in H.
  eng_abs H; injection H as <- <- <-; try (simpl in Hpid; lia).
  all: rewrite interpret_status_childPid in Hpid; simpl in Hpid.
  all: match goal with
       | Hi : runProg (initializeModules_loop _ _) _ _ = _,
         Hp : runProg (prepareChildProcess_loop _ _) _ _ = _,
         Hd : runProg (drain _) _ _ = _,
         Hc : runProg (cleanupModules_loop _ _ _) _ _ = _ |- _ =>
           pose proof (waited_none pid _
                         (sat_trace _ _ _ _ _ _ _
                            (initializeModules_loop_events _ (λ e, waited pid [e] = [])
                               _ _ (λ _ _ _, eq_refl)) Hi)) as Hwi;
           pose proof (waited_none pid _
                         (sat_trace _ _ _ _ _ _ _
                            (prepareChildProcess_loop_events _ (λ e, waited pid [e] = [])
                               _ _ (λ _ _ _, eq_refl)) Hp)) as Hwp;
           pose proof (waited_none pid _
                         (sat_trace _ _ _ _ _ _ _
                            (cleanupModules_loop_events _ (λ e, waited pid [e] = [])
                               _ _ _ (λ _ _ _, eq_refl)) Hc)) as Hwc;
           pose proof (waited_none pid _
                         (sat_trace _ _ _ _ _ _ _
                            (drain_events _ (λ e, waited pid [e] = [])
                               _ (λ _, eq_refl)) Hd)) as Hwd
       end.
  all: match goal with |- context [ESys (CWaitpid _ 0, ?w)] => exists w end; split;
    [ rewrite Hpid, ?app_nil_r;
      repeat first
        [ rewrite waited_app | rewrite waited_sys
        | rewrite Hwi | rewrite Hwp | rewrite Hwc | rewrite Hwd ];
      cbv beta iota; rewrite Z.eqb_refl; reflexivity
    | intros Hw; rewrite Hpid, Hw;
      match goal with
      | |- context [interpret_status ?p ?p ?s ?base] =>
          destruct (interpret_status_spec p s base eq_refl) as (A & B & C & _)
      end; auto ].
Qed.

Lemma run_success_iff_exit_zero_witness :
  let r := runProg (run (default_manager createDefaultConfig)) (os_ok 42 []) [] in
  option_map success (run_result r) = Some true ∧
  option_map exitCode (run_result r) = Some 0.
Proof.
  intros r.
  assert (option_map childPid (run_result r) = Some 42) as Hc by (vm_compute; reflexivity).
  assert (waited 42 r.2 = [mkRet 42 [0] ""]) as Hw by (vm_compute; reflexivity).
  destruct r as [[[res mgr']|c|] tr] eqn:Hr; try discriminate Hc.
  injection Hc as Hc. simpl in Hw.
  destruct (run_success_iff_exit_zero _ (os_ok 42 []) [] res mgr' tr 42 Hr Hc eq_refl)
    as (w & Hww & Hspec).
  rewrite Hw in Hww. injection Hww as <-.
  destruct (Hspec eq_refl) as ((_ & Hs) & He & _).
  unfold run_result. simpl. rewrite Hs by (split; reflexivity).
  destruct (He eq_refl) as [-> _]. split; reflexivity.
Defined.


(** ** The order of the hooks in the child *)



Lemma modules_resolveDependencies mgr : modules_ (resolveDependencies mgr) = modules_ mgr.
Proof. unfold resolveDependencies. destruct (resolve_order (modules_ mgr)); reflexivity. Qed.










(** ** A failed initialisation *)

Lemma initializeModules_loop_failed todo mgr os h mgr' t :
  runProg (initializeModules_loop todo mgr) os h = (Val (false, mgr'), t) →
  ∃ t0 n body, t = t0 ++ [EHook PhInitialize n body (Val false)].
Proof.
  revert mgr h t. induction todo as [|n rest IH]; intros mgr h t Hr.
  - discriminate Hr.
  - unfold initializeModules_loop in Hr; fold initializeModules_loop in Hr.
    rewrite run_bind in Hr.
    destruct (runProg (dispatch _ _ _ _) os h) as [o1 t1] eqn:Hd.
    apply dispatch_inv in Hd.
    destruct (map_find n (modules_ mgr)) as [module|].
    + destruct Hd as (body & res & -> & Hout).
      destruct o1 as [[ok mgr1]|c|]; [|discriminate Hr..].
      destruct Hout as [-> _]. destruct ok; cbn [negb] in Hr; cbv beta iota in Hr.
      * destruct (runProg (initializeModules_loop rest mgr1) os _) as [o2 t2] eqn:Hl.
        injection Hr as -> <-.
        destruct (IH _ _ _ Hl) as (t0 & n' & body' & ->).
        exists (EHook PhInitialize n body (Val true) :: t0), n', body'. reflexivity.
      * rewrite run_ret in Hr. injection Hr as _ <-.
        exists [], n, body. reflexivity.
    + destruct Hd as [-> ->]. cbn [negb] in Hr; cbv beta iota in Hr.
      destruct (runProg (initializeModules_loop rest mgr) os _) as [o2 t2] eqn:Hl.
      injection Hr as -> <-. apply (IH _ _ _ Hl).
Qed.

Lemma engine_calls_hooks ph t :
  Forall (λ e, is_hook ph e = true) t → engine_calls t = [].
Proof.
  induction 1 as [|e t He _ IH]; [reflexivity|].
  destruct e; [discriminate He | exact IH].
Qed.

Lemma hook_names_other ph ph' t :
  ph ≠ ph' → Forall (λ e, is_hook ph e = true) t → hook_names ph' t = [].
Proof.
  intros Hne. induction 1 as [|e t He _ IH]; [reflexivity|].
  destruct e as [e|p n body res]; [discriminate He|]. simpl in *.
  apply bool_decide_eq_true in He. subst p.
  rewrite decide_False by exact Hne. exact IH.
Qed.

(** C4, as amended.  When [initializeModules] fails, [run] returns the error result at
    once: the trace of the run is the trace of the [initialize] hooks and
    ends with the hook that returned false, the engine makes no call (no
    pipe, no fork), no [cleanup] hook runs, and the manager keeps its
    execution order. *)
Theorem run_initialize_failure mgr os h mgr1 t1 :
  runProg (initializeModules
             (resolveDependencies (setState SandboxState.INITIALIZING mgr))) os h
  = (Val (false, mgr1), t1) →
  runProg (run mgr) os h
  = (Val (failed "Failed to initialize modules", setState SandboxState.ERROR mgr1), t1) ∧
  (∃ t0 n body, t1 = t0 ++ [EHook PhInitialize n body (Val false)]) ∧
  engine_calls t1 = [] ∧
  hook_names PhCleanup t1 = [] ∧
  executionOrder_ (setState SandboxState.ERROR mgr1)
  = executionOrder_ (resolveDependencies mgr).
Proof.
  intros Hi.
  assert (Forall (λ e, is_hook PhInitialize e = true) t1) as Hev.
  { eapply sat_trace; [|exact Hi]. apply initializeModules_loop_events.
    intros. reflexivity. }
  split; [|split; [|split; [|split]]].
  - unfold run. rewrite run_bind, Hi. cbn [negb]. cbv beta iota.
    rewrite run_ret, app_nil_r. reflexivity.
  - eapply initializeModules_loop_failed. exact Hi.
  - eapply engine_calls_hooks. exact Hev.
  - eapply hook_names_other; [|exact Hev]. discriminate.
  - unfold initializeModules in Hi.
    apply initializeModules_loop_same, same_engine_order in Hi.
    change (executionOrder_ (setState SandboxState.ERROR mgr1)) with (executionOrder_ mgr1).
    rewrite Hi. unfold resolveDependencies. rewrite modules_setState.
    destruct (resolve_order (modules_ mgr)); reflexivity.
Qed.

Lemma run_initialize_failure_witness :
  let r := runProg (run (default_manager createDefaultConfig)) (os_host host_dirs) [] in
  run_result r = Some (failed "Failed to initialize modules") ∧
  engine_calls r.2 = [] ∧ hook_names PhCleanup r.2 = [].
Proof.
  intros r.
  pose (i := runProg (initializeModules
                        (resolveDependencies
                           (setState SandboxState.INITIALIZING
                              (default_manager createDefaultConfig))))
               (os_host host_dirs) []).
  assert (match i.1 with Val (false, _) => True | _ => False end) as Hf
    by (vm_compute; exact I).
  destruct i as [[[[|] mgr1]|c|] t1] eqn:Hi; try contradiction.
  destruct (run_initialize_failure _ _ _ _ _ Hi) as (Hrun & _ & Hc & Hcl & _).
  unfold r, run_result. rewrite Hrun. auto.
Defined.

(** C4 as stated fails: on a host without the root filesystem the Cgroups
    module creates its directory, the RootFS module fails to initialise,
    and [run] returns without any cleanup; the directory is still there.
    It is removed when the manager is destroyed. *)
Lemma initialize_failure_counterexample :
  let os := os_host host_dirs in
  let cg := "/sys/fs/cgroup/sandbox-sandbox-default-7" in
  let r := runProg (run (default_manager createDefaultConfig)) os [] in
  let later := match r.1 with
               | Val (_, mgr') => (runProg (destroy mgr') os (flat r.2)).2
               | _ => []
               end in
  run_result r = Some (failed "Failed to initialize modules") ∧
  hook_names PhInitialize r.2 = ["ai-agent"; "caps"; "cgroups"; "rootfs"] ∧
  engine_calls r.2 = [] ∧
  hook_names PhCleanup r.2 = [] ∧
  dir_exists host_dirs [] cg = false ∧
  dir_exists host_dirs (flat r.2) cg = true ∧
  hook_names PhCleanup later = rev default_order ∧
  dir_exists host_dirs (flat r.2 ++ flat later) cg = false.
Proof. vm_compute. repeat split; reflexivity. Qed.

(** ** Registration on the registry of [main] *)

Lemma registerModule_replaces_witness :
  let m := MkModule (Cgroups.new "/sys/fs/cgroup/unified") in
  let mgr := default_manager createDefaultConfig in
  let mgr' := snd (registerModule (Some m) mgr) in
  fst (registerModule (Some m) mgr) = true ∧
  getModule "cgroups" mgr' = Some m ∧
  length (modules_ mgr') = length (modules_ mgr).
Proof.
  intros m mgr mgr'.
  assert (map_sorted (modules_ mgr) = true) as Hs.
  { unfold mgr. rewrite default_modules. reflexivity. }
  destruct (registerModule_replaces (Some m) mgr Hs) as [_ H].
  destruct (H m eq_refl) as (Hok & Hget & _ & _ & _ & Hlen).
  split; [exact Hok|]. split; [exact Hget|].
  apply Hlen. unfold getModule, mgr. rewrite default_modules. eexists. reflexivity.
Defined.

(** ** Removing a module from the registry *)

Section StdMapErase.
Context {V : Type}.
Implicit Types (m : list (string * V)) (k : string) (v : V).

Lemma map_erase_Forall (P : string * V → Prop) k m :
  Forall P m → Forall P (map_erase k m).
Proof.
  induction 1 as [|[k' v'] m Hh Ht IH]; simpl; [constructor|].
  destruct (String.eqb k k'); [exact Ht | constructor; assumption].
Qed.

Lemma map_erase_sorted k m : map_sorted m = true → map_sorted (map_erase k m) = true.
Proof.
  induction m as [|[k' v'] m IH]; [reflexivity|].
  intros Hs. apply map_sorted_cons in Hs as [Hall Hm]. simpl.
  destruct (String.eqb k k'); [exact Hm|].
  apply map_sorted_cons. split; [apply map_erase_Forall; exact Hall | auto].
Qed.

Lemma map_find_erase_eq k m : map_sorted m = true → map_find k (map_erase k m) = None.
Proof.
  induction m as [|[k' v'] m IH]; [reflexivity|].
  intros Hs. apply map_sorted_cons in Hs as [Hall Hm]. simpl.
  destruct (String.eqb_spec k k') as [->|Hne].
  - apply map_find_below. exact Hall.
  - simpl. destruct (String.eqb_spec k k'); [contradiction | auto].
Qed.

Lemma map_find_erase_ne k k0 m : k0 ≠ k → map_find k0 (map_erase k m) = map_find k0 m.
Proof.
  intros Hne. induction m as [|[k' v'] m IH]; [reflexivity|]. simpl.
  destruct (String.eqb_spec k k') as [->|Hk].
  - destruct (String.eqb_spec k0 k'); [contradiction | reflexivity].
  - simpl. destruct (String.eqb k0 k'); [reflexivity | exact IH].
Qed.

Lemma map_erase_absent k m : map_find k m = None → map_erase k m = m.
Proof.
  induction m as [|[k' v'] m IH]; [reflexivity|]. simpl.
  destruct (String.eqb k k'); [discriminate|]. intros H. f_equal. auto.
Qed.

Lemma map_erase_length k m :
  is_Some (map_find k m) → S (length (map_erase k m)) = length m.
Proof.
  induction m as [|[k' v'] m IH]; simpl; [intros [? [=]]|].
  destruct (String.eqb k k'); [reflexivity|].
  intros H. simpl. f_equal. auto.
Qed.

Lemma map_erase_insert k v m :
  map_sorted m = true → map_erase k (map_insert k v m) = map_erase k m.
Proof.
  induction m as [|[k' v'] m IH]; intros Hs; simpl.
  - rewrite String.eqb_refl. reflexivity.
  - pose proof Hs as Hs'. apply map_sorted_cons in Hs' as [Hall Hm].
    destruct (String.compare k k') eqn:E; simpl.
    + apply String.compare_eq_iff in E. subst k'. rewrite !String.eqb_refl. reflexivity.
    + rewrite String.eqb_refl.
      pose proof (key_lt_neq _ _ E) as Hne.
      destruct (String.eqb_spec k k'); [contradiction|].
      f_equal. symmetry. apply map_erase_absent, map_find_below.
      eapply Forall_impl; [exact Hall|].
      intros kv Hkv. eapply key_lt_trans; [exact E | exact Hkv].
    + apply compare_Gt_lt, key_lt_neq in E.
      destruct (String.eqb_spec k k'); [congruence|].
      f_equal. auto.
Qed.
End StdMapErase.

Lemma set_modules_same mgr : set_modules (modules_ mgr) mgr = mgr.
Proof. destruct mgr; reflexivity. Qed.

(** X1.  [unregisterModule] fails exactly when the name is not registered,
    and then changes nothing.  Afterwards the name is not registered, the
    other names keep their modules, and a successful call shrinks the
    registry by one. *)
Theorem unregisterModule_removes n mgr :
  map_sorted (modules_ mgr) = true →
  let r := unregisterModule n mgr in
  (r.1 = false ↔ getModule n mgr = None) ∧
  (r.1 = false → r.2 = mgr) ∧
  getModule n r.2 = None ∧
  (∀ k, k ≠ n → getModule k r.2 = getModule k mgr) ∧
  map_sorted (modules_ r.2) = true ∧
  (r.1 = true → S (length (modules_ r.2)) = length (modules_ mgr)).
Proof.
  intros Hs. unfold unregisterModule, getModule.
  destruct (map_find n (modules_ mgr)) as [module|] eqn:Hfind; simpl.
  - split; [split; discriminate|]. split; [discriminate|].
    split; [apply map_find_erase_eq; exact Hs|].
    split; [intros k Hk; apply map_find_erase_ne; exact Hk|].
    split; [apply map_erase_sorted; exact Hs|].
    intros _. apply map_erase_length. rewrite Hfind. eauto.
  - split; [split; reflexivity|]. split; [reflexivity|].
    split; [exact Hfind|]. split; [reflexivity|]. split; [exact Hs | discriminate].
Qed.

Lemma unregisterModule_removes_witness :
  let mgr := default_manager createDefaultConfig in
  (unregisterModule "seccomp" mgr).1 = true ∧
  getModule "seccomp" (unregisterModule "seccomp" mgr).2 = None ∧
  length (modules_ (unregisterModule "seccomp" mgr).2) = 6%nat.
Proof.
  intros mgr.
  assert (map_sorted (modules_ mgr) = true) as Hs.
  { unfold mgr. rewrite default_modules. reflexivity. }
  destruct (unregisterModule_removes "seccomp" mgr Hs) as (Hf & _ & Hn & _ & _ & Hl).
  assert ((unregisterModule "seccomp" mgr).1 = true) as Hok.
  { unfold unregisterModule, mgr. rewrite default_modules. reflexivity. }
  split; [exact Hok|]. split; [exact Hn|].
  specialize (Hl Hok).
  assert (length (modules_ mgr) = 7%nat) as H7
    by (unfold mgr; rewrite default_modules; reflexivity).
  rewrite H7 in Hl. exact (f_equal Nat.pred Hl).
Defined.

(** X2.  Unregistering a module right after registering it leaves the
    registry as it was without that name: a module registered before under
    the same name is not restored, and a registry that did not hold the
    name is back to what it was. *)
Theorem register_then_unregister m mgr :
  map_sorted (modules_ mgr) = true →
  let r := unregisterModule (module_name m) (registerModule (Some m) mgr).2 in
  r.1 = true ∧
  modules_ r.2 = map_erase (module_name m) (modules_ mgr) ∧
  (getModule (module_name m) mgr = None → r.2 = mgr).
Proof.
  intros Hs. unfold unregisterModule, registerModule, getModule. simpl.
  rewrite map_find_insert_eq by exact Hs. simpl.
  rewrite map_erase_insert by exact Hs.
  split; [reflexivity|]. split; [reflexivity|].
  intros Hnone. rewrite map_erase_absent by exact Hnone.
  destruct mgr; reflexivity.
Qed.

Lemma register_then_unregister_witness :
  let mgr := new_manager createDefaultConfig in
  (unregisterModule "rootfs" (registerModule (Some (MkModule RootFS.new)) mgr).2).2 = mgr.
Proof.
  intros mgr.
  exact (proj2 (proj2 (register_then_unregister (MkModule RootFS.new) mgr eq_refl)) eq_refl).
Defined.

(** ** The order computed by [resolveDependencies] *)

Lemma occurs_before_app d x l suffix :
  occurs_before d x l → occurs_before d x (l ++ suffix).
Proof.
  intros (l1 & l2 & -> & Hd). exists l1, (l2 ++ suffix).
  split; [|exact Hd]. rewrite <- app_assoc. reflexivity.
Qed.

Section DfsOrder.
Variable mods : list (string * ModuleObj).

#[local] Abbreviation names := (registered_names mods).

Lemma registered_find n : n ∈ names ↔ is_Some (map_find n mods).
Proof.
  unfold registered_names. rewrite elem_of_list_to_set. split.
  - apply map_find_keys.
  - intros [v Hv]. eapply map_find_Some_keys. exact Hv.
Qed.

Lemma deps_loop_post fuel :
  (∀ n s s', dfs fuel mods n s = Some s' → dfs_inv mods s → dfs_post mods n s s') →
  ∀ deps s s', deps_loop (dfs fuel mods) deps s = Some s' → dfs_inv mods s →
    dfs_inv mods s' ∧ visited s ⊆ visited s' ∧ temp s' = temp s ∧
    (∃ suffix, order s' = order s ++ suffix) ∧
    (∀ d, d ∈ deps → d ∈ names → d ∉ temp s → d ∈ visited s').
Proof.
  intros Hrec. induction deps as [|d deps IH]; intros s s' Hrun Hinv; simpl in Hrun.
  - injection Hrun as <-. split; [exact Hinv|]. split; [reflexivity|].
    split; [reflexivity|]. split; [exists []; rewrite app_nil_r; reflexivity|].
    intros d Hd. inversion Hd.
  - destruct (dfs fuel mods d s) as [s1|] eqn:Hd; [|discriminate].
    destruct (Hrec _ _ _ Hd Hinv) as (Hinv1 & Hv1 & Ht1 & [suf1 Ho1] & Hin1).
    destruct (IH _ _ Hrun Hinv1) as (Hinv' & Hv' & Ht' & [suf' Ho'] & Hin').
    split; [exact Hinv'|]. split; [set_solver|]. split; [congruence|].
    split; [exists (suf1 ++ suf'); rewrite Ho', Ho1, app_assoc; reflexivity|].
    intros d0 Hd0 Hreg Hnt. apply elem_of_cons in Hd0 as [->|Hd0].
    + apply Hv'. auto.
    + apply Hin'; [exact Hd0 | exact Hreg | rewrite Ht1; exact Hnt].
Qed.

Lemma dfs_post_holds fuel :
  ∀ n s s', dfs fuel mods n s = Some s' → dfs_inv mods s → dfs_post mods n s s'.
Proof.
  induction fuel as [|fuel IH]; intros n s s' Hrun Hinv; [discriminate|].
  simpl in Hrun.
  destruct (decide (n ∈ temp s)) as [Ht|Hnt].
  { injection Hrun as <-. split; [exact Hinv|]. split; [reflexivity|].
    split; [reflexivity|]. split; [exists []; rewrite app_nil_r; reflexivity|].
    intros _ Hn. contradiction. }
  destruct (decide (n ∈ visited s)) as [Hv|Hnv].
  { injection Hrun as <-. split; [exact Hinv|]. split; [reflexivity|].
    split; [reflexivity|]. split; [exists []; rewrite app_nil_r; reflexivity|].
    intros _ _. exact Hv. }
  destruct (map_find n mods) as [module|] eqn:Hfind.
  2:{ injection Hrun as <-. split; [exact Hinv|]. split; [reflexivity|].
      split; [reflexivity|]. split; [exists []; rewrite app_nil_r; reflexivity|].
      intros Hreg _. apply registered_find in Hreg as [v Hv]. congruence. }
  assert (n ∈ names) as Hreg by (apply registered_find; eauto).
  destruct (deps_loop (dfs fuel mods) (module_deps module) _) as [s2|] eqn:Hloop;
    [|discriminate].
  injection Hrun as <-.
  destruct Hinv as (Hnd & Hov & Hvk & Hvt).
  destruct (deps_loop_post fuel IH _ _ _ Hloop) as (Hinv2 & Hv2 & Ht2 & [suf Ho2] & _).
  { repeat split; simpl; try assumption; try apply Hov. set_solver. }
  destruct Hinv2 as (Hnd2 & Hov2 & Hvk2 & Hvt2). simpl in *.
  assert (n ∉ visited s2) as Hn2 by (rewrite Ht2 in Hvt2; set_solver).
  split; [|split; [|split; [|split]]]; simpl.
  - split; [|split; [|split]]; simpl.
    + apply NoDup_app. split; [exact Hnd2|]. split; [|apply NoDup_singleton].
      intros x Hx Hx'. apply list_elem_of_singleton in Hx'. subst x.
      apply Hov2 in Hx. contradiction.
    + intros x. rewrite elem_of_app, list_elem_of_singleton, Hov2. set_solver.
    + set_solver.
    + rewrite Ht2. set_solver.
  - set_solver.
  - rewrite Ht2. set_solver.
  - exists (suf ++ [n]). rewrite Ho2, app_assoc. reflexivity.
  - intros _ _. set_solver.
Qed.

Lemma resolve_loop_post fuel :
  ∀ todo s s', resolve_loop fuel mods todo s = Some s' → dfs_inv mods s → temp s = ∅ →
    dfs_inv mods s' ∧ temp s' = ∅ ∧ visited s ⊆ visited s' ∧
    (∀ n, n ∈ todo → n ∈ names → n ∈ visited s').
Proof.
  induction todo as [|n todo IH]; intros s s' Hrun Hinv Ht; simpl in Hrun.
  - injection Hrun as <-. split; [exact Hinv|]. split; [exact Ht|].
    split; [reflexivity|]. intros n Hn. inversion Hn.
  - destruct (decide (n ∈ visited s)) as [Hv|Hnv].
    + destruct (IH _ _ Hrun Hinv Ht) as (Hinv' & Ht' & Hv' & Hin').
      split; [exact Hinv'|]. split; [exact Ht'|]. split; [exact Hv'|].
      intros n0 Hn0 Hreg. apply elem_of_cons in Hn0 as [->|Hn0]; [set_solver | auto].
    + destruct (dfs fuel mods n s) as [s1|] eqn:Hd; [|discriminate].
      destruct (dfs_post_holds _ _ _ _ Hd Hinv) as (Hinv1 & Hv1 & Ht1 & _ & Hin1).
      destruct (IH _ _ Hrun Hinv1 ltac:(congruence)) as (Hinv' & Ht' & Hv' & Hin').
      split; [exact Hinv'|]. split; [exact Ht'|]. split; [set_solver|].
      intros n0 Hn0 Hreg. apply elem_of_cons in Hn0 as [->|Hn0]; [|auto].
      apply Hv', Hin1; [exact Hreg | rewrite Ht; set_solver].
Qed.

Lemma dfs_inv_init : dfs_inv mods {| visited := ∅; temp := ∅; order := [] |}.
Proof.
  split; [constructor|]. split; [|split]; simpl; [|set_solver..].
  intros x. split; [intros Hx; inversion Hx | set_solver].
Qed.

Lemma resolve_order_elements o :
  resolve_order mods = Some o → NoDup o ∧ ∀ n, n ∈ o ↔ n ∈ names.
Proof.
  unfold resolve_order. intros Hrun.
  destruct (resolve_loop _ mods _ _) as [s'|] eqn:Hloop; [|discriminate].
  injection Hrun as <-.
  destruct (resolve_loop_post _ _ _ _ Hloop dfs_inv_init eq_refl)
    as ((Hnd & Hov & Hvk & _) & _ & _ & Hall).
  split; [exact Hnd|]. intros n. rewrite Hov. split; [apply Hvk|].
  intros Hn. apply Hall; [|exact Hn].
  unfold registered_names in Hn. apply elem_of_list_to_set in Hn. exact Hn.
Qed.

Section Acyclic.
Variable rank : string → nat.
Hypothesis Hrank : acyclic mods rank.

Lemma deps_loop_deps_first fuel (T : gset string) :
  (∀ n s s', dfs fuel mods n s = Some s' → dfs_inv mods s → deps_first mods (order s) →
             (n ∈ names → ∀ t, t ∈ temp s → (rank n < rank t)%nat) →
             deps_first mods (order s')) →
  ∀ deps s s', deps_loop (dfs fuel mods) deps s = Some s' → dfs_inv mods s →
    temp s = T → deps_first mods (order s) →
    (∀ d, d ∈ deps → d ∈ names → ∀ t, t ∈ T → (rank d < rank t)%nat) →
    deps_first mods (order s').
Proof.
  intros Hrec. induction deps as [|d deps IH]; intros s s' Hrun Hinv HT Hdf Hlt;
    simpl in Hrun.
  - injection Hrun as <-. exact Hdf.
  - destruct (dfs fuel mods d s) as [s1|] eqn:Hd; [|discriminate].
    destruct (dfs_post_holds _ _ _ _ Hd Hinv) as (Hinv1 & _ & Ht1 & _ & _).
    apply (IH s1 s' Hrun Hinv1); [congruence | | ].
    + apply (Hrec _ _ _ Hd Hinv Hdf). intros Hreg t Ht. rewrite HT in Ht.
      apply (Hlt d); [left | exact Hreg | exact Ht].
    + intros d0 Hd0. apply Hlt. right. exact Hd0.
Qed.

Lemma dfs_deps_first fuel :
  ∀ n s s', dfs fuel mods n s = Some s' → dfs_inv mods s → deps_first mods (order s) →
    (n ∈ names → ∀ t, t ∈ temp s → (rank n < rank t)%nat) →
    deps_first mods (order s').
Proof.
  induction fuel as [|fuel IH]; intros n s s' Hrun Hinv Hdf Hlt; [discriminate|].
  simpl in Hrun.
  destruct (decide (n ∈ temp s)) as [Ht|Hnt]; [injection Hrun as <-; exact Hdf|].
  destruct (decide (n ∈ visited s)) as [Hv|Hnv]; [injection Hrun as <-; exact Hdf|].
  destruct (map_find n mods) as [module|] eqn:Hfind; [|injection Hrun as <-; exact Hdf].
  assert (n ∈ names) as Hreg by (apply registered_find; eauto).
  destruct (deps_loop (dfs fuel mods) (module_deps module) _) as [s2|] eqn:Hloop;
    [|discriminate].
  injection Hrun as <-. simpl.
  pose (s1 := {| visited := visited s; temp := {[n]} ∪ temp s; order := order s |}).
  assert (dfs_inv mods s1) as Hinv1.
  { destruct Hinv as (Hnd & Hov & Hvk & Hvt).
    repeat split; simpl; try assumption; try apply Hov. set_solver. }
  assert (∀ d, d ∈ module_deps module → d ∈ names →
               ∀ t, t ∈ temp s1 → (rank d < rank t)%nat) as Hlt1.
  { intros d Hd Hdreg t Ht. simpl in Ht.
    pose proof (Hrank _ _ _ Hfind Hd Hdreg) as Hdn.
    apply elem_of_union in Ht as [Ht|Ht].
    - apply elem_of_singleton in Ht. subst t. exact Hdn.
    - specialize (Hlt Hreg t Ht). lia. }
  pose proof (deps_loop_deps_first fuel (temp s1) IH _ s1 s2 Hloop Hinv1 eq_refl Hdf Hlt1)
    as Hdf2.
  destruct (deps_loop_post fuel (dfs_post_holds fuel) _ _ _ Hloop Hinv1)
    as ((_ & Hov2 & _ & Hvt2) & _ & Ht2 & _ & Hvis).
  intros x module' d Hx Hfx Hd Hdreg.
  apply elem_of_app in Hx as [Hx|Hx].
  - apply occurs_before_app. eapply Hdf2; eauto.
  - apply list_elem_of_singleton in Hx. subst x.
    assert (module' = module) as -> by congruence.
    exists (order s2), []. split; [reflexivity|].
    apply Hov2, Hvis; [exact Hd | exact Hdreg|].
    intros Hdt. specialize (Hlt1 d Hd Hdreg d Hdt). lia.
Qed.

Lemma resolve_loop_deps_first fuel :
  ∀ todo s s', resolve_loop fuel mods todo s = Some s' → dfs_inv mods s → temp s = ∅ →
    deps_first mods (order s) → deps_first mods (order s').
Proof.
  induction todo as [|n todo IH]; intros s s' Hrun Hinv Ht Hdf; simpl in Hrun.
  - injection Hrun as <-. exact Hdf.
  - destruct (decide (n ∈ visited s)) as [Hv|Hnv]; [eauto|].
    destruct (dfs fuel mods n s) as [s1|] eqn:Hd; [|discriminate].
    destruct (dfs_post_holds _ _ _ _ Hd Hinv) as (Hinv1 & _ & Ht1 & _ & _).
    apply (IH s1 s' Hrun Hinv1); [congruence|].
    apply (dfs_deps_first _ _ _ _ Hd Hinv Hdf).
    intros _ t Hin. rewrite Ht in Hin. set_solver.
Qed.

Lemma resolve_order_deps_first o : resolve_order mods = Some o → deps_first mods o.
Proof.
  unfold resolve_order. intros Hrun.
  destruct (resolve_loop _ mods _ _) as [s'|] eqn:Hloop; [|discriminate].
  injection Hrun as <-.
  apply (resolve_loop_deps_first _ _ _ _ Hloop dfs_inv_init eq_refl).
  intros x module d Hx. inversion Hx.
Qed.
End Acyclic.
End DfsOrder.

Lemma resolved_order_spec mgr :
  NoDup (executionOrder_ (resolveDependencies mgr)) ∧
  ∀ n, n ∈ executionOrder_ (resolveDependencies mgr) ↔ n ∈ map_keys (modules_ mgr).
Proof.
  unfold resolveDependencies.
  destruct (resolve_order_total (modules_ mgr)) as [o Ho]. rewrite Ho. simpl.
  destruct (resolve_order_elements _ _ Ho) as [Hnd Hel].
  split; [exact Hnd|]. intros n. rewrite Hel.
  unfold registered_names. apply elem_of_list_to_set.
Qed.

(** X3.  [resolveDependencies] lists every registered module exactly once,
    whatever the dependencies are: names that are not registered are left
    out, and a cycle of dependencies neither loses nor repeats a module. *)
Theorem resolveDependencies_lists_each_module_once mgr :
  let o := executionOrder_ (resolveDependencies mgr) in
  NoDup o ∧ ∀ n, n ∈ o ↔ is_Some (getModule n mgr).
Proof.
  destruct (resolved_order_spec mgr) as [Hnd Hel].
  split; [exact Hnd|]. intros n. rewrite Hel. unfold getModule. split.
  - apply map_find_keys.
  - intros [v Hv]. eapply map_find_Some_keys. exact Hv.
Qed.

(** X4.  When the dependencies between the registered modules have no
    cycle, every module comes after all the registered modules it depends
    on in the order of [resolveDependencies]. *)
Theorem resolveDependencies_dependencies_first mgr (rank : string → nat) :
  (∀ x m d, getModule x mgr = Some m → d ∈ module_deps m →
            is_Some (getModule d mgr) → (rank d < rank x)%nat) →
  ∀ x m d, getModule x mgr = Some m → d ∈ module_deps m → is_Some (getModule d mgr) →
    occurs_before d x (executionOrder_ (resolveDependencies mgr)).
Proof.
  unfold getModule. intros Hrank x m d Hx Hd Hdreg.
  unfold resolveDependencies.
  destruct (resolve_order_total (modules_ mgr)) as [o Ho]. rewrite Ho. simpl.
  assert (acyclic (modules_ mgr) rank) as Hac.
  { intros x0 m0 d0 Hx0 Hd0 Hreg0. apply (Hrank x0 m0 d0 Hx0 Hd0).
    apply registered_find. exact Hreg0. }
  apply (resolve_order_deps_first _ rank Hac o Ho x m d); try assumption.
  - apply (resolve_order_elements _ _ Ho), registered_find. eauto.
  - apply registered_find. exact Hdreg.
Qed.

Lemma resolveDependencies_dependencies_first_witness :
  occurs_before "rootfs" "mounts"
    (executionOrder_ (resolveDependencies (default_manager createDefaultConfig))).
Proof.
  apply (resolveDependencies_dependencies_first (default_manager createDefaultConfig)
           (λ n, if String.eqb n "mounts" then 1%nat else 0%nat)
         ) with (m := MkModule Mounts.new).
  - intros x m d Hx Hd _. unfold getModule in Hx. rewrite default_modules in Hx.
    cbn [map_find] in Hx.
    repeat match type of Hx with
    | context [String.eqb x ?k] => destruct (String.eqb_spec x k) as [->|?]
    end; try discriminate Hx; injection Hx as <-;
    first [ change (d ∈ @nil string) in Hd; inversion Hd
          | change (d ∈ ["rootfs"]) in Hd; apply list_elem_of_singleton in Hd;
            subst d; simpl; lia ].
  - unfold getModule. rewrite default_modules. reflexivity.
  - change ("rootfs" ∈ ["rootfs"]). left.
  - unfold getModule. rewrite default_modules. eexists. reflexivity.
Defined.

(** ** The loops of the engine over the modules *)

Lemma initializeModules_loop_nil mgr :
  initializeModules_loop [] mgr = mret (true, mgr).
Proof. reflexivity. Qed.

Lemma initializeModules_loop_cons n rest mgr :
  initializeModules_loop (n :: rest) mgr =
  dispatch PhInitialize n (λ St vt st, @initialize St vt (config_ mgr) st) mgr
  ≫= λ '(ok, mgr), if negb ok then mret (false, mgr)
                    else initializeModules_loop rest mgr.
Proof. reflexivity. Qed.

Lemma cleanupModules_loop_nil acc mgr :
  cleanupModules_loop [] acc mgr = mret (acc, mgr).
Proof. reflexivity. Qed.

Lemma cleanupModules_loop_cons n rest acc mgr :
  cleanupModules_loop (n :: rest) acc mgr =
  dispatch PhCleanup n (λ St vt st, @cleanup St vt st) mgr
  ≫= λ '(ok, mgr), cleanupModules_loop rest (if negb ok then false else acc) mgr.
Proof. reflexivity. Qed.

Lemma hook_log_app t1 t2 : hook_log (t1 ++ t2) = hook_log t1 ++ hook_log t2.
Proof. unfold hook_log. apply omap_app. Qed.

Lemma resolved_names_registered mgr :
  Forall (λ n, n ∈ map_keys (modules_ mgr)) (executionOrder_ (resolveDependencies mgr)).
Proof.
  apply Forall_forall. intros n Hn. apply (resolved_order_spec mgr). exact Hn.
Qed.

Lemma dispatch_registered ph n hook mgr os h out t :
  n ∈ map_keys (modules_ mgr) →
  runProg (dispatch ph n hook mgr) os h = (out, t) →
  ∃ body res, t = [EHook ph n body res] ∧
    match out with
    | Val (ok, mgr') => res = Val ok ∧ keys_kept mgr mgr' ∧ same_engine mgr mgr'
    | Exited c => res = Exited c
    | Execed => res = Execed
    end.
Proof.
  intros Hn Hr. pose proof (dispatch_inv _ _ _ _ _ _ _ _ Hr) as Hinv.
  destruct (map_find_keys _ _ Hn) as [module Hfind]. rewrite Hfind in Hinv.
  destruct Hinv as (body & res & -> & Hout). exists body, res. split; [reflexivity|].
  destruct out as [[ok mgr']|c|]; try exact Hout.
  destruct Hout as [-> [st' ->]]. split; [reflexivity|]. split.
  - intros k Hk. simpl. apply map_insert_keys. right. exact Hk.
  - reflexivity.
Qed.

Lemma initializeModules_loop_log todo mgr os h ok mgr' t :
  Forall (λ n, n ∈ map_keys (modules_ mgr)) todo →
  runProg (initializeModules_loop todo mgr) os h = (Val (ok, mgr'), t) →
  Forall (λ e, is_hook PhInitialize e = true) t ∧
  if ok then hook_log t = map (returned PhInitialize true) todo
  else ∃ k n, todo !! k = Some n ∧
         hook_log t = map (returned PhInitialize true) (take k todo)
                      ++ [returned PhInitialize false n].
Proof.
  revert mgr h t. induction todo as [|n rest IH]; intros mgr h t Hreg Hr.
  - rewrite initializeModules_loop_nil, run_ret in Hr. injection Hr as <- <- <-.
    split; [constructor | reflexivity].
  - apply Forall_cons in Hreg as [Hn Hrest].
    rewrite initializeModules_loop_cons, run_bind in Hr.
    destruct (runProg (dispatch _ _ _ _) os h) as [o1 t1] eqn:Hd.
    destruct (dispatch_registered _ _ _ _ _ _ _ _ Hn Hd) as (body & res & -> & Hout).
    destruct o1 as [[ok1 mgr1]|c|]; [|discriminate Hr..].
    destruct Hout as (-> & Hkeys & _).
    destruct ok1; cbn [negb] in Hr; cbv beta iota in Hr.
    + destruct (runProg (initializeModules_loop rest mgr1) os _) as [o2 t2] eqn:Hl.
      injection Hr as -> <-.
      assert (Forall (λ n, n ∈ map_keys (modules_ mgr1)) rest) as Hreg1.
      { eapply Forall_impl; [exact Hrest|]. intros k Hk. apply Hkeys. exact Hk. }
      destruct (IH _ _ _ Hreg1 Hl) as [Hev Hlog].
      split; [constructor; [reflexivity | exact Hev]|].
      destruct ok.
      * simpl. f_equal. exact Hlog.
      * destruct Hlog as (k & n' & Hk & Hlog).
        exists (S k), n'. split; [exact Hk|]. simpl. f_equal. exact Hlog.
    + rewrite run_ret in Hr. injection Hr as <- <- <-.
      split; [repeat constructor|].
      exists 0%nat, n. split; reflexivity.
Qed.

(** X5.  [initializeModules] calls [initialize] on the modules in the
    resolved order and stops at the first that returns false: on success
    every module was initialised, on failure the modules after the failing
    one were not touched.  The engine itself makes no call. *)
Theorem initializeModules_stops_at_first_failure mgr os h ok mgr' t :
  let order := executionOrder_ (resolveDependencies mgr) in
  runProg (initializeModules (resolveDependencies mgr)) os h = (Val (ok, mgr'), t) →
  engine_calls t = [] ∧
  (ok = true → hook_log t = map (returned PhInitialize true) order) ∧
  (ok = false →
   ∃ k n, order !! k = Some n ∧
     hook_log t = map (returned PhInitialize true) (take k order)
                  ++ [returned PhInitialize false n]).
Proof.
  intros order Hr. unfold initializeModules in Hr.
  assert (Forall (λ n, n ∈ map_keys (modules_ (resolveDependencies mgr))) order) as Hreg.
  { rewrite modules_resolveDependencies. apply resolved_names_registered. }
  destruct (initializeModules_loop_log _ _ _ _ _ _ _ Hreg Hr) as [Hev Hlog].
  split; [eapply engine_calls_hooks; exact Hev|].
  destruct ok; split; intros; try discriminate; exact Hlog.
Qed.

Lemma initializeModules_stops_at_first_failure_witness :
  let mgr := default_manager createDefaultConfig in
  let order := executionOrder_ (resolveDependencies mgr) in
  let r := runProg (initializeModules (resolveDependencies mgr)) (os_host host_dirs) [] in
  ∃ k n, order !! k = Some n ∧
    hook_log r.2 = map (returned PhInitialize true) (take k order)
                   ++ [returned PhInitialize false n].
Proof.
  intros mgr order r.
  assert (match r.1 with Val (false, _) => True | _ => False end) as Hf
    by (vm_compute; exact I).
  destruct r as [[[[|] mgr1]|c|] t1] eqn:Hr; try contradiction.
  exact (proj2 (proj2 (initializeModules_stops_at_first_failure _ _ _ _ _ _ Hr)) eq_refl).
Defined.

Lemma cleanupModules_loop_log todo acc mgr os h ok mgr' t :
  Forall (λ n, n ∈ map_keys (modules_ mgr)) todo →
  runProg (cleanupModules_loop todo acc mgr) os h = (Val (ok, mgr'), t) →
  Forall (λ e, is_hook PhCleanup e = true) t ∧
  map fst (hook_log t) = map (pair PhCleanup) todo ∧
  ok = acc && forallb entry_ok (hook_log t) ∧
  same_engine mgr mgr'.
Proof.
  revert acc mgr h t. induction todo as [|n rest IH]; intros acc mgr h t Hreg Hr.
  - rewrite cleanupModules_loop_nil, run_ret in Hr. injection Hr as <- <- <-.
    split; [constructor|]. split; [reflexivity|].
    split; [rewrite andb_true_r; reflexivity | apply same_engine_refl].
  - apply Forall_cons in Hreg as [Hn Hrest].
    rewrite cleanupModules_loop_cons, run_bind in Hr.
    destruct (runProg (dispatch _ _ _ _) os h) as [o1 t1] eqn:Hd.
    destruct (dispatch_registered _ _ _ _ _ _ _ _ Hn Hd) as (body & res & -> & Hout).
    destruct o1 as [[ok1 mgr1]|c|]; [|discriminate Hr..].
    destruct Hout as (-> & Hkeys & Hsame). cbv beta iota in Hr.
    destruct (runProg (cleanupModules_loop rest _ mgr1) os _) as [o2 t2] eqn:Hl.
    injection Hr as -> <-.
    assert (Forall (λ n, n ∈ map_keys (modules_ mgr1)) rest) as Hreg1.
    { eapply Forall_impl; [exact Hrest|]. intros k Hk. apply Hkeys. exact Hk. }
    destruct (IH _ _ _ _ Hreg1 Hl) as (Hev & Hnames & Hok & Hsame').
    split; [constructor; [reflexivity | exact Hev]|].
    split; [simpl; f_equal; exact Hnames|].
    split; [|eapply same_engine_trans; eassumption].
    rewrite Hok. simpl. unfold entry_ok at 1. simpl.
    destruct ok1, acc; reflexivity.
Qed.

(** X6.  [cleanupModules] calls [cleanup] on every module of the
    execution order, last first, and goes on after a failure: it returns
    true exactly when every [cleanup] did.  Afterwards the order is empty
    and no child is recorded. *)
Theorem cleanupModules_reverse_all mgr os h ok mgr' t :
  Forall (λ n, is_Some (getModule n mgr)) (executionOrder_ mgr) →
  runProg (cleanupModules mgr) os h = (Val (ok, mgr'), t) →
  engine_calls t = [] ∧
  map fst (hook_log t) = map (pair PhCleanup) (rev (executionOrder_ mgr)) ∧
  ok = forallb entry_ok (hook_log t) ∧
  executionOrder_ mgr' = [] ∧ childPid_ mgr' = -1.
Proof.
  intros Hreg Hr. unfold cleanupModules in Hr. rewrite run_bind in Hr.
  destruct (runProg (cleanupModules_loop _ _ _) os h) as [[[ok1 mgr1]|c|] t1] eqn:Hl;
    [|discriminate Hr..].
  cbv beta iota in Hr. rewrite run_ret, app_nil_r in Hr. injection Hr as <- <- <-.
  assert (Forall (λ n, n ∈ map_keys (modules_ mgr)) (rev (executionOrder_ mgr))) as Hreg'.
  { apply Forall_rev. eapply Forall_impl; [exact Hreg|].
    intros n [v Hv]. eapply map_find_Some_keys. exact Hv. }
  destruct (cleanupModules_loop_log _ _ _ _ _ _ _ _ Hreg' Hl) as (Hev & Hnames & Hok & _).
  split; [eapply engine_calls_hooks; exact Hev|].
  split; [exact Hnames|]. split; [exact Hok|]. split; reflexivity.
Qed.

Lemma cleanupModules_reverse_all_witness :
  let mgr := resolveDependencies (default_manager createDefaultConfig) in
  let r := runProg (cleanupModules mgr) (os_ok 42 []) [] in
  map fst (hook_log r.2) = map (pair PhCleanup) (rev (executionOrder_ mgr)).
Proof.
  intros mgr r.
  assert (match r.1 with Val _ => True | _ => False end) as Hf by (vm_compute; exact I).
  destruct r as [[[ok mgr1]|c|] t1] eqn:Hr; try contradiction.
  refine (proj1 (proj2 (cleanupModules_reverse_all _ _ _ _ _ _ _ Hr))).
  apply Forall_forall. intros n Hn.
  apply (resolved_order_spec (default_manager createDefaultConfig)) in Hn.
  unfold getModule, mgr. rewrite modules_resolveDependencies.
  apply map_find_keys. exact Hn.
Defined.

(** ** After a run *)

Lemma run_bind_val {E} `{Flat E} {A B} (m : Prog E A) (f : A → Prog E B) os h a t1 :
  runProg m os h = (Val a, t1) →
  runProg (m ≫= f) os h =
  (let '(o, t2) := runProg (f a) os (h ++ flat t1) in (o, t1 ++ t2)).
Proof. intros Hm. rewrite run_bind, Hm. reflexivity. Qed.

Lemma childPid_resolveDependencies mgr :
  childPid_ (resolveDependencies mgr) = childPid_ mgr.
Proof. unfold resolveDependencies. destruct (resolve_order (modules_ mgr)); reflexivity. Qed.

Lemma stop_no_child timeout mgr os h :
  childPid_ mgr < 0 → runProg (stop timeout mgr) os h = (Val true, []).
Proof.
  intros Hneg. unfold stop.
  destruct (childPid_ mgr <? 0) eqn:E; [reflexivity | lia].
Qed.

Lemma destroy_idle mgr os h :
  childPid_ mgr < 0 → executionOrder_ mgr = [] →
  (runProg (destroy mgr) os h).2 = [].
Proof.
  intros Hneg Ho. unfold destroy.
  rewrite (run_bind_val _ _ _ _ _ _ (stop_no_child 1000 mgr os h Hneg)).
  unfold cleanupModules. rewrite Ho. reflexivity.
Qed.

(** X7.  A run of a manager that has no child leaves it without one:
    whatever the way [run] returned, a later [stop] does nothing and
    returns true.  When a child was started the manager ends in the state
    STOPPED with an empty execution order, so that its destruction calls no
    [cleanup] a second time; otherwise it ends in the state ERROR and the
    result carries the pid -1. *)
Theorem run_leaves_no_child mgr os h res mgr' t :
  childPid_ mgr < 0 →
  runProg (run mgr) os h = (Val (res, mgr'), t) →
  (∀ timeout os' h', runProg (stop timeout mgr') os' h' = (Val true, [])) ∧
  (0 < childPid res →
   state_ mgr' = SandboxState.STOPPED ∧ executionOrder_ mgr' = [] ∧
   ∀ os' h', (runProg (destroy mgr') os' h').2 = []) ∧
  (childPid res <= 0 → state_ mgr' = SandboxState.ERROR ∧ childPid res = -1).
Proof.
  intros Hneg H.
  assert (childPid_ mgr' < 0 ∧
          (0 < childPid res →
           state_ mgr' = SandboxState.STOPPED ∧ executionOrder_ mgr' = []) ∧
          (childPid res <= 0 → state_ mgr' = SandboxState.ERROR ∧ childPid res = -1))
    as (Hc & Hpos & Herr).
  { unfold run, initializeModules, prepareChildProcess, cleanupModules in H.
    eng_inv H; injection H as <- <- <-.
    all: repeat match goal with
         | Hr : runProg (initializeModules_loop _ _) _ _ = (Val (_, _), _) |- _ =>
             apply initializeModules_loop_same, same_engine_childPid in Hr; simpl in Hr
         | Hr : runProg (prepareChildProcess_loop _ _) _ _ = (Val (_, _), _) |- _ =>
             apply prepareChildProcess_loop_same, same_engine_childPid in Hr; simpl in Hr
         | Hb : (_ <? _) = true |- _ => apply Z.ltb_lt in Hb
         | Hb : (_ <? _) = false |- _ => apply Z.ltb_ge in Hb
         | Hb : (_ =? _) = false |- _ => apply Z.eqb_neq in Hb
         end.
    all: rewrite ?interpret_status_childPid; simpl.
    all: rewrite ?childPid_resolveDependencies in *; simpl in *.
    all: split; [lia|]; split; intros; try lia; auto. }
  split; [intros; apply stop_no_child; exact Hc|].
  split; [|exact Herr].
  intros Hp. destruct (Hpos Hp) as [Hst Ho]. split; [exact Hst|]. split; [exact Ho|].
  intros os' h'. apply destroy_idle; assumption.
Qed.

Lemma run_leaves_no_child_witness :
  let r := runProg (run (default_manager createDefaultConfig)) (os_ok 42 []) [] in
  match r.1 with
  | Val (res, mgr') => runProg (stop 5000 mgr') (os_ok 42 []) (flat r.2) = (Val true, [])
  | _ => False
  end.
Proof.
  intros r.
  assert (match r.1 with Val _ => True | _ => False end) as Hv by (vm_compute; exact I).
  destruct r as [[[res mgr']|c|] t] eqn:Hr; try contradiction.
  simpl.
  apply (proj1 (run_leaves_no_child (default_manager createDefaultConfig)
                  (os_ok 42 []) [] res mgr' t eq_refl Hr)).
Defined.

(** ** Stopping the child *)

Lemma engine_calls_app t1 t2 : engine_calls (t1 ++ t2) = engine_calls t1 ++ engine_calls t2.
Proof. unfold engine_calls. apply omap_app. Qed.

Lemma stop_loop_O pid : stop_loop 0 pid = mret false.
Proof. reflexivity. Qed.

Lemma stop_loop_S n pid :
  stop_loop (S n) pid =
  ecall (CWaitpid pid K.WNOHANG)
  ≫= λ w, if negb (rv w =? 0) then mret true
           else ecall (CSleepMs 100) ≫= λ _, stop_loop n pid.
Proof. reflexivity. Qed.

Lemma stop_loop_spec n pid os h o t :
  runProg (stop_loop n pid) os h = (o, t) →
  ∃ j, (j <= n)%nat ∧ engine_calls t =
         concat (replicate j (poll_round pid))
         ++ (if (j <? n)%nat then [CWaitpid pid K.WNOHANG] else []) ∧
       o = Val (j <? n)%nat ∧
       ((j <? n)%nat = true ↔
        ∃ r, ESys (CWaitpid pid K.WNOHANG, r) ∈ t ∧ rv r ≠ 0).
Proof.
  revert h o t. induction n as [|n IH]; intros h o t Hr.
  - rewrite stop_loop_O, run_ret in Hr. injection Hr as <- <-. exists 0%nat.
    split; [lia|]. split; [reflexivity|]. split; [reflexivity|].
    split; [discriminate|]. intros (r & Hin & _). inversion Hin.
  - rewrite stop_loop_S, run_bind, run_ecall in Hr. cbv beta iota in Hr.
    set (w := answer os h (CWaitpid pid K.WNOHANG)) in *.
    destruct (rv w =? 0) eqn:Hw; cbn [negb] in Hr.
    + rewrite run_bind, run_ecall in Hr. cbv beta iota in Hr.
      destruct (runProg (stop_loop n pid) os _) as [o2 t2] eqn:Hl.
      injection Hr as <- <-.
      destruct (IH _ _ _ Hl) as (j & Hj & Hcalls & -> & Hiff).
      exists (S j). split; [lia|].
      split; [simpl; do 2 f_equal; exact Hcalls|].
      split; [reflexivity|].
      change (S j <? S n)%nat with (j <? n)%nat. rewrite Hiff.
      apply Z.eqb_eq in Hw. split.
      * intros (r & Hin & Hne). exists r. split; [|exact Hne]. do 2 right. exact Hin.
      * intros (r & Hin & Hne). exists r. split; [|exact Hne].
        apply elem_of_cons in Hin as [Heq|Hin]; [injection Heq as <-; contradiction|].
        apply elem_of_cons in Hin as [Heq|Hin]; [discriminate Heq | exact Hin].
    + rewrite run_ret in Hr. injection Hr as <- <-.
      exists 0%nat. split; [lia|]. split; [reflexivity|]. split; [reflexivity|].
      split; [|reflexivity]. intros _. exists w. split; [left|].
      apply Z.eqb_neq in Hw. exact Hw.
Qed.

(** X8.  [stop] on a manager with a child sends SIGTERM, then polls
    [waitpid] with WNOHANG every 100 ms, at most [timeoutMs / 100] times.
    It returns as soon as a poll gives a non-zero result (an error of
    [waitpid] counts as the child being gone).  SIGKILL followed by a
    blocking [waitpid] is sent exactly when every poll returned 0.  In all
    cases [stop] returns true. *)
Theorem stop_escalates_after_polls timeoutMs mgr os h o t :
  0 <= childPid_ mgr →
  runProg (stop timeoutMs mgr) os h = (o, t) →
  let pid := childPid_ mgr in
  let attempts := Z.to_nat (Z.quot timeoutMs 100) in
  o = Val true ∧
  (∃ polls, (polls <= attempts)%nat ∧ engine_calls t = stop_calls pid attempts polls) ∧
  (CKill pid K.SIGKILL ∈ engine_calls t ↔
   ∀ r, ESys (CWaitpid pid K.WNOHANG, r) ∈ t → rv r = 0).
Proof.
  intros Hpid Hr pid attempts. unfold stop in Hr.
  destruct (childPid_ mgr <? 0) eqn:E; [apply Z.ltb_lt in E; lia|].
  rewrite run_bind, run_ecall in Hr. cbv beta iota in Hr.
  rewrite run_bind in Hr.
  destruct (runProg (stop_loop _ _) os _) as [o1 t1] eqn:Hl.
  destruct (stop_loop_spec _ _ _ _ _ _ Hl) as (j & Hj & Hcalls & -> & Hiff).
  fold pid attempts in Hcalls, Hiff, Hj, Hr |- *.
  cbv beta iota in Hr.
  destruct (j <? attempts)%nat eqn:Hlt.
  - rewrite run_ret in Hr. injection Hr as <- <-.
    split; [reflexivity|]. split.
    + exists j. split; [exact Hj|]. unfold stop_calls. rewrite Hlt.
      simpl. rewrite app_nil_r. f_equal. exact Hcalls.
    + simpl. rewrite app_nil_r, Hcalls. split.
      * intros Hin. exfalso.
        apply elem_of_cons in Hin as [Heq|Hin]; [discriminate Heq|].
        apply elem_of_app in Hin as [Hin|Hin].
        -- apply list_elem_of_In, in_concat in Hin as (l & Hl1 & Hl2).
           apply list_elem_of_In, elem_of_replicate_inv in Hl1. subst l.
           destruct Hl2 as [Heq|[Heq|[]]]; discriminate Heq.
        -- apply list_elem_of_singleton in Hin. discriminate Hin.
      * intros Hall. exfalso.
        destruct (proj1 Hiff eq_refl) as (r & Hin & Hne).
        apply Hne, Hall. right. exact Hin.
  - rewrite !run_bind, !run_ecall in Hr. cbv beta iota in Hr.
    rewrite run_bind, run_ecall in Hr. cbv beta iota in Hr.
    rewrite run_ret in Hr. injection Hr as <- <-.
    split; [reflexivity|]. split.
    + exists j. split; [exact Hj|]. unfold stop_calls. rewrite Hlt.
      simpl. rewrite !engine_calls_app, Hcalls. simpl. rewrite !app_nil_r. reflexivity.
    + split.
      * intros _ r Hin.
        destruct (Z.eq_dec (rv r) 0) as [|Hne]; [assumption|]. exfalso.
        assert (∃ r, ESys (CWaitpid pid K.WNOHANG, r) ∈ t1 ∧ rv r ≠ 0) as Hex.
        { exists r. split; [|exact Hne].
          repeat match type of Hin with
          | _ ∈ _ ++ _ => apply elem_of_app in Hin as [Hin|Hin]
          | _ ∈ _ :: _ => apply elem_of_cons in Hin as [Hin|Hin]
          | _ ∈ [] => inversion Hin
          end;
          first [ exact Hin
                | cbv [K.WNOHANG K.SIGTERM K.SIGKILL] in Hin; discriminate Hin ]. }
        apply Hiff in Hex. discriminate Hex.
      * intros _. simpl. rewrite !engine_calls_app. simpl.
        right. rewrite !elem_of_app. right. left.
Qed.

Lemma stop_escalates_after_polls_witness :
  let mgr := set_childPid 42 (new_manager createDefaultConfig) in
  (runProg (stop 5000 mgr) (os_ok 42 []) []).1 = Val true.
Proof.
  intros mgr.
  apply (stop_escalates_after_polls 5000 mgr (os_ok 42 []) [] _ _ ltac:(simpl; lia)
           (surjective_pairing _)).
Defined.

(** ** The parent side of a run *)

Lemma drain_chunks_spec fd chunks acc :
  (drain_chunks fd chunks acc).1 =
    fold_left (λ acc c, acc +:+ c_str c) (read_chunks chunks) acc ∧
  engine_calls (drain_chunks fd chunks acc).2 =
    replicate (S (length (read_chunks chunks))) (CRead fd 4095) ∧
  hook_log (drain_chunks fd chunks acc).2 = [].
Proof.
  revert acc. induction chunks as [|c rest IH]; intros acc; simpl.
  - repeat split.
  - destruct (string_empty c); simpl; [repeat split|].
    specialize (IH (acc +:+ c_str c)).
    destruct (drain_chunks fd rest (acc +:+ c_str c)) as [a t]. simpl in *.
    destruct IH as (-> & -> & ->). repeat split.
Qed.

Lemma drain_spec fd os h s t :
  runProg (drain fd) os h = (Val s, t) →
  s = captured (pipe_data os) ∧
  engine_calls t = replicate (S (length (read_chunks (pipe_data os)))) (CRead fd 4095) ∧
  hook_log t = [].
Proof.
  unfold drain. simpl.
  pose proof (drain_chunks_spec fd (pipe_data os) "") as Hd.
  destruct (drain_chunks fd (pipe_data os) "") as [a t']. simpl in Hd.
  intros [= <- <-]. exact Hd.
Qed.

Lemma hook_log_phase ph t :
  Forall (λ e, is_hook ph e = true) t → Forall (λ e, e.1.1 = ph) (hook_log t).
Proof.
  induction 1 as [|e t He _ IH]; [constructor|].
  destruct e as [e|p n body res]; [discriminate He|]. simpl in *.
  constructor; [|exact IH]. simpl. apply bool_decide_eq_true in He. exact He.
Qed.

Lemma prepareChildProcess_loop_nil mgr :
  prepareChildProcess_loop [] mgr = mret (true, mgr).
Proof. reflexivity. Qed.

Lemma prepareChildProcess_loop_cons n rest mgr :
  prepareChildProcess_loop (n :: rest) mgr =
  dispatch PhPrepareChild n
    (λ St vt st, @prepareChild St vt (config_ mgr) (childPid_ mgr) st) mgr
  ≫= λ '(ok, mgr), if negb ok then mret (false, mgr)
                    else prepareChildProcess_loop rest mgr.
Proof. reflexivity. Qed.

(** [prepareChildProcess] fails exactly when a hook returned false. *)
Lemma prepareChildProcess_loop_log todo mgr os h ok mgr' t :
  runProg (prepareChildProcess_loop todo mgr) os h = (Val (ok, mgr'), t) →
  engine_calls t = [] ∧
  (ok = false ↔ ∃ n, returned PhPrepareChild false n ∈ hook_log t).
Proof.
  revert mgr h t. induction todo as [|n rest IH]; intros mgr h t Hr.
  - rewrite prepareChildProcess_loop_nil, run_ret in Hr. injection Hr as <- <- <-.
    split; [reflexivity|]. split; [discriminate|]. intros [n Hn]. inversion Hn.
  - rewrite prepareChildProcess_loop_cons, run_bind in Hr.
    destruct (runProg (dispatch _ _ _ _) os h) as [o1 t1] eqn:Hd.
    apply dispatch_inv in Hd.
    destruct (map_find n (modules_ mgr)) as [module|].
    + destruct Hd as (body & res & -> & Hout).
      destruct o1 as [[ok1 mgr1]|c|]; [|discriminate Hr..].
      destruct Hout as [-> _].
      destruct ok1; cbn [negb] in Hr; cbv beta iota in Hr.
      * destruct (runProg (prepareChildProcess_loop rest mgr1) os _) as [o2 t2] eqn:Hl.
        injection Hr as -> <-. destruct (IH _ _ _ Hl) as [Hc Hiff].
        split; [exact Hc|]. rewrite Hiff. simpl. split.
        -- intros [n' Hn']. exists n'. right. exact Hn'.
        -- intros [n' Hn']. exists n'.
           apply elem_of_cons in Hn' as [Heq|Hn']; [discriminate Heq | exact Hn'].
      * rewrite run_ret in Hr. injection Hr as <- <- <-.
        split; [reflexivity|]. split; [|reflexivity]. intros _. exists n. left.
    + destruct Hd as [-> ->]. cbn [negb] in Hr; cbv beta iota in Hr.
      destruct (runProg (prepareChildProcess_loop rest mgr) os _) as [o2 t2] eqn:Hl.
      injection Hr as -> <-. apply (IH _ _ _ Hl).
Qed.

Lemma not_prepare_entry ph t n :
  ph ≠ PhPrepareChild → Forall (λ e, is_hook ph e = true) t →
  returned PhPrepareChild false n ∉ hook_log t.
Proof.
  intros Hne Hall Hin. apply hook_log_phase in Hall.
  rewrite Forall_forall in Hall. apply Hall in Hin. simpl in Hin. congruence.
Qed.

Lemma engine_calls_sys c r t : engine_calls (ESys (c, r) :: t) = c :: engine_calls t.
Proof. reflexivity. Qed.

Lemma hook_log_sys e t : hook_log (ESys e :: t) = hook_log t.
Proof. reflexivity. Qed.

Lemma engine_events_app t1 t2 :
  engine_events (t1 ++ t2) = engine_events t1 ++ engine_events t2.
Proof. unfold engine_events. apply omap_app. Qed.

Lemma engine_events_hooks ph t :
  Forall (λ e, is_hook ph e = true) t → engine_events t = [].
Proof.
  induction 1 as [|e t He _ IH]; [reflexivity|].
  destruct e; [discriminate He | exact IH].
Qed.

(** X9.  In the parent, the calls of the engine itself are, in order:
    [pipe], [fork], the close of the write end (the second descriptor that
    [pipe] gave), a SIGKILL to the child exactly when a [prepareChild] hook
    returned false, the blocking [waitpid] on the child, the reads of the
    read end (the first descriptor that [pipe] gave) up to the first empty
    one, and the close of the read end.  A failed preparation does not end
    the run: the child is still waited for. *)
Theorem run_parent_calls mgr os h res mgr' t :
  runProg (run mgr) os h = (Val (res, mgr'), t) →
  0 < childPid res →
  let pid := childPid res in
  ∃ p (killed : bool),
    hd_error (engine_events t) = Some (CPipe, p) ∧
    engine_calls t =
      [CPipe; CFork; CClose (nth 1 (out p) (-1))]
      ++ (if killed then [CKill pid K.SIGKILL] else [])
      ++ [CWaitpid pid 0]
      ++ replicate (S (length (read_chunks (pipe_data os)))) (CRead (nth 0 (out p) (-1)) 4095)
      ++ [CClose (nth 0 (out p) (-1))] ∧
    (killed = true ↔ ∃ n, returned PhPrepareChild false n ∈ hook_log t).
Proof.
  intros H Hpos pid. subst pid.
  unfold run, initializeModules, prepareChildProcess, cleanupModules in H.
  eng_abs H; injection H as <- <- <-; try (simpl in Hpos; lia).
  all: rewrite interpret_status_childPid; cbn [childPid].
  all: match goal with
       | Hi : runProg (initializeModules_loop _ _) _ _ = _,
         Hp : runProg (prepareChildProcess_loop _ _) _ _ = (Val (?b, ?s0), _),
         Hd : runProg (drain _) _ _ = _,
         Hc : runProg (cleanupModules_loop _ _ _) _ _ = _ |- _ =>
           pose proof (sat_trace _ _ _ _ _ _ _
                         (initializeModules_loop_events _ (λ e, is_hook PhInitialize e = true)
                            _ _ (λ _ _ _, eq_refl)) Hi) as Hei;
           pose proof (sat_trace _ _ _ _ _ _ _
                         (cleanupModules_loop_events _ (λ e, is_hook PhCleanup e = true)
                            _ _ _ (λ _ _ _, eq_refl)) Hc) as Hec;
           pose proof (same_engine_childPid _ _ (prepareChildProcess_loop_same _ _ _ _ _ _ _ Hp))
             as Hpid;
           pose proof (same_engine_pipeFd _ _ (prepareChildProcess_loop_same _ _ _ _ _ _ _ Hp))
             as Hfd;
           destruct (prepareChildProcess_loop_log _ _ _ _ _ _ _ Hp) as [Hpc Hpl];
           destruct (drain_spec _ _ _ _ _ Hd) as (_ & Hdc & Hdl);
           match goal with
           | |- context [ESys (CPipe, ?p)] => exists p, (negb b)
           end
       end.
  all: simpl in Hpid, Hfd.
  all: split;
    [rewrite engine_events_app, (engine_events_hooks _ _ Hei); reflexivity|].
  all: repeat first
         [ rewrite engine_calls_app | rewrite hook_log_app
         | rewrite engine_calls_sys | rewrite hook_log_sys
         | rewrite Hpc | rewrite Hdc | rewrite Hdl
         | rewrite (engine_calls_hooks _ _ Hei) | rewrite (engine_calls_hooks _ _ Hec)
         | rewrite app_nil_r | rewrite app_nil_l ].
  all: rewrite ?Hpid, ?Hfd; simpl.
  all: repeat match goal with
       | Hb : negb ?b = true |- _ => apply negb_true_iff in Hb; subst b
       | Hb : negb ?b = false |- _ => apply negb_false_iff in Hb; subst b
       end.
  all: split; [reflexivity|].
  all: split; try discriminate; try (intros _; reflexivity).
  - intros _. destruct (proj1 Hpl eq_refl) as [n Hn]. exists n.
    rewrite !elem_of_app. right. left. exact Hn.
  - intros [n Hn]. exfalso. rewrite !elem_of_app in Hn.
    destruct Hn as [Hn|[Hn|Hn]].
    + eapply not_prepare_entry; [|exact Hei|exact Hn]. discriminate.
    + assert (true = false) as Habs by (apply Hpl; exists n; exact Hn).
      discriminate Habs.
    + eapply not_prepare_entry; [|exact Hec|exact Hn]. discriminate.
Qed.

Lemma run_parent_calls_witness :
  let r := runProg (run (default_manager createDefaultConfig)) (os_ok 42 ["out"]) [] in
  ∃ killed : bool,
    engine_calls r.2 =
      [CPipe; CFork; CClose 4]
      ++ (if killed then [CKill 42 K.SIGKILL] else [])
      ++ [CWaitpid 42 0] ++ replicate 2 (CRead 3 4095) ++ [CClose 3].
Proof.
  intros r.
  assert (option_map childPid (run_result r) = Some 42) as Hc by (vm_compute; reflexivity).
  assert (hd_error (engine_events r.2) = Some (CPipe, mkRet 0 [3; 4] "")) as Hp
    by (vm_compute; reflexivity).
  destruct r as [[[res mgr']|c|] tr] eqn:Hr; try discriminate Hc.
  injection Hc as Hc. simpl in Hp.
  destruct (run_parent_calls _ _ _ _ _ _ Hr ltac:(rewrite Hc; reflexivity))
    as (p & killed & Hpipe & Hcalls & _).
  rewrite Hp in Hpipe. injection Hpipe as <-.
  exists killed. rewrite Hc in Hcalls. exact Hcalls.
Defined.

Lemma interpret_status_stdout w c st base :
  stdout (interpret_status w c st base) = stdout base.
Proof.
  unfold interpret_status.
  destruct (w =? c), (WIFEXITED st), (WIFSIGNALED st); reflexivity.
Qed.

(** X10.  The output that a result carries is what the parent read from
    the pipe until the first empty read, every chunk cut at its first NUL
    character; it does not depend on how the child ended. *)
Theorem run_captures_pipe_chunks mgr os h res mgr' t :
  runProg (run mgr) os h = (Val (res, mgr'), t) →
  0 < childPid res →
  stdout res = captured (pipe_data os).
Proof.
  intros H Hpos.
  unfold run, initializeModules, prepareChildProcess, cleanupModules in H.
  eng_abs H; injection H as <- <- <-; try (simpl in Hpos; lia).
  all: rewrite interpret_status_stdout; cbn [stdout].
  all: match goal with
       | Hd : runProg (drain _) _ _ = _ |- _ =>
           destruct (drain_spec _ _ _ _ _ Hd) as (Hs & _ & _); exact Hs
       end.
Qed.

Lemma run_captures_pipe_chunks_witness :
  let r := runProg (run (default_manager createDefaultConfig))
             (os_ok 42 ["ab"; String "c" (String Ascii.zero "d"); ""; "e"]) [] in
  option_map stdout (run_result r) = Some "abc".
Proof.
  intros r.
  assert (option_map childPid (run_result r) = Some 42) as Hc by (vm_compute; reflexivity).
  destruct r as [[[res mgr']|c|] tr] eqn:Hr; try discriminate Hc.
  injection Hc as Hc.
  unfold run_result. simpl.
  rewrite (run_captures_pipe_chunks _ _ _ _ _ _ Hr ltac:(rewrite Hc; reflexivity)).
  reflexivity.
Defined.

(** ** Creating a directory with its parents *)

Lemma mkdirRecursive_loop_nil mode cur :
  Syscall.mkdirRecursive_loop mode cur [] = mret true.
Proof. reflexivity. Qed.

Lemma mkdirRecursive_loop_cons mode cur token rest :
  Syscall.mkdirRecursive_loop mode cur (token :: rest) =
  Syscall.exists_ (cur +:+ "/" +:+ token)
  ≫= λ ex : bool,
       if ex then Syscall.mkdirRecursive_loop mode (cur +:+ "/" +:+ token) rest
       else call (CMkdir (cur +:+ "/" +:+ token) mode)
            ≫= λ r, if rv r <? 0 then mret false
                     else Syscall.mkdirRecursive_loop mode (cur +:+ "/" +:+ token) rest.
Proof. reflexivity. Qed.

Lemma mkdirRecursive_loop_spec mode tokens cur os h o t :
  runProg (Syscall.mkdirRecursive_loop mode cur tokens) os h = (o, t) →
  ∃ ok k,
    o = Val ok ∧
    List.filter is_exists (calls_of t) = map CExists (take k (visited_paths cur tokens)) ∧
    (ok = true → k = length tokens ∧ existsb failed_mkdir t = false) ∧
    (ok = false → ∃ t0 p r, t = t0 ++ [(CMkdir p mode, r)] ∧ rv r < 0) ∧
    (∀ p m, CMkdir p m ∈ calls_of t →
       m = mode ∧ ∃ r, (CExists p, r) ∈ t ∧ rv r = 0).
Proof.
  revert cur h o t. induction tokens as [|tok rest IH]; intros cur h o t Hr.
  - rewrite mkdirRecursive_loop_nil, run_ret in Hr. injection Hr as <- <-.
    exists true, 0%nat. split; [reflexivity|]. split; [reflexivity|].
    split; [auto|]. split; [discriminate|]. intros p m Hin. inversion Hin.
  - rewrite mkdirRecursive_loop_cons in Hr. unfold Syscall.exists_ in Hr.
    rewrite !run_bind, run_call in Hr. cbv beta iota in Hr.
    set (p0 := cur +:+ "/" +:+ tok) in *.
    set (r0 := answer os h (CExists p0)) in *.
    rewrite run_ret in Hr. cbv beta iota in Hr.
    destruct (rv r0 =? 0) eqn:Hex; cbn [negb] in Hr; cbv beta iota in Hr.
    + rewrite run_bind, run_call in Hr. cbv beta iota in Hr.
      match type of Hr with context [(CMkdir p0 mode, ?a)] => set (r1 := a) in * end.
      destruct (rv r1 <? 0) eqn:Hmk.
      * rewrite run_ret in Hr. injection Hr as <- <-.
        exists false, 1%nat. split; [reflexivity|]. split; [reflexivity|].
        split; [discriminate|]. split.
        -- intros _. exists [(CExists p0, r0)], p0, r1. split; [reflexivity|].
           apply Z.ltb_lt. exact Hmk.
        -- intros p m Hin. simpl in Hin.
           apply elem_of_cons in Hin as [Heq|Hin]; [discriminate Heq|].
           apply list_elem_of_singleton in Hin. injection Hin as -> ->.
           split; [reflexivity|]. exists r0. split; [left | apply Z.eqb_eq; exact Hex].
      * destruct (runProg (Syscall.mkdirRecursive_loop mode p0 rest) os _) as [o2 t2] eqn:Hl.
        injection Hr as <- <-.
        destruct (IH _ _ _ _ Hl) as (ok & k & -> & Hf & Hok & Hfail & Hmkd).
        exists ok, (S k). split; [reflexivity|].
        split; [simpl; f_equal; exact Hf|].
        split; [intros Hk; destruct (Hok Hk) as [-> Hnf]; split; [reflexivity|];
                simpl; unfold failed_mkdir at 1; simpl; rewrite Hmk; exact Hnf|].
        split.
        -- intros Hk. destruct (Hfail Hk) as (t0 & p & r & -> & Hr').
           exists ((CExists p0, r0) :: (CMkdir p0 mode, r1) :: t0), p, r.
           split; [reflexivity | exact Hr'].
        -- intros p m Hin. simpl in Hin.
           apply elem_of_cons in Hin as [Heq|Hin]; [discriminate Heq|].
           apply elem_of_cons in Hin as [Heq|Hin].
           ++ injection Heq as -> ->. split; [reflexivity|].
              exists r0. split; [left | apply Z.eqb_eq; exact Hex].
           ++ destruct (Hmkd p m Hin) as [-> (r & Hin' & Hrv)].
              split; [reflexivity|]. exists r. split; [do 2 right; exact Hin' | exact Hrv].
    + destruct (runProg (Syscall.mkdirRecursive_loop mode p0 rest) os _) as [o2 t2] eqn:Hl.
      injection Hr as <- <-.
      destruct (IH _ _ _ _ Hl) as (ok & k & -> & Hf & Hok & Hfail & Hmkd).
      exists ok, (S k). split; [reflexivity|].
      split; [simpl; f_equal; exact Hf|].
      split; [intros Hk; destruct (Hok Hk) as [-> Hnf]; split; [reflexivity | exact Hnf]|].
      split.
      -- intros Hk. destruct (Hfail Hk) as (t0 & p & r & -> & Hr').
         exists ((CExists p0, r0) :: t0), p, r. split; [reflexivity | exact Hr'].
      -- intros p m Hin. simpl in Hin.
         apply elem_of_cons in Hin as [Heq|Hin]; [discriminate Heq|].
         destruct (Hmkd p m Hin) as [-> (r & Hin' & Hrv)].
         split; [reflexivity|]. exists r. split; [right; exact Hin' | exact Hrv].
Qed.

Lemma string_app_assoc (a b c : string) : (a +:+ b) +:+ c = a +:+ b +:+ c.
Proof.
  induction a as [|x a IH]; [reflexivity|].
  change (String x ((a +:+ b) +:+ c) = String x (a +:+ b +:+ c)). rewrite IH. reflexivity.
Qed.

Lemma visited_paths_rooted cur tokens :
  Forall (λ p, ∃ rest, p = cur +:+ "/" +:+ rest) (visited_paths cur tokens).
Proof.
  revert cur. induction tokens as [|tok rest IH]; intros cur; simpl; [constructor|].
  constructor; [eauto|].
  eapply Forall_impl; [apply IH|]. intros p [r ->].
  exists (tok +:+ "/" +:+ r).
  rewrite !string_app_assoc. reflexivity.
Qed.

Lemma mkdirRecursive_walks_root_helper path os h o t :
  runProg (Syscall.mkdirRecursive path) os h = (o, t) →
  ∃ k, List.filter is_exists (calls_of t) =
       map CExists (take k (visited_paths "" (getline_tokens path))).
Proof.
  intros Hr. unfold Syscall.mkdirRecursive in Hr.
  destruct (mkdirRecursive_loop_spec _ _ _ _ _ _ _ Hr) as (ok & k & _ & Hf & _).
  exists k. exact Hf.
Qed.

(** X11.  [mkdirRecursive] walks the path from the root: the paths it
    tests are [/a], [/a/b], ... for the segments [a], [b], ... of its
    argument, so that a relative path is created under the root and an
    empty path needs nothing.  It calls [mkdir] (mode 0755) only on a path
    just reported missing, it fails exactly when a [mkdir] fails, and then
    makes no further call. *)
Theorem mkdirRecursive_walks_from_root path os h o t :
  runProg (Syscall.mkdirRecursive path) os h = (o, t) →
  let paths := visited_paths "" (getline_tokens path) in
  ∃ ok k,
    o = Val ok ∧
    List.filter is_exists (calls_of t) = map CExists (take k paths) ∧
    Forall (λ p, ∃ rest, p = "/" +:+ rest) paths ∧
    (ok = true → k = length paths ∧ existsb failed_mkdir t = false) ∧
    (ok = false → ∃ t0 p r, t = t0 ++ [(CMkdir p 493, r)] ∧ rv r < 0) ∧
    (∀ p m, CMkdir p m ∈ calls_of t → m = 493 ∧ ∃ r, (CExists p, r) ∈ t ∧ rv r = 0) ∧
    (path = "" → t = []).
Proof.
  intros Hr paths. unfold Syscall.mkdirRecursive in Hr.
  destruct (mkdirRecursive_loop_spec _ _ _ _ _ _ _ Hr) as (ok & k & -> & Hf & Hok & Hfail & Hmk).
  exists ok, k. split; [reflexivity|]. split; [exact Hf|].
  split; [apply (visited_paths_rooted "")|].
  split.
  { intros Hk. destruct (Hok Hk) as [-> Hnf]. split; [|exact Hnf].
    unfold paths. clear. generalize "". induction (getline_tokens path); intros; simpl; auto. }
  split; [exact Hfail|]. split; [exact Hmk|].
  intros ->. change (getline_tokens "") with (@nil string) in Hr.
  rewrite mkdirRecursive_loop_nil, run_ret in Hr. injection Hr as _ <-. reflexivity.
Qed.

Lemma mkdirRecursive_walks_from_root_witness :
  let r := runProg (Syscall.mkdirRecursive "a/b") (os_host host_dirs) [] in
  ∃ k, List.filter is_exists (calls_of r.2) = map CExists (take k ["/a"; "/a/b"]).
Proof.
  intros r.
  destruct (mkdirRecursive_walks_from_root "a/b" (os_host host_dirs) [] r.1 r.2
              (surjective_pairing r)) as (ok & k & _ & Hf & _).
  exists k. exact Hf.
Defined.

(** Splits a literal trace into its last event and what is before. *)
Ltac split_last :=
  first
    [ eexists [], _; split; [reflexivity|]
    | eexists [_], _; split; [reflexivity|]
    | eexists [_; _], _; split; [reflexivity|]
    | eexists [_; _; _], _; split; [reflexivity|]
    | eexists [_; _; _; _], _; split; [reflexivity|]
    | eexists [_; _; _; _; _], _; split; [reflexivity|]
    | eexists [_; _; _; _; _; _], _; split; [reflexivity|] ].

(** ** The Namespaces module in the child *)

(** X12.  After [initialize], a successful [Namespaces::applyChild] makes
    exactly the calls that the requested namespaces select, in this
    order: for [user] the writes of [setgroups], [uid_map] and [gid_map]
    (a line is "container host count"), for [pid] the mount of [/proc],
    for [mount] the mount of [/sys], for [uts] [sethostname].  It fails
    exactly when its last call is a failed write of [uid_map] or [gid_map]
    or a failed mount of [/proc]; the other calls may fail. *)
Theorem namespaces_applyChild_calls config m0 os h0 m1 t0 h ok m2 t :
  runProg (Namespaces.initialize config m0) os h0 = (Val (true, m1), t0) →
  runProg (Namespaces.applyChild config m1) os h = (Val (ok, m2), t) →
  t0 = [] ∧
  (ok = true → calls_of t = namespace_calls config ∧ existsb namespace_fatal t = false) ∧
  (ok = false → ∃ t1 e, t = t1 ++ [e] ∧ namespace_fatal e = true ∧
                 calls_of t `prefix_of` namespace_calls config).
Proof.
  intros Hi Ha.
  unfold Namespaces.initialize in Hi. rewrite run_ret in Hi. injection Hi as <- <-.
  split; [reflexivity|].
  unfold Namespaces.applyChild, Namespaces.applyUserNamespace, namespace_calls,
    id_map_line in *.
  cbn [Namespaces.userNsEnabled_] in Ha.
  destruct (Namespaces.hasNamespace "user" config),
           (Namespaces.hasNamespace "pid" config),
           (Namespaces.hasNamespace "mount" config),
           (Namespaces.hasNamespace "uts" config).
  all: run_inv Ha; injection Ha as <- <- <-.
  all: repeat match goal with
       | Hb : negb _ = true |- _ => apply negb_true_iff in Hb
       | Hb : negb _ = false |- _ => apply negb_false_iff in Hb
       end.
  all: split; intros Hok; try discriminate Hok.
  all: try (split; [reflexivity|]; simpl;
            unfold namespace_fatal; simpl;
            repeat match goal with Hb : _ = _ |- _ => rewrite Hb end; reflexivity).
  all: split_last;
    (split; [unfold namespace_fatal; simpl;
             repeat match goal with Hb : _ = _ |- _ => rewrite Hb end; reflexivity
            | simpl; eexists; reflexivity ]).
Qed.

Lemma namespaces_applyChild_calls_witness :
  let m1 := {| Namespaces.state_ := ModuleState.INITIALIZED;
               Namespaces.userNsEnabled_ := true |} in
  let r := runProg (Namespaces.applyChild createDefaultConfig m1) (os_ok 0 []) [] in
  calls_of r.2 = namespace_calls createDefaultConfig.
Proof.
  intros m1 r.
  assert (r = (Val (true, {| Namespaces.state_ := ModuleState.RUNNING;
                             Namespaces.userNsEnabled_ := true |}), r.2)) as Hr
    by (vm_compute; reflexivity).
  exact (proj1 (proj1 (proj2 (namespaces_applyChild_calls createDefaultConfig
                                Namespaces.new (os_ok 0 []) [] m1 [] [] true _ r.2
                                eq_refl Hr)) eq_refl)).
Defined.

(** ** Failures of the Cgroups module *)

Lemma mkdirRecursive_loop_no_write mode cur tokens os h o t :
  runProg (Syscall.mkdirRecursive_loop mode cur tokens) os h = (o, t) →
  Forall (λ e, is_exists e.1 = true ∨ is_mkdir e.1 = true) t.
Proof.
  intros Hr.
  eapply (sat_trace os (calls_only (λ c, is_exists c = true ∨ is_mkdir c = true)));
    [|exact Hr].
  apply mkdirRecursive_loop_calls; intros; [left | right]; reflexivity.
Qed.

Lemma eqb_app_same (a x y : string) : String.eqb (a +:+ x) (a +:+ y) = String.eqb x y.
Proof.
  induction a as [|c a IH]; [reflexivity|].
  change (String.eqb (String c (a +:+ x)) (String c (a +:+ y)) = String.eqb x y).
  simpl. rewrite Ascii.eqb_refl. exact IH.
Qed.

Lemma existsb_app_false {A} (f : A → bool) l1 l2 :
  existsb f l1 = false → existsb f l2 = false → existsb f (l1 ++ l2) = false.
Proof. intros H1 H2. rewrite existsb_app, H1, H2. reflexivity. Qed.

Lemma cgroup_fatal_mkdir_trace m t :
  Forall (λ e, is_exists e.1 = true ∨ is_mkdir e.1 = true) t →
  existsb failed_mkdir t = false → existsb (cgroup_fatal m) t = false.
Proof.
  induction 1 as [|[c r] t He _ IH]; [reflexivity|]. simpl. intros Hf.
  apply orb_false_iff in Hf as [Hf1 Hf2]. rewrite (IH Hf2), orb_false_r.
  unfold cgroup_fatal, failed_mkdir in *. simpl in *.
  destruct c; simpl in *; try reflexivity; try exact Hf1.
  destruct He as [He|He]; discriminate He.
Qed.

(** X13.  [Cgroups::initialize] names its group ["sandbox-<name>-<pid>"]
    under the hierarchy of the object, whatever its result.  It fails
    exactly when its last call is a fatal one that failed: a [mkdir] of
    the directory chain or the write of [memory.max], [cpu.max] or
    [pids.max].  Failing to write [memory.swap.max] or [memory.high] never
    makes it fail. *)
Theorem cgroups_initialize_failures config m os h ok m' t :
  runProg (Cgroups.initialize config m) os h = (Val (ok, m'), t) →
  (∃ r t1, t = (CGetpid, r) :: t1 ∧
     Cgroups.cgroupName_ m' = "sandbox-" +:+ name (sandbox config) +:+ "-" +:+ to_string (rv r)) ∧
  Cgroups.cgroupFullPath_ m' = Cgroups.cgroupPath_ m +:+ "/" +:+ Cgroups.cgroupName_ m' ∧
  (ok = true → existsb (cgroup_fatal m') t = false) ∧
  (ok = false → ∃ t0 e, t = t0 ++ [e] ∧ cgroup_fatal m' e = true).
Proof.
  intros H. unfold Cgroups.initialize, Cgroups.createCgroup, Cgroups.setMemoryLimits,
    Cgroups.setCpuLimits, Cgroups.setPidLimits, Syscall.mkdirRecursive in H.
  run_inv H; injection H as <- <- <-.
  all: split; [eexists _, _; split; reflexivity|].
  all: split; [reflexivity|].
  all: repeat match goal with
       | Hb : negb _ = true |- _ => apply negb_true_iff in Hb
       | Hb : negb _ = false |- _ => apply negb_false_iff in Hb
       end; subst.
  all: match goal with
       | Hl : runProg (Syscall.mkdirRecursive_loop _ _ _) _ _ = (Val _, ?l) |- _ =>
           pose proof (mkdirRecursive_loop_no_write _ _ _ _ _ _ _ Hl) as Hnw;
           destruct (mkdirRecursive_loop_spec _ _ _ _ _ _ _ Hl)
             as (ok0 & k0 & Hok0 & _ & Htrue & Hfalse & _);
           injection Hok0 as <-
       end.
  all: split; intros Hok; try discriminate Hok.
  all: try (destruct (Hfalse eq_refl) as (t0 & p & r' & -> & Hrv);
            eexists (_ :: t0), _; split; [rewrite ?app_nil_r; reflexivity|];
            unfold cgroup_fatal; simpl; apply Z.ltb_lt; exact Hrv).
  all: try (destruct (Htrue eq_refl) as [_ Hnf]).
  all: try (rewrite ?app_nil_r;
            match goal with
            | |- ∃ t0 e, ?x :: (?l ++ ?lit) = t0 ++ [e] ∧ _ =>
                let pre := eval cbn [removelast] in (removelast lit) in
                let lst := eval cbn [List.last] in (List.last lit x) in
                exists (x :: l ++ pre), lst; split;
                [rewrite <- app_comm_cons, <- app_assoc; reflexivity|]
            end;
            unfold cgroup_fatal, cgroup_file; simpl;
            rewrite ?eqb_app_same, ?String.eqb_refl, ?orb_true_r; simpl;
            repeat match goal with Hb : (_ =? _) = _ |- _ => rewrite Hb end;
            reflexivity).
  all: simpl; rewrite ?app_nil_r;
    repeat first [ apply existsb_app_false
                 | apply cgroup_fatal_mkdir_trace; assumption ];
    unfold cgroup_fatal, cgroup_file; simpl;
    rewrite ?eqb_app_same, ?String.eqb_refl; simpl;
    repeat match goal with Hb : (_ =? _) = _ |- _ => rewrite Hb end;
    simpl; rewrite ?andb_false_r, ?orb_false_r; reflexivity.
Qed.

Lemma cgroups_initialize_failures_witness :
  let r := runProg (Cgroups.initialize createDefaultConfig (Cgroups.new "/sys/fs/cgroup"))
             (os_ok 42 []) [] in
  existsb (cgroup_fatal cgroups_initialized) r.2 = false.
Proof.
  intros r.
  assert (r = (Val (true, cgroups_initialized), r.2)) as H by (vm_compute; reflexivity).
  exact (proj1 (proj2 (proj2 (cgroups_initialize_failures _ _ _ _ _ _ _ H))) eq_refl).
Defined.

Lemma string_empty_app a b : string_empty (a +:+ "/" +:+ b) = false.
Proof. destruct a; reflexivity. Qed.

Lemma cgroups_initialize_paths config m os h ok m1 t :
  runProg (Cgroups.initialize config m) os h = (Val (ok, m1), t) →
  Cgroups.cgroupFullPath_ m1 = Cgroups.cgroupPath_ m1 +:+ "/" +:+ Cgroups.cgroupName_ m1 ∧
  ∃ k, List.filter is_exists (calls_of t) =
       map CExists (take k (visited_paths "" (getline_tokens (Cgroups.cgroupFullPath_ m1)))).
Proof.
  intros Hi.
  unfold Cgroups.initialize, Cgroups.createCgroup, Cgroups.setMemoryLimits,
    Cgroups.setCpuLimits, Cgroups.setPidLimits, Syscall.mkdirRecursive in Hi.
  run_inv Hi; injection Hi as <- <- <-.
  all: split; [reflexivity|].
  all: match goal with
       | Hl : runProg (Syscall.mkdirRecursive_loop _ _ _) _ _ = _ |- _ =>
           destruct (mkdirRecursive_loop_spec _ _ _ _ _ _ _ Hl) as (ok0 & k & _ & Hf & _);
           exists k; simpl in Hf |- *
       end.
  all: rewrite ?app_nil_r, ?calls_of_app, ?List.filter_app, Hf; simpl;
    rewrite ?app_nil_r; reflexivity.
Qed.

(** X14.  [Cgroups::cleanup] after [initialize], successful or not,
    removes the directory that [initialize] set out to create, and nothing
    else; it reports success whatever the removal returned.  On an object
    that was never initialised it makes no call. *)
Theorem cgroups_cleanup_removes_group config m os h ok m1 t h1 o t1 :
  runProg (Cgroups.initialize config m) os h = (Val (ok, m1), t) →
  runProg (Cgroups.cleanup m1) os h1 = (o, t1) →
  (∃ k, List.filter is_exists (calls_of t) =
        map CExists (take k (visited_paths "" (getline_tokens (Cgroups.cgroupFullPath_ m1))))) ∧
  (∃ r, t1 = [(CRemoveAll (Cgroups.cgroupFullPath_ m1), r)]) ∧
  o = Val (true, Cgroups.set_state ModuleState.STOPPED m1) ∧
  ∀ p os' h', runProg (Cgroups.cleanup (Cgroups.new p)) os' h'
              = (Val (true, Cgroups.set_state ModuleState.STOPPED (Cgroups.new p)), []).
Proof.
  intros Hi Hc. destruct (cgroups_initialize_paths _ _ _ _ _ _ _ Hi) as [Hpath Hk].
  split; [exact Hk|].
  unfold Cgroups.cleanup in Hc. rewrite Hpath in Hc |- *.
  rewrite string_empty_app in Hc. cbn [negb] in Hc.
  unfold Syscall.removeCgroup, Syscall.removeRecursive in Hc.
  run_inv Hc. injection Hc as <- <-.
  split; [eexists; reflexivity|]. split; [reflexivity|].
  intros p os' h'. reflexivity.
Qed.

Lemma cgroups_cleanup_removes_group_witness :
  let r := runProg (Cgroups.cleanup cgroups_initialized) (os_ok 42 []) [] in
  ∃ a, r.2 = [(CRemoveAll "/sys/fs/cgroup/sandbox-sandbox-default-7", a)].
Proof.
  intros r.
  assert (runProg (Cgroups.initialize createDefaultConfig (Cgroups.new "/sys/fs/cgroup"))
            (os_ok 42 []) [] = (Val (true, cgroups_initialized),
              (runProg (Cgroups.initialize createDefaultConfig (Cgroups.new "/sys/fs/cgroup"))
                 (os_ok 42 []) []).2)) as Hi by (vm_compute; reflexivity).
  exact (proj1 (proj2 (cgroups_cleanup_removes_group _ _ _ _ _ _ _ [] r.1 r.2 Hi
                         (surjective_pairing r)))).
Defined.

(** ** Bind mounts *)

Lemma omap_bind_dirs t :
  Forall (λ e : SysEvent, is_exists e.1 = true ∨ is_mkdir e.1 = true) t →
  omap bind_succeeded t = [] ∧ List.filter is_mount (calls_of t) = [].
Proof.
  induction 1 as [|[c r] t He _ [IH1 IH2]]; [split; reflexivity|].
  destruct c; simpl in *; try (destruct He as [He|He]; discriminate He);
    split; assumption.
Qed.

Lemma applyBindMount_spec bm os h ok t :
  runProg (Mounts.applyBindMount bm) os h = (Val ok, t) →
  omap bind_succeeded t = (if ok then [bm_target bm] else []) ∧
  (ok = true →
   List.filter is_mount (calls_of t) =
   CMount (bm_source bm) (bm_target bm) "bind" K.MS_BIND None
   :: (if read_only bm
       then [CMount "" (bm_target bm) "bind"
               (Z.lor (Z.lor K.MS_BIND K.MS_REMOUNT) K.MS_RDONLY) None]
       else [])).
Proof.
  intros H. unfold Mounts.applyBindMount, Mounts.ensureMountTarget, Syscall.mkdirRecursive in H.
  destruct (read_only bm); run_inv H; injection H as <- <-.
  all: repeat match goal with
       | Hl : runProg (Syscall.mkdirRecursive_loop _ _ _) _ _ = _ |- _ =>
           apply mkdirRecursive_loop_no_write, omap_bind_dirs in Hl; destruct Hl as [? ?]
       | Hb : negb _ = true |- _ => apply negb_true_iff in Hb
       | Hb : negb _ = false |- _ => apply negb_false_iff in Hb
       end.
  all: rewrite ?app_nil_r.
  all: split; [|intros Hok; try discriminate Hok].
  all: repeat (progress
         (simpl;
          repeat match goal with
          | |- context [list_omap SysEvent string bind_succeeded ?x] =>
              change (list_omap SysEvent string bind_succeeded x)
                with (omap bind_succeeded x)
          end;
          rewrite ?omap_app, ?calls_of_app, ?List.filter_app;
          repeat match goal with
          | Hx : omap bind_succeeded _ = [] |- _ => rewrite Hx
          | Hx : List.filter is_mount _ = [] |- _ => rewrite Hx
          end)).
  all: repeat match goal with
       | Hb : (rv ?r <? 0) = true |- context [0 <=? rv ?r] =>
           replace (0 <=? rv r) with false by (apply Z.ltb_lt in Hb; lia)
       | Hb : (rv ?r <? 0) = false |- context [0 <=? rv ?r] =>
           replace (0 <=? rv r) with true by (apply Z.ltb_ge in Hb; lia)
       end.
  all: simpl; rewrite ?app_nil_r; try reflexivity.
Qed.

Lemma mounts_applyChild_loop_nil m :
  Mounts.applyChild_loop [] m =
  mret (true, {| Mounts.state_ := ModuleState.RUNNING;
                 Mounts.config_mounts_ := Mounts.config_mounts_ m;
                 Mounts.activeMounts_ := Mounts.activeMounts_ m |}).
Proof. reflexivity. Qed.

Lemma mounts_applyChild_loop_cons mount rest m :
  Mounts.applyChild_loop (mount :: rest) m =
  Mounts.applyBindMount mount
  ≫= λ ok : bool,
       if negb ok then mret (false, m)
       else Mounts.applyChild_loop rest
              {| Mounts.state_ := Mounts.state_ m;
                 Mounts.config_mounts_ := Mounts.config_mounts_ m;
                 Mounts.activeMounts_ :=
                   Mounts.activeMounts_ m
                   ++ [{| Mounts.mi_source := bm_source mount;
                          Mounts.mi_target := bm_target mount;
                          Mounts.mi_fstype := "bind"; Mounts.mi_flags := K.MS_BIND;
                          Mounts.mi_readOnly := read_only mount |}] |}.
Proof. reflexivity. Qed.

Lemma mounts_cleanup_loop_nil : Mounts.cleanup_loop [] = mret tt.
Proof. reflexivity. Qed.

Lemma mounts_cleanup_loop_cons info rest :
  Mounts.cleanup_loop (info :: rest) =
  Syscall.unmount (Mounts.mi_target info) 0 ≫= λ _, Mounts.cleanup_loop rest.
Proof. reflexivity. Qed.

Lemma mounts_applyChild_loop_spec todo m os h ok m1 t :
  runProg (Mounts.applyChild_loop todo m) os h = (Val (ok, m1), t) →
  ∃ k, (k <= length todo)%nat ∧ (ok = true ↔ k = length todo) ∧
       map Mounts.mi_target (Mounts.activeMounts_ m1) =
         map Mounts.mi_target (Mounts.activeMounts_ m) ++ map bm_target (take k todo) ∧
       omap bind_succeeded t = map bm_target (take k todo).
Proof.
  revert m h t. induction todo as [|bm rest IH]; intros m h t Hr.
  - rewrite mounts_applyChild_loop_nil, run_ret in Hr. injection Hr as <- <- <-.
    exists 0%nat. split; [reflexivity|]. split; [tauto|]. simpl.
    rewrite app_nil_r. split; reflexivity.
  - rewrite mounts_applyChild_loop_cons, run_bind in Hr.
    destruct (runProg (Mounts.applyBindMount bm) os h) as [[ok1|c|] t1] eqn:Hb;
      [|discriminate Hr..].
    destruct (applyBindMount_spec _ _ _ _ _ Hb) as [Hom _].
    destruct ok1; cbn [negb] in Hr; cbv beta iota in Hr.
    + destruct (runProg (Mounts.applyChild_loop rest _) os _) as [o2 t2] eqn:Hl.
      injection Hr as -> <-.
      destruct (IH _ _ _ Hl) as (k & Hk & Hiff & Hact & Hsucc).
      exists (S k). split; [simpl; lia|]. split; [simpl; rewrite Hiff; lia|].
      simpl in Hact |- *. rewrite omap_app, Hom, Hsucc, Hact.
      rewrite map_app, <- app_assoc. split; reflexivity.
    + rewrite run_ret in Hr. injection Hr as <- <- <-.
      exists 0%nat. split; [simpl; lia|]. split; [split; [discriminate | simpl; lia]|].
      simpl. rewrite !app_nil_r. split; [reflexivity | exact Hom].
Qed.

Lemma mounts_cleanup_loop_spec infos os h o t :
  runProg (Mounts.cleanup_loop infos) os h = (o, t) →
  o = Val tt ∧ calls_of t = map (λ i, CUmount2 (Mounts.mi_target i) 0) infos.
Proof.
  revert h o t. induction infos as [|i rest IH]; intros h o t Hr.
  - rewrite mounts_cleanup_loop_nil, run_ret in Hr. injection Hr as <- <-.
    split; reflexivity.
  - rewrite mounts_cleanup_loop_cons in Hr. unfold Syscall.unmount in Hr.
    rewrite !run_bind, run_call in Hr. cbv beta iota in Hr.
    rewrite run_ret in Hr. cbv beta iota in Hr.
    destruct (runProg (Mounts.cleanup_loop rest) os _) as [o2 t2] eqn:Hl.
    injection Hr as <- <-. destruct (IH _ _ _ Hl) as [-> Hc].
    split; [reflexivity|]. simpl. f_equal. exact Hc.
Qed.

(** X15.  [Mounts::applyChild] applies the bind mounts of the
    configuration in order and stops at the first that fails; the mounts
    it records as active are exactly those whose bind mount succeeded.
    [Mounts::cleanup] then unmounts the recorded targets, last first,
    ignores the results, forgets them and reports success. *)
Theorem mounts_cleanup_undoes_applied config m os h ok m1 t h1 o t1 :
  runProg (Mounts.applyChild config m) os h = (Val (ok, m1), t) →
  runProg (Mounts.cleanup m1) os h1 = (o, t1) →
  let todo := bind_mounts (mounts config) in
  let before := map Mounts.mi_target (Mounts.activeMounts_ m) in
  ∃ k, (k <= length todo)%nat ∧ (ok = true ↔ k = length todo) ∧
    omap bind_succeeded t = map bm_target (take k todo) ∧
    calls_of t1 = map (λ tg, CUmount2 tg 0) (rev (before ++ map bm_target (take k todo))) ∧
    ∃ m2, o = Val (true, m2) ∧ Mounts.activeMounts_ m2 = [].
Proof.
  intros Ha Hc todo before. unfold Mounts.applyChild in Ha.
  destruct (mounts_applyChild_loop_spec _ _ _ _ _ _ _ Ha) as (k & Hk & Hiff & Hact & Hsucc).
  exists k. split; [exact Hk|]. split; [exact Hiff|]. split; [exact Hsucc|].
  unfold Mounts.cleanup in Hc. rewrite run_bind in Hc.
  destruct (runProg (Mounts.cleanup_loop _) os h1) as [o1 t2] eqn:Hl.
  destruct (mounts_cleanup_loop_spec _ _ _ _ _ Hl) as [-> Hcalls].
  rewrite run_ret in Hc. injection Hc as <- <-.
  split; [|eexists; split; reflexivity].
  rewrite app_nil_r, Hcalls. unfold before, todo. rewrite <- Hact.
  rewrite <- map_rev, map_map. reflexivity.
Qed.

Lemma mounts_cleanup_undoes_applied_witness :
  let m := {| Mounts.state_ := ModuleState.INITIALIZED;
              Mounts.config_mounts_ := bind_mounts (mounts createDefaultConfig);
              Mounts.activeMounts_ := [] |} in
  let a := runProg (Mounts.applyChild createDefaultConfig m) (os_ok 0 []) [] in
  ∃ m1, a.1 = Val (true, m1) ∧
    calls_of (runProg (Mounts.cleanup m1) (os_ok 0 []) a.2).2 =
    map (λ tg, CUmount2 tg 0)
      (rev (map bm_target (bind_mounts (mounts createDefaultConfig)))).
Proof.
  intros m a.
  assert (∃ m1, a = (Val (true, m1), a.2)) as [m1 Ha] by (eexists; vm_compute; reflexivity).
  exists m1. split; [rewrite Ha; reflexivity|].
  destruct (mounts_cleanup_undoes_applied _ _ _ _ _ _ _ a.2 _ _ Ha (surjective_pairing _))
    as (k & _ & Hk & _ & Hc & _).
  rewrite (proj1 Hk eq_refl), firstn_all in Hc. exact Hc.
Defined.
Lemma bind_succeeded_plain src tgt r :
  0 <= rv r → bind_succeeded (CMount src tgt "bind" K.MS_BIND None, r) = Some tgt.
Proof.
  intros Hr. unfold bind_succeeded.
  replace (0 <=? rv r) with true by lia. reflexivity.
Qed.

(** X16.  [Mounts::applyBindMount] succeeds exactly when its plain bind
    mount of the source on the target succeeded.  For a read-only mount
    the remount with [MS_BIND | MS_REMOUNT | MS_RDONLY] is then the last
    call, and its result is not looked at: when the remount is refused
    the mount stays writable and is still reported as applied. *)
Theorem applyBindMount_decided_by_bind bm os h ok t :
  runProg (Mounts.applyBindMount bm) os h = (Val ok, t) →
  (ok = true ↔
   ∃ r, (CMount (bm_source bm) (bm_target bm) "bind" K.MS_BIND None, r) ∈ t ∧ 0 <= rv r) ∧
  (ok = true → read_only bm = true →
   ∃ t0 r, t = t0 ++ [(CMount "" (bm_target bm) "bind"
                         (Z.lor (Z.lor K.MS_BIND K.MS_REMOUNT) K.MS_RDONLY) None, r)]).
Proof.
  intros H. pose proof (applyBindMount_spec _ _ _ _ _ H) as [Hom _].
  split; [split|].
  - intros ->. clear Hom.
    unfold Mounts.applyBindMount, Mounts.ensureMountTarget, Syscall.mkdirRecursive in H.
    destruct (read_only bm); run_inv H; try discriminate H; injection H as <-.
    all: match goal with
         | Hb : negb (negb (rv ?r0 <? 0)) = false |- _ =>
             exists r0; split;
             [rewrite ?elem_of_cons, ?elem_of_app, ?elem_of_cons; tauto
             |destruct (Z.ltb_spec (rv r0) 0); [discriminate Hb | assumption]]
         end.
  - intros [r [Hin Hr]]. destruct ok; [reflexivity|]. exfalso.
    assert (bm_target bm ∈ omap bind_succeeded t) as Hin'.
    { apply list_elem_of_omap. eexists. split; [exact Hin|].
      apply bind_succeeded_plain, Hr. }
    rewrite Hom in Hin'. inversion Hin'.
  - intros -> Hro. clear Hom.
    unfold Mounts.applyBindMount, Mounts.ensureMountTarget, Syscall.mkdirRecursive in H.
    rewrite Hro in H. run_inv H; try discriminate H; injection H as <-.
    all: first
           [ eexists [_; _], _; reflexivity
           | repeat match goal with
                    | |- context [?l ++ [?a; ?b]] =>
                        change (l ++ [a; b]) with (l ++ [a] ++ [b])
                    end;
             rewrite ?app_comm_cons, ?app_assoc; eexists _, _; reflexivity ].
Qed.

Lemma applyBindMount_decided_by_bind_witness :
  let bm := {| bm_source := "/data"; bm_target := "/mnt/data"; read_only := true |} in
  let r := runProg (Mounts.applyBindMount bm) os_remount_denied [] in
  option_map (λ e : SysEvent, rv e.2) (last r.2) = Some (-1) ∧
  ∃ t0 a, r.2 = t0 ++ [(CMount "" "/mnt/data" "bind"
                          (Z.lor (Z.lor K.MS_BIND K.MS_REMOUNT) K.MS_RDONLY) None, a)].
Proof.
  intros bm r. split; [vm_compute; reflexivity|].
  assert (r = (Val true, r.2)) as H by (vm_compute; reflexivity).
  exact (proj2 (applyBindMount_decided_by_bind bm _ _ _ _ H) eq_refl eq_refl).
Defined.

(** ** The Caps module in the child *)

Lemma ambient_loop_nil amb : Caps.ambient_loop [] amb = mret amb.
Proof. reflexivity. Qed.

Lemma ambient_loop_cons c rest amb :
  Caps.ambient_loop (c :: rest) amb =
  call (CCapUpdateAmbient c)
  ≫= λ r, Caps.ambient_loop rest (if rv r <? 0 then amb else true).
Proof. reflexivity. Qed.

Lemma ambient_loop_spec capList amb os h o t :
  runProg (Caps.ambient_loop capList amb) os h = (o, t) →
  o = Val (amb || existsb ambient_set t) ∧
  calls_of t = map CCapUpdateAmbient capList ∧
  List.filter is_cap_free (calls_of t) = [].
Proof.
  revert amb h o t. induction capList as [|c rest IH]; intros amb h o t H.
  - rewrite ambient_loop_nil, run_ret in H. injection H as <- <-.
    rewrite orb_false_r. repeat split.
  - rewrite ambient_loop_cons, run_bind, run_call in H. cbv beta iota in H.
    destruct (runProg (Caps.ambient_loop rest _) os _) as [o2 t2] eqn:Hl.
    injection H as <- <-. destruct (IH _ _ _ _ Hl) as (-> & Hc & Hf).
    split; [|split; [simpl; f_equal; exact Hc | simpl; exact Hf]].
    f_equal. unfold ambient_set. simpl.
    destruct (rv _ <? 0); simpl; [reflexivity|]. rewrite orb_true_r. reflexivity.
Qed.

(** X17.  [Caps::applyChild], for a configuration whose known capability
    names fit the 64 slots of [capList]: when [cap_get_proc] gives no
    handle it fails with no further call; otherwise it ends, on every
    path, with the one [cap_free] of the handle.  On success the calls are
    [cap_get_proc], [cap_clear], the three [cap_set_flag] on the same list
    (none for an empty list), [cap_set_proc], one [cap_update_ambient] per
    capability and [cap_free]; unknown names are skipped, a refused ambient
    capability is tolerated, and [ambientCapsEnabled_] is raised when one
    was set.  On failure the object is unchanged. *)
Theorem caps_applyChild_releases_handle config m os h o t :
  (length (Caps.collect (capabilities (security config))) <= 64)%nat →
  runProg (Caps.applyChild config m) os h = (o, t) →
  let capList := Caps.collect (capabilities (security config)) in
  ∃ ok m1 r t',
    o = Val (ok, m1) ∧ t = (CCapGetProc, r) :: t' ∧
    (rv r = 0 → ok = false ∧ t' = []) ∧
    (rv r ≠ 0 → ∃ t'' a, t' = t'' ++ [(CCapFree, a)] ∧
                         List.filter is_cap_free (calls_of t'') = []) ∧
    (ok = true →
       calls_of t = caps_apply_calls capList ∧
       Caps.ambientCapsEnabled_ m1 = Caps.ambientCapsEnabled_ m || existsb ambient_set t) ∧
    (ok = false → m1 = m).
Proof.
  intros _ H capList. unfold Caps.applyChild, Caps.set_flag in H. fold capList in H.
  destruct capList as [|c0 cl] eqn:Hcl; run_inv H; injection H as <- <-.
  all: try match goal with
       | Hl : runProg (Caps.ambient_loop _ _) _ _ = _ |- _ =>
           apply ambient_loop_spec in Hl; destruct Hl as (Ho & Hc & Hf);
           try discriminate Ho; injection Ho as ->
       end.
  all: eexists _, _, _, _; split; [reflexivity|]; split; [reflexivity|].
  all: repeat match goal with
       | Hb : (rv _ =? 0) = true |- _ => apply Z.eqb_eq in Hb
       | Hb : (rv _ =? 0) = false |- _ => apply Z.eqb_neq in Hb
       end.
  all: split; [intros Hz; first [split; reflexivity | contradiction]|].
  all: split; [intros Hz; try contradiction|].
  all: try (split; [intros Hok; try discriminate Hok | intros Hok; try discriminate Hok; reflexivity]).
  all: try match goal with
       | |- ∃ _ _, _ = _ ∧ _ =>
           first [ eexists [_], _; split; reflexivity
                 | eexists [_; _], _; split; reflexivity
                 | eexists [_; _; _], _; split; reflexivity
                 | eexists [_; _; _; _], _; split; reflexivity
                 | eexists [_; _; _; _; _], _; split; reflexivity
                 | rewrite ?app_comm_cons; eexists _, _; split; [reflexivity|];
                   simpl; exact Hf ]
       end.
  all: unfold caps_apply_calls; simpl; rewrite ?calls_of_app, ?Hc, ?existsb_app; simpl;
    rewrite ?orb_false_r; split; reflexivity.
Qed.

Lemma caps_applyChild_releases_handle_witness :
  let config :=
    with_capabilities ["CAP_NET_BIND_SERVICE"; "CAP_BOGUS"; "CAP_KILL"] createDefaultConfig in
  let r := runProg (Caps.applyChild config Caps.new) (os_ok 0 []) [] in
  calls_of r.2 = caps_apply_calls [10; 5].
Proof.
  intros config r.
  assert (length (Caps.collect (capabilities (security config))) <= 64)%nat as Hlen
    by (vm_compute; lia).
  destruct (caps_applyChild_releases_handle config Caps.new (os_ok 0 []) [] r.1 r.2
              Hlen (surjective_pairing r))
    as (ok & m1 & a & t' & Ho & _ & _ & _ & Hok & _).
  assert (∃ m', r.1 = Val (true, m')) as [m' Hr] by (eexists; vm_compute; reflexivity).
  rewrite Hr in Ho. injection Ho as <- _.
  exact (proj1 (Hok eq_refl)).
Defined.

(** ** The filter of the Seccomp module *)

Lemma allow_loop_nil : Seccomp.allow_loop [] = mret tt.
Proof. reflexivity. Qed.

Lemma allow_loop_cons c rest :
  Seccomp.allow_loop (c :: rest) =
  (call (CSeccompResolveName c)
   ≫= λ nr, (if negb (rv nr =? K.NR_SCMP_ERROR)
             then call (CSeccompRuleAdd K.SCMP_ACT_ALLOW (rv nr)) ≫= λ _, mret tt
             else mret tt)
            ≫= λ _, Seccomp.allow_loop rest).
Proof. reflexivity. Qed.

Lemma resolve_loop_nil : Seccomp.resolve_loop [] = mret tt.
Proof. reflexivity. Qed.

Lemma resolve_loop_cons c rest :
  Seccomp.resolve_loop (c :: rest) =
  (call (CSeccompResolveName c) ≫= λ _, Seccomp.resolve_loop rest).
Proof. reflexivity. Qed.

Lemma allow_loop_spec calls os h o t :
  runProg (Seccomp.allow_loop calls) os h = (o, t) →
  o = Val tt ∧ map fst (omap resolved t) = calls ∧
  omap rule_added t = allow_rules (omap resolved t) ∧
  List.filter is_seccomp_release (calls_of t) = [].
Proof.
  revert h o t. induction calls as [|c rest IH]; intros h o t H.
  - rewrite allow_loop_nil, run_ret in H. injection H as <- <-. repeat split.
  - rewrite allow_loop_cons in H. rewrite !run_bind, run_call in H.
    cbv beta iota in H.
    destruct (negb (rv _ =? K.NR_SCMP_ERROR)) eqn:Hn in H.
    + repeat progress (rewrite ?run_bind, ?run_call, ?run_ret in H; cbv beta iota in H).
      destruct (runProg (Seccomp.allow_loop rest) os _) as [o2 t2] eqn:Hl.
      injection H as <- <-. destruct (IH _ _ _ Hl) as (-> & Hr & Ha & Hf).
      split; [reflexivity|]. unfold allow_rules in *. simpl.
      change (list_omap SysEvent (string * Z)%type resolved t2) with (omap resolved t2).
      change (list_omap SysEvent (Z * Z)%type rule_added t2) with (omap rule_added t2).
      rewrite Hn, Hr, Ha. simpl. repeat split. exact Hf.
    + repeat progress (rewrite ?run_bind, ?run_call, ?run_ret in H; cbv beta iota in H).
      destruct (runProg (Seccomp.allow_loop rest) os _) as [o2 t2] eqn:Hl.
      injection H as <- <-. destruct (IH _ _ _ Hl) as (-> & Hr & Ha & Hf).
      split; [reflexivity|]. unfold allow_rules in *. simpl.
      change (list_omap SysEvent (string * Z)%type resolved t2) with (omap resolved t2).
      change (list_omap SysEvent (Z * Z)%type rule_added t2) with (omap rule_added t2).
      rewrite Hn, Hr, Ha. simpl. repeat split. exact Hf.
Qed.

Lemma resolve_loop_spec calls os h o t :
  runProg (Seccomp.resolve_loop calls) os h = (o, t) →
  o = Val tt ∧ map fst (omap resolved t) = calls ∧
  omap rule_added t = [] ∧
  List.filter is_seccomp_release (calls_of t) = [].
Proof.
  revert h o t. induction calls as [|c rest IH]; intros h o t H.
  - rewrite resolve_loop_nil, run_ret in H. injection H as <- <-. repeat split.
  - rewrite resolve_loop_cons in H. rewrite !run_bind, run_call in H.
    cbv beta iota in H.
    destruct (runProg (Seccomp.resolve_loop rest) os _) as [o2 t2] eqn:Hl.
    injection H as <- <-. destruct (IH _ _ _ Hl) as (-> & Hr & Ha & Hf).
    split; [reflexivity|]. simpl.
    change (list_omap SysEvent (string * Z)%type resolved t2) with (omap resolved t2).
    change (list_omap SysEvent (Z * Z)%type rule_added t2) with (omap rule_added t2).
    rewrite Hr, Ha. repeat split. exact Hf.
Qed.

(** X18.  [Seccomp::generateDefaultPolicy] starts with [seccomp_init] on
    the default action of the object and, without a context, fails with no
    further call.  With a context it ends on every path with the one
    [seccomp_release].  Before that it resolves the essential names and
    then the dangerous names, and the rules it adds are exactly one ALLOW
    rule for each essential name that resolved: no rule is added for a
    dangerous name, and a refused rule is not an error.  On success the
    filter kept is the one of the second export. *)
Theorem seccomp_default_policy_allowlist m os h o t :
  runProg (Seccomp.generateDefaultPolicy m) os h = (o, t) →
  ∃ ok m1 r t',
    o = Val (ok, m1) ∧ t = (CSeccompInit (Seccomp.defaultAction_ m), r) :: t' ∧
    (rv r = 0 → ok = false ∧ t' = [] ∧ m1 = m) ∧
    (rv r ≠ 0 →
     ∃ t'' a, t' = t'' ++ [(CSeccompRelease, a)] ∧
       List.filter is_seccomp_release (calls_of t'') = [] ∧
       map fst (omap resolved t'') = Seccomp.essentialCalls ++ Seccomp.dangerousCalls ∧
       omap rule_added t'' =
         allow_rules (take (length Seccomp.essentialCalls) (omap resolved t''))) ∧
    (ok = true →
     ∃ t3 r2 a, t = t3 ++ [(CSeccompExportBpf true, r2); (CSeccompRelease, a)] ∧
                Seccomp.filterBlob_ m1 = data r2).
Proof.
  intros H. unfold Seccomp.generateDefaultPolicy in H.
  run_inv H.
  all: repeat match goal with
       | Hl : runProg (Seccomp.allow_loop _) _ _ = _ |- _ =>
           apply allow_loop_spec in Hl; destruct Hl as (Hao & Har & Haa & Haf)
       | Hl : runProg (Seccomp.resolve_loop _) _ _ = _ |- _ =>
           apply resolve_loop_spec in Hl; destruct Hl as (Hro & Hrr & Hra & Hrf)
       end; try discriminate.
  all: injection H as <- <-.
  all: repeat match goal with
       | Hb : (rv _ =? 0) = true |- _ => apply Z.eqb_eq in Hb
       | Hb : (rv _ =? 0) = false |- _ => apply Z.eqb_neq in Hb
       end.
  all: eexists _, _, _, _; split; [reflexivity|]; split; [reflexivity|].
  all: split; [intros Hz; first [repeat split; reflexivity | contradiction]|].
  all: split; [intros Hz; try contradiction|].
  all: try (intros Hok; try discriminate Hok).
  1-3: match goal with
       | |- ∃ _ _, ?l ++ ?l0 ++ ?lit = _ ∧ _ =>
           match lit with
           | [?x; _] => exists (l ++ l0 ++ [x])
           | [?x; ?y; _] => exists (l ++ l0 ++ [x; y])
           end;
           eexists; split; [rewrite <- !app_assoc; reflexivity|];
           rewrite !calls_of_app, !List.filter_app, !omap_app, !map_app, Haf, Hrf, Haa, Hra;
           repeat match goal with
                  | |- context [omap resolved (?x :: ?y)] =>
                      change (omap resolved (x :: y)) with (@nil (string * Z)%type)
                  | |- context [omap rule_added (?x :: ?y)] =>
                      change (omap rule_added (x :: y)) with (@nil (Z * Z)%type)
                  end;
           split; [reflexivity|]; split;
           [rewrite Har, Hrr; change (map fst (@nil (string * Z)%type)) with (@nil string);
            rewrite app_nil_r; reflexivity|];
           rewrite <- Har, length_map, !app_nil_r, take_app_length; reflexivity
       end.
  match goal with
  | |- ∃ _ _ _, ?e :: ?l ++ ?l0 ++ [?x; _; _] = _ ∧ _ =>
      exists (e :: l ++ l0 ++ [x])
  end.
  eexists _, _. split; [|reflexivity].
  simpl. rewrite <- !app_assoc. reflexivity.
Qed.

Lemma seccomp_default_policy_allowlist_witness :
  let r := runProg (Seccomp.generateDefaultPolicy Seccomp.new) (os_ok 0 []) [] in
  ∃ m1 t3 r2 a,
    r.1 = Val (true, m1) ∧
    r.2 = t3 ++ [(CSeccompExportBpf true, r2); (CSeccompRelease, a)] ∧
    Seccomp.filterBlob_ m1 = data r2.
Proof.
  intros r.
  destruct (seccomp_default_policy_allowlist Seccomp.new (os_ok 0 []) [] r.1 r.2
              (surjective_pairing r))
    as (ok & m1 & r0 & t' & Ho & _ & _ & _ & Hok).
  assert (∃ m', r.1 = Val (true, m')) as [m' Hr] by (eexists; vm_compute; reflexivity).
  rewrite Hr in Ho. injection Ho as <- <-.
  destruct (Hok eq_refl) as (t3 & r2 & a & Ht & Hblob).
  exists m', t3, r2, a. split; [exact Hr|]. split; [exact Ht | exact Hblob].
Defined.

Lemma generateDefaultPolicy_first_call m os h o t :
  runProg (Seccomp.generateDefaultPolicy m) os h = (o, t) →
  ∃ r t', t = (CSeccompInit (Seccomp.defaultAction_ m), r) :: t'.
Proof.
  intros H. unfold Seccomp.generateDefaultPolicy in H.
  rewrite run_bind, run_call in H. cbv beta iota in H.
  destruct (runProg _ os _) as [o2 t2]. injection H as _ <-.
  eexists _, _. reflexivity.
Qed.

(** X19.  With a profile path in the configuration, [Seccomp::initialize]
    only reads that file: the read is its one call, it fails exactly when
    the read fails, and what was read is dropped (the filter of the object
    is unchanged).  When the object had no filter, the child therefore
    builds the default allow-list itself: [applyChild] starts with
    [seccomp_init] on the selected default action. *)
Theorem seccomp_profile_only_read config m os h ok m1 t :
  string_empty (seccomp_profile_path (security config)) = false →
  runProg (Seccomp.initialize config m) os h = (Val (ok, m1), t) →
  ∃ r, t = [(CReadFile (seccomp_profile_path (security config)), r)] ∧
       (ok = true ↔ rv r ≠ 0) ∧
       Seccomp.enabled_ m1 = true ∧
       Seccomp.filterBlob_ m1 = Seccomp.filterBlob_ m ∧
       (Seccomp.filterBlob_ m = "" →
        ∀ h' o' t', runProg (Seccomp.applyChild config m1) os h' = (o', t') →
          ∃ r' t'', t' = (CSeccompInit (Seccomp.defaultAction_ m1), r') :: t'').
Proof.
  intros Hp H.
  assert (∃ r, t = [(CReadFile (seccomp_profile_path (security config)), r)] ∧
               (ok = true ↔ rv r ≠ 0) ∧ Seccomp.enabled_ m1 = true ∧
               Seccomp.filterBlob_ m1 = Seccomp.filterBlob_ m) as (r & Ht & Hok & Hen & Hbl).
  { unfold Seccomp.initialize, Seccomp.loadProfile, Syscall.readFile in H.
    rewrite Hp, orb_true_r in H. cbn [negb] in H. cbv beta iota zeta in H.
    run_inv H; injection H as <- <- <-.
    all: eexists; split; [reflexivity|].
    all: destruct (Z.eqb_spec (rv r) 0) as [Hz|Hz]; try discriminate Hb.
    all: split; [split; intros; first [reflexivity | assumption | discriminate | contradiction]
                |split; reflexivity]. }
  exists r. split; [exact Ht|]. split; [exact Hok|]. split; [exact Hen|].
  split; [exact Hbl|].
  intros Hempty h' o' t' Ha.
  unfold Seccomp.applyChild, Seccomp.installFilter, Seccomp.loadDefaultAllowlist in Ha.
  rewrite Hen, Hbl, Hempty in Ha. cbn [negb string_empty] in Ha.
  rewrite !run_bind in Ha.
  destruct (runProg (Seccomp.generateDefaultPolicy m1) os h') as [o1 t1] eqn:Hg.
  destruct (generateDefaultPolicy_first_call _ _ _ _ _ Hg) as (r' & t'' & ->).
  destruct o1 as [[ok1 m2]|c|]; [|injection Ha as _ <-; eexists _, _; reflexivity..].
  destruct ok1;
    repeat progress (cbn [negb] in Ha; rewrite ?run_ret in Ha; cbv beta iota in Ha).
  - destruct (runProg _ os _) as [o2 t2] in Ha. injection Ha as _ <-.
    eexists _, _. reflexivity.
  - injection Ha as _ <-. eexists _, _. reflexivity.
Qed.

Lemma seccomp_profile_only_read_witness :
  let config := with_profile "/etc/sandbox/profile.json" (with_policy "strict" createDefaultConfig) in
  let os := os_readable "{}" in
  let i := runProg (Seccomp.initialize config Seccomp.new) os [] in
  ∃ m1, i.1 = Val (true, m1) ∧
        calls_of i.2 = [CReadFile "/etc/sandbox/profile.json"] ∧
        hd_error (calls_of (runProg (Seccomp.applyChild config m1) os i.2).2) =
        Some (CSeccompInit Seccomp.ACTION_KILL).
Proof.
  intros config os i.
  assert (∃ m1, i = (Val (true, m1), i.2) ∧ Seccomp.defaultAction_ m1 = Seccomp.ACTION_KILL)
    as (m1 & Hi & Hact) by (eexists; split; vm_compute; reflexivity).
  destruct (seccomp_profile_only_read config Seccomp.new os [] true m1 i.2 eq_refl Hi)
    as (r & Ht & _ & _ & _ & Hchild).
  exists m1. split; [rewrite Hi; reflexivity|]. split; [rewrite Ht; reflexivity|].
  destruct (Hchild eq_refl i.2 _ _ (surjective_pairing _)) as (r' & t'' & ->).
  rewrite <- Hact. reflexivity.
Defined.

(** ** The bootstrap of the root filesystem *)

(** X20.  [RootFS::initialize] first asks whether the root filesystem
    exists, and forks for [debootstrap] exactly when [auto_bootstrap] is set
    and it does not.  It succeeds only when its last call is an existence
    check of the path that succeeded, so also after a bootstrap that
    reported success.  In the forked child it never returns: the child
    ends in [debootstrap] (run on the release, the path and the Ubuntu
    mirror; the distribution name is not used) or exits with 1.  In the
    parent, and when the fork fails, it returns. *)
Theorem rootfs_initialize_bootstrap config m os h o t :
  runProg (RootFS.initialize config m) os h = (o, t) →
  let path := rootfs_path (sandbox config) in
  ∃ r t', t = (CExists path, r) :: t' ∧
    List.filter is_fork (calls_of t) =
      (if auto_bootstrap (sandbox config) && (rv r =? 0) then [CFork] else []) ∧
    (∀ m1, o = Val (true, m1) →
       ∃ t0 r2, t = t0 ++ [(CExists path, r2)] ∧ rv r2 ≠ 0 ∧
         m1 = {| RootFS.state_ := ModuleState.INITIALIZED; RootFS.rootPath_ := path;
                 RootFS.oldRootPath_ := "/oldroot";
                 RootFS.bootstrapRequired_ :=
                   auto_bootstrap (sandbox config) && (rv r =? 0) |}) ∧
    (∀ p, (CFork, p) ∈ t → rv p = 0 →
       (o = Execed ∨ o = Exited 1) ∧
       ∃ a, t' = [(CFork, p); (debootstrap_call config, a)]) ∧
    (∀ p, (CFork, p) ∈ t → rv p ≠ 0 → ∃ v, o = Val v).
Proof.
  intros H path. unfold RootFS.initialize, RootFS.exists_, RootFS.bootstrap in H.
  cbn [RootFS.rootPath_] in H. fold path in H.
  destruct (auto_bootstrap (sandbox config)); run_inv H.
  all: try match goal with
       | Hr : runProg (exec_call ?c) ?os ?hh = _ |- _ =>
           unfold exec_call in Hr; cbn [runProg] in Hr; cbv zeta in Hr;
           set (ra := answer os hh c) in Hr; clearbody ra;
           destruct (rv ra <? 0) eqn:Hra; try discriminate Hr;
           inversion Hr; subst; clear Hr
       end.
  all: injection H as <- <-.
  all: repeat match goal with
       | Hb : negb _ = true |- _ => apply negb_true_iff in Hb
       | Hb : negb _ = false |- _ => apply negb_false_iff in Hb
       | Hb : (rv _ =? _) = true |- _ => apply Z.eqb_eq in Hb
       | Hb : (rv _ =? _) = false |- _ => apply Z.eqb_neq in Hb
       | Hb : (rv _ <? _) = true |- _ => apply Z.ltb_lt in Hb
       | Hb : (rv _ <? _) = false |- _ => apply Z.ltb_ge in Hb
       end.
  all: cbn [app]; eexists _, _; split; [reflexivity|].
  all: split;
    [cbn [andb]; destruct (Z.eqb_spec (rv r) 0); try contradiction; try lia; reflexivity|].
  all: split;
    [intros m1 Ho;
     first [ discriminate Ho
           | injection Ho as <-;
             first [ eexists [], _; split; [reflexivity|]
                   | eexists [_], _; split; [reflexivity|]
                   | eexists [_; _], _; split; [reflexivity|]
                   | eexists [_; _; _], _; split; [reflexivity|] ];
             split; [assumption|];
             cbn [andb]; destruct (Z.eqb_spec (rv r) 0); try contradiction; try lia;
             reflexivity ]|].
  all: split; intros p Hin Hp;
    repeat (apply elem_of_cons in Hin as [Hin|Hin];
            [try discriminate Hin; injection Hin as -> |]);
    try (apply elem_of_nil in Hin; contradiction);
    try lia;
    first [ split; [first [left; reflexivity | right; reflexivity] | eexists; reflexivity]
          | eexists; reflexivity ].
Qed.

Lemma rootfs_initialize_bootstrap_witness :
  let config := with_bootstrap true createDefaultConfig in
  let i := runProg (RootFS.initialize config RootFS.new) os_no_rootfs [] in
  List.filter is_fork (calls_of i.2) = [CFork].
Proof.
  intros config i.
  destruct (rootfs_initialize_bootstrap config RootFS.new os_no_rootfs [] i.1 i.2
              (surjective_pairing i)) as (r & t1 & Ht & Hf & _).
  assert (option_map (λ e : SysEvent, rv e.2) (hd_error i.2) = Some 0) as Hh
    by (vm_compute; reflexivity).
  rewrite Ht in Hh. injection Hh as Hr. rewrite Hr in Hf. exact Hf.
Defined.

(** ** The exit code of a result *)

Lemma WTERMSIG_range st : 0 <= WTERMSIG st <= 127.
Proof.
  unfold WTERMSIG. change (Z.land st 0x7f) with (Z.land st (Z.ones 7)).
  rewrite Z.land_ones by lia.
  change (2 ^ 7) with 128. pose proof (Z.mod_pos_bound st 128 ltac:(lia)). lia.
Qed.

Lemma WEXITSTATUS_range st : 0 <= WEXITSTATUS st <= 255.
Proof.
  unfold WEXITSTATUS.
  assert (Z.shiftr (Z.land st 0xff00) 8 = Z.land (Z.shiftr st 8) (Z.ones 8)) as ->.
  { rewrite Z.shiftr_land. reflexivity. }
  rewrite Z.land_ones by lia.
  change (2 ^ 8) with 256. pose proof (Z.mod_pos_bound (Z.shiftr st 8) 256 ltac:(lia)). lia.
Qed.

Lemma WIFSIGNALED_range st : WIFSIGNALED st = true → 1 <= WTERMSIG st <= 126.
Proof.
  unfold WIFSIGNALED. fold (WTERMSIG st). pose proof (WTERMSIG_range st) as Hr.
  generalize dependent (WTERMSIG st). intros s Hs Hsig.
  apply Z.ltb_lt in Hsig. unfold signed_char in Hsig. cbv zeta in Hsig.
  rewrite Z.shiftr_div_pow2 in Hsig by lia.
  destruct (Z.ltb_spec ((s + 1) mod 256) 128) as [Hlt|Hge];
    Z.to_euclidean_division_equations; lia.
Qed.

Lemma interpret_status_range w c st base :
  exitCode base = -1 → success base = false → errorMessage base = "" →
  let res := interpret_status w c st base in
  (success res = true ↔ exitCode res = 0) ∧
  -126 <= exitCode res <= 255 ∧
  (exitCode res < -1 →
   errorMessage res = "Killed by signal: " +:+ to_string (- exitCode res)) ∧
  (0 <= exitCode res → errorMessage res = "").
Proof.
  intros He Hs Hm. unfold interpret_status.
  pose proof (WEXITSTATUS_range st) as Hx. pose proof (WTERMSIG_range st) as Ht.
  destruct (w =? c); [|cbv zeta; rewrite He, Hs; repeat split; intros; try lia; discriminate].
  destruct (WIFEXITED st).
  - cbv zeta. cbn [exitCode success errorMessage].
    split; [split; intros Hz; [apply Z.eqb_eq in Hz; exact Hz | apply Z.eqb_eq; exact Hz]|].
    split; [lia|]. split; [intros; lia | intros; exact Hm].
  - destruct (WIFSIGNALED st) eqn:Hsig.
    + apply WIFSIGNALED_range in Hsig. cbv zeta. cbn [exitCode success errorMessage].
      repeat split; try lia; try discriminate.
      intros _. rewrite Z.opp_involutive. reflexivity.
    + cbv zeta; rewrite He, Hs; repeat split; intros; try lia; discriminate.
Qed.

(** X21.  Whatever happens in a run, its result has [success] set exactly
    when the exit code is 0, and an exit code between -126 and 255: the
    exit status of the child, the negated number of the signal that killed
    it, or -1.  An exit code below -1 comes with the message of the signal;
    an exit code from 0 on comes with no message.  The code -1 is shared by
    a failed run, a child killed by signal 1 and a child that was not
    reaped. *)
Theorem run_exit_code_range mgr os h res mgr' t :
  runProg (run mgr) os h = (Val (res, mgr'), t) →
  (success res = true ↔ exitCode res = 0) ∧
  -126 <= exitCode res <= 255 ∧
  (exitCode res < -1 →
   errorMessage res = "Killed by signal: " +:+ to_string (- exitCode res)) ∧
  (0 <= exitCode res → errorMessage res = "" ∧ 0 < childPid res).
Proof.
  intros H.
  unfold run, initializeModules, prepareChildProcess, cleanupModules in H.
  eng_abs H; injection H as <- <- <-.
  1-3: cbn; (split; [split; [discriminate | lia]|]; split; [lia|]; split; intros; lia).
  all: match goal with
       | |- context [interpret_status ?w ?c ?st ?base] =>
           destruct (interpret_status_range w c st base eq_refl eq_refl eq_refl)
             as (A & B & C & D)
       end.
  all: split; [exact A|]; split; [exact B|]; split; [exact C|].
  all: intros Hz; split; [exact (D Hz)|].
  all: rewrite interpret_status_childPid; cbn [childPid].
  all: match goal with
       | Hp : runProg (prepareChildProcess_loop _ _) _ _ = _ |- _ =>
           apply prepareChildProcess_loop_same, same_engine_childPid in Hp; rewrite Hp
       end.
  all: cbn [childPid_ setState set_childPid].
  all: repeat match goal with
       | Hb : (rv _ <? 0) = false |- _ => apply Z.ltb_ge in Hb
       | Hb : (rv _ =? 0) = false |- _ => apply Z.eqb_neq in Hb
       end; lia.
Qed.

Lemma run_exit_code_range_witness :
  let r := runProg (run (default_manager createDefaultConfig)) (os_ok 42 []) [] in
  option_map (λ res, (success res, exitCode res)) (run_result r) = Some (true, 0).
Proof.
  intros r.
  assert (option_map success (run_result r) = Some true) as Hs by (vm_compute; reflexivity).
  destruct r as [[[res mgr']|c|] tr] eqn:Hr; try discriminate Hs.
  injection Hs as Hs. unfold run_result. simpl.
  rewrite (proj1 (proj1 (run_exit_code_range _ _ _ _ _ _ Hr)) Hs), Hs. reflexivity.
Defined.

(** ** The cURL handle of the AI module *)

(** X22.  For an AI module object that holds no cURL handle,
    [AIAgent::initialize] asks for a handle only when the module is enabled
    in the configuration and the variable of the API key is set to a
    non-empty value (an unset or empty key is not an error), and it fails
    exactly when [curl_easy_init] gives no handle.  [cleanup] afterwards
    releases the handle exactly when one was obtained, and a second
    [cleanup] makes no call. *)
Theorem aiagent_curl_handle_released config m os h ok m1 t h1 o1 t1 :
  AIAgent.curlHandle_ m = false →
  runProg (AIAgent.initialize config m) os h = (Val (ok, m1), t) →
  runProg (AIAgent.cleanup m1) os h1 = (o1, t1) →
  calls_of t1 = (if existsb curl_acquired t then [CCurlEasyCleanup] else []) ∧
  (∃ m2, o1 = Val (true, m2) ∧
         ∀ h2, runProg (AIAgent.cleanup m2) os h2 = (Val (true, m2), [])) ∧
  (ok = false ↔ ∃ t0 r, t = t0 ++ [(CCurlEasyInit, r)] ∧ rv r = 0) ∧
  (∀ r, (CCurlEasyInit, r) ∈ t →
        ai_enabled (ai_module config) = true ∧ AIAgent.apiKey_ m1 ≠ "") ∧
  (ai_enabled (ai_module config) = false → t = []).
Proof.
  intros Hm Hi Hc.
  unfold AIAgent.initialize, AIAgent.getApiKey in Hi.
  unfold AIAgent.cleanup in Hc.
  destruct (ai_enabled (ai_module config)); run_inv Hi; injection Hi as <- <- <-.
  all: unfold AIAgent.set_state in *;
    cbn [AIAgent.curlHandle_ AIAgent.enabled_ AIAgent.apiKey_ AIAgent.state_] in *;
    rewrite ?Hm in Hc.
  all: repeat match goal with
       | Hb : (rv ?r =? 0) = _ |- _ => rewrite Hb in Hc; cbn [negb] in Hc
       end.
  all: repeat progress (rewrite ?run_bind, ?run_call, ?run_ret in Hc; cbv beta iota in Hc).
  all: injection Hc as <- <-.
  all: split; [cbn; repeat match goal with
                    | Hb : (rv ?r =? 0) = _ |- _ => rewrite Hb
                    end; reflexivity|].
  all: split; [eexists; split; [reflexivity|]; intros h2; reflexivity|].
  all: split; [|split; [|intros Hen; first [discriminate Hen | reflexivity]]].
  all: try (intros r' Hin;
            repeat (apply elem_of_cons in Hin as [Hin|Hin];
                    [try discriminate Hin|]);
            first
              [ apply elem_of_nil in Hin; contradiction
              | split; [reflexivity|];
                intros Hk;
                match goal with
                | Hb : string_empty _ = false |- _ => rewrite Hk in Hb; discriminate Hb
                end ]).
  all: split;
    [intros Hok;
     first [ discriminate Hok
           | eexists [_], _; split; [reflexivity | apply Z.eqb_eq; assumption] ]
    |intros (t0 & r' & Heq & Hz); try reflexivity; exfalso].
  - change [(CGetenv (api_key_env (ai_module config)), r)]
      with ([] ++ [(CGetenv (api_key_env (ai_module config)), r)]) in Heq.
    apply app_inj_tail in Heq as [_ Heq]. discriminate Heq.
  - match type of Heq with
    | [?a; ?b] = _ => change [a; b] with ([a] ++ [b]) in Heq
    end.
    apply app_inj_tail in Heq as [_ Heq]. injection Heq as <-.
    match goal with
    | Hb : (rv r0 =? 0) = false |- _ => apply Z.eqb_neq in Hb; contradiction
    end.
  - destruct t0; discriminate Heq.
Qed.

Lemma aiagent_curl_handle_released_witness :
  let config := with_ai true createDefaultConfig in
  let os := os_env "secret" in
  let i := runProg (AIAgent.initialize config AIAgent.new) os [] in
  ∃ m1, i.1 = Val (true, m1) ∧
        calls_of (runProg (AIAgent.cleanup m1) os i.2).2 = [CCurlEasyCleanup].
Proof.
  intros config os i.
  assert (∃ m1, i = (Val (true, m1), i.2)) as [m1 Hi] by (eexists; vm_compute; reflexivity).
  exists m1. split; [rewrite Hi; reflexivity|].
  destruct (aiagent_curl_handle_released config AIAgent.new os [] true m1 i.2 i.2 _ _
              eq_refl Hi (surjective_pairing _)) as (Hc & _).
  assert (existsb curl_acquired i.2 = true) as Ha by (vm_compute; reflexivity).
  rewrite Hc, Ha. reflexivity.
Defined.

(** ** Capability names *)

Lemma assoc_find_elem n tbl :
  Forall (λ p : string * Z, 0 <= p.2) tbl →
  0 <= Caps.assoc_find n tbl → (n, Caps.assoc_find n tbl) ∈ tbl.
Proof.
  induction 1 as [|[k v] tbl Hv _ IH]; simpl; [lia|].
  destruct (String.eqb_spec n k) as [->|Hne]; intros Hf.
  - apply elem_of_cons. left. reflexivity.
  - apply elem_of_cons. right. apply IH, Hf.
Qed.

Lemma assoc_find_miss n tbl :
  Forall (λ p : string * Z, 0 <= p.2) tbl →
  Caps.assoc_find n tbl < 0 → n ∉ map fst tbl.
Proof.
  induction 1 as [|[k v] tbl Hv _ IH]; simpl; [intros _ Hin; inversion Hin|].
  destruct (String.eqb_spec n k) as [->|Hne]; intros Hf; [simpl in Hv; lia|].
  intros Hin. apply elem_of_cons in Hin as [Hin|Hin]; [contradiction|].
  exact (IH Hf Hin).
Qed.

Lemma assoc_find_default n tbl :
  Forall (λ p : string * Z, 0 <= p.2) tbl →
  Caps.assoc_find n tbl < 0 → Caps.assoc_find n tbl = -1.
Proof.
  induction 1 as [|[k v] tbl Hv _ IH]; simpl; [reflexivity|].
  destruct (String.eqb n k); [simpl in Hv; lia | exact IH].
Qed.

Lemma table_values_inj (tbl : list (string * Z)) n n' v :
  NoDup (map snd tbl) → (n, v) ∈ tbl → (n', v) ∈ tbl → n = n'.
Proof.
  induction tbl as [|[k w] tbl IH]; intros Hnd H1 H2; [inversion H1|].
  simpl in Hnd. apply NoDup_cons in Hnd as [Hw Hnd].
  apply elem_of_cons in H1 as [H1|H1]; apply elem_of_cons in H2 as [H2|H2].
  - congruence.
  - injection H1 as -> ->. exfalso. apply Hw.
    apply list_elem_of_fmap. exists (n', w). split; [reflexivity | exact H2].
  - injection H2 as -> ->. exfalso. apply Hw.
    apply list_elem_of_fmap. exists (n, w). split; [reflexivity | exact H1].
  - exact (IH Hnd H1 H2).
Qed.

Lemma capTable_range : Forall (λ p : string * Z, 0 <= p.2 <= 31) Caps.capTable.
Proof. unfold Caps.capTable. repeat constructor; simpl; lia. Qed.

Lemma capTable_nonneg : Forall (λ p : string * Z, 0 <= p.2) Caps.capTable.
Proof. eapply Forall_impl; [apply capTable_range|]. simpl. intros p Hp. lia. Qed.

Lemma capTable_NoDup : NoDup (map snd Caps.capTable).
Proof.
  apply (bool_decide_unpack (NoDup (map snd Caps.capTable))). vm_compute. exact I.
Qed.

(** X23.  [Caps::capabilityFromName] gives -1 for a name outside its table
    and otherwise a number from 0 to 31, different for different names.
    [Caps::getKeepCapabilities] returns exactly the numbers of the known
    names among the capabilities of the configuration, in their order: an
    unknown name is dropped. *)
Theorem caps_known_names_kept config :
  (∀ n, Caps.capabilityFromName n = -1 ∨
        (0 <= Caps.capabilityFromName n <= 31 ∧ n ∈ map fst Caps.capTable)) ∧
  (∀ n n', 0 <= Caps.capabilityFromName n →
           Caps.capabilityFromName n = Caps.capabilityFromName n' → n = n') ∧
  Caps.getKeepCapabilities config =
    map Caps.capabilityFromName
      (List.filter (λ n, bool_decide (n ∈ map fst Caps.capTable))
         (capabilities (security config))).
Proof.
  assert (∀ n, Caps.capabilityFromName n = -1 ∨
               (0 <= Caps.capabilityFromName n <= 31 ∧ n ∈ map fst Caps.capTable)) as Hrange.
  { intros n. unfold Caps.capabilityFromName.
    destruct (Z.ltb_spec (Caps.assoc_find n Caps.capTable) 0) as [Hneg|Hpos].
    - left. apply assoc_find_default; [apply capTable_nonneg | exact Hneg].
    - right. pose proof (assoc_find_elem n _ capTable_nonneg Hpos) as Hin.
      split.
      + pose proof capTable_range as Hr. rewrite Forall_forall in Hr.
        exact (Hr (n, Caps.assoc_find n Caps.capTable) Hin).
      + apply list_elem_of_fmap. eexists. split; [|exact Hin]. reflexivity. }
  split; [exact Hrange|]. split.
  - intros n n' Hpos Heq. unfold Caps.capabilityFromName in *.
    pose proof (assoc_find_elem n _ capTable_nonneg Hpos) as H1.
    rewrite Heq in Hpos.
    pose proof (assoc_find_elem n' _ capTable_nonneg Hpos) as H2.
    rewrite <- Heq in H2.
    exact (table_values_inj _ _ _ _ capTable_NoDup H1 H2).
  - unfold Caps.getKeepCapabilities.
    enough (∀ names acc,
              fold_left (λ (caps : list Z) (capName : string),
                           let capNum := Caps.capabilityFromName capName in
                           if 0 <=? capNum then caps ++ [capNum] else caps) names acc =
              acc ++ map Caps.capabilityFromName
                       (List.filter (λ n, bool_decide (n ∈ map fst Caps.capTable)) names))
      as Hfold by exact (Hfold _ []).
    remember (map fst Caps.capTable) as known eqn:Hk.
    induction names as [|n rest IH]; intros acc.
    + simpl. rewrite app_nil_r. reflexivity.
    + simpl. destruct (Hrange n) as [Hm|[Hr Hin]].
      * rewrite Hm. simpl.
        rewrite bool_decide_eq_false_2; [apply IH|].
        rewrite Hk. apply assoc_find_miss; [apply capTable_nonneg|].
        unfold Caps.capabilityFromName in Hm. lia.
      * replace (0 <=? Caps.capabilityFromName n) with true by lia.
        rewrite bool_decide_eq_true_2 by exact Hin. simpl.
        rewrite IH, <- app_assoc. reflexivity.
Qed.
